(** * quipslop: broadcast renderer, state-sync client, capture sink,
    stream orchestrator and archive of rounds.

    A shallow embedding of the broadcast page script (text layout, round
    selection, vote tallies, scoreboard, round screen, logo cache,
    WebSocket handlers, capture sink), of the history view's tally, of the
    orchestrator (start-up path, chunk relay, pump, shutdown) and of the
    archive of rounds, together with the properties the specification
    states about them and further properties of the code.

    Numbers: measured widths and the width bound are finite and taken as
    rationals; line counts, indices, vote counts and times are integers. *)

From Stdlib Require Import QArith Qminmax.
From stdpp Require Import base option list sorting gmap strings.

Local Open Scope Z_scope.

(** ** JavaScript values used by the script *)

(** A JavaScript string is a sequence of UTF-16 code units. *)
Abbreviation jsstring := (list N).

(** Code units of a Rocq string literal (one per byte), for examples. *)
Fixpoint js (s : string) : jsstring :=
  match s with
  | EmptyString => []
  | String c r => Ascii.N_of_ascii c :: js r
  end.

(** [!s] and [Boolean(s)] on strings: the empty string is falsy. *)
Definition truthy (s : jsstring) : bool :=
  match s with [] => false | _ :: _ => true end.

(** [s.length] as a JavaScript number. *)
Definition jslen (s : jsstring) : Z := Z.of_nat (length s).

(** Relative index resolution of [String.prototype.slice]: a negative index
    counts from the end, and the result is clamped to [0, len]. *)
Definition clamp_index (len i : Z) : Z :=
  if i <? 0 then Z.max (len + i) 0 else Z.min i len.

(** [s.slice(b, e)] *)
Definition slice (s : jsstring) (b e : Z) : jsstring :=
  let from := clamp_index (jslen s) b in
  let to := clamp_index (jslen s) e in
  take (Z.to_nat (to - from)) (drop (Z.to_nat from) s).

(** [s.slice(b)] *)
Definition slice_from (s : jsstring) (b : Z) : jsstring :=
  slice s b (jslen s).

(** The code units matched by the regular expression class [\s]
    (WhiteSpace and LineTerminator of ECMAScript). *)
Definition is_ws (c : N) : bool :=
  ((9 <=? c) && (c <=? 13) || (c =? 32) || (c =? 160) || (c =? 0x1680)
   || (0x2000 <=? c) && (c <=? 0x200a) || (c =? 0x2028) || (c =? 0x2029)
   || (c =? 0x202f) || (c =? 0x205f) || (c =? 0x3000) || (c =? 0xfeff))%N.

(** [text.split(/\s+/)]: the pieces between maximal runs of white space,
    empty pieces at either end included.  [in_sep] tells that the previous
    code unit belonged to a separator run; [acc] is the piece being read. *)
Fixpoint split_ws (in_sep : bool) (acc : jsstring) (s : jsstring)
  : list jsstring :=
  match s with
  | [] => [acc]
  | c :: r =>
      if is_ws c then
        if in_sep then split_ws true acc r else acc :: split_ws true [] r
      else split_ws false (acc ++ [c]) r
  end.

(** [text.split(/\s+/).filter(Boolean)] *)
Definition words_of (text : jsstring) : list jsstring :=
  List.filter truthy (split_ws false [] text).

(** [s.startsWith(sub)] and [s.includes(sub)] *)
Fixpoint startsWith (s sub : jsstring) : bool :=
  match sub, s with
  | [], _ => true
  | c :: sub', d :: s' => (c =? d)%N && startsWith s' sub'
  | _ :: _, [] => false
  end.

Fixpoint includes (s sub : jsstring) : bool :=
  startsWith s sub
  || match s with
     | [] => false
     | _ :: r => includes r sub
     end.

(** How a call ends: it returns a value or throws. *)
Inductive outcome (A : Type) : Type :=
  | Returns (a : A)
  | Throws (e : string).
Arguments Returns {A} a.
Arguments Throws {A} e.

(** A [while] loop, with the number of condition tests bounded by [fuel]:
    [None] means the fuel ran out before the condition became false. *)
Fixpoint while_loop {S : Type} (fuel : nat) (cond : S → bool)
    (body : S → option S) (s : S) : option S :=
  match fuel with
  | O => None
  | Datatypes.S n =>
      if cond s then body s ≫= while_loop n cond body else Some s
  end.

(** ** Text layout: [textLines] of the broadcast script *)

Section TextLayout.

(** [measureText font s] is [ctx.measureText(s).width] while [ctx.font]
    is [font]. *)
Variable measureText : jsstring → jsstring → Q.

Section Closure.

(** What the closures of [textLines] capture. *)
Variables (maxWidth : Q) (font : jsstring).

(** [ctx.measureText(s).width <= maxWidth] *)
Definition fits (s : jsstring) : bool :=
  Qle_bool (measureText font s) maxWidth.

(** [ctx.measureText(s).width > maxWidth] *)
Definition overflows (s : jsstring) : bool := negb (fits s).

(** The least number of code units [splitWordToFit] cuts off. *)
Definition maxChunkLength : Z := 1.

(** Variables of the binary search inside [splitWordToFit]. *)
Record search := Search { low : Z; high : Z; best : Z }.

Definition search_cond (s : search) : bool := low s <=? high s.

Definition search_body (remaining : jsstring) (s : search) : search :=
  let mid := (low s + high s) `div` 2 in
  let candidate := slice remaining 0 mid in
  if fits candidate
  then {| low := mid + 1; high := high s; best := mid |}
  else {| low := low s; high := mid - 1; best := best s |}.

Definition search_init (remaining : jsstring) : search :=
  {| low := maxChunkLength; high := jslen remaining;
     best := maxChunkLength |}.

(** One round of the outer loop of [splitWordToFit]; the state is
    [(pieces, remaining)]. *)
Definition split_body (fuel : nat) (st : list jsstring * jsstring)
  : option (list jsstring * jsstring) :=
  let '(pieces, remaining) := st in
  s ← while_loop fuel search_cond
        (λ s, Some (search_body remaining s)) (search_init remaining);
  Some (pieces ++ [slice remaining 0 (best s)],
        slice_from remaining (best s)).

Definition split_cond (st : list jsstring * jsstring) : bool :=
  0 <? jslen st.2.

Definition splitWordToFit (fuel : nat) (word : jsstring)
  : option (list jsstring) :=
  if negb (truthy word) then Some []
  else if fits word then Some [word]
  else fst <$> while_loop fuel split_cond (split_body fuel) ([], word).

(** Local variables of [textLines] that the two [for] loops update. *)
Record layout := Layout { lines : list jsstring; current : jsstring }.

Variable maxLines : Z.

(** [lines.length >= maxLines - 1] *)
Definition cap_reached (ls : list jsstring) : bool :=
  maxLines - 1 <=? Z.of_nat (length ls).

(** The inner [for (const segment of segments)] loop.  It returns when
    the segments are used up or at its [break]. *)
Fixpoint place_segments (segments : list jsstring)
    (isFirstSegment : bool) (st : layout) : layout :=
  match segments with
  | [] => st
  | segment :: rest =>
      let prefix :=
        if isFirstSegment && truthy (current st) then js " " else [] in
      let candidate :=
        if truthy (current st) then current st ++ prefix ++ segment
        else segment in
      if fits candidate then
        place_segments rest false
          {| lines := lines st; current := candidate |}
      else
        let pushed :=
          if truthy (current st) then lines st ++ [current st]
          else lines st in
        let st' := {| lines := pushed; current := segment |} in
        if cap_reached pushed then st'
        else place_segments rest false st'
  end.

(** The outer [for (const word of words)] loop. *)
Fixpoint place_words (fuel : nat) (words : list jsstring) (st : layout)
  : option layout :=
  match words with
  | [] => Some st
  | word :: rest =>
      segments ← splitWordToFit fuel word;
      let st' := place_segments segments true st in
      if cap_reached (lines st') then Some st'
      else place_words fuel rest st'
  end.

(** The ellipsis loop: [trimmed.length > 3 &&
    ctx.measureText(`${trimmed}...`).width > maxWidth]. *)
Definition trim_cond (trimmed : jsstring) : bool :=
  (3 <? jslen trimmed) && overflows (trimmed ++ js "...").

Definition trim_body (trimmed : jsstring) : jsstring :=
  slice trimmed 0 (-1).

End Closure.

(** [lines.length = n] for [n] not above the length: a negative [n] is a
    RangeError, otherwise the array is cut to [n] elements. *)
Definition set_length (ls : list jsstring) (n : Z)
  : outcome (list jsstring) :=
  if n <? 0 then Throws "RangeError: Invalid array length"
  else Returns (take (Z.to_nat n) ls).

(** [ls[i]]: [undefined] outside of the array. *)
Definition array_get (ls : list jsstring) (i : Z) : option jsstring :=
  if i <? 0 then None else ls !! Z.to_nat i.

(** [ls[i] = v] for [i] below the length.  A negative [i] names an
    ordinary property, not an element: the elements stay as they are. *)
Definition array_set (ls : list jsstring) (i : Z) (v : jsstring)
  : list jsstring :=
  if i <? 0 then ls else <[Z.to_nat i := v]> ls.

(** The last [if] of [textLines]: the ellipsis on the final line. *)
Definition ellipsize (fuel : nat) (maxWidth : Q) (font : jsstring)
    (maxLines : Z) (words ls : list jsstring) : option (list jsstring) :=
  if (0 <? Z.of_nat (length words)) && (Z.of_nat (length ls) =? maxLines)
  then
    let last := default [] (array_get ls (maxLines - 1)) in
    if overflows maxWidth font last then
      trimmed ← while_loop fuel (trim_cond maxWidth font)
                   (λ t, Some (trim_body t)) last;
      Some (array_set ls (maxLines - 1) (trimmed ++ js "..."))
    else Some ls
  else Some ls.

(** [textLines(text, maxWidth, font, maxLines)]; its first statement,
    [ctx.font = font], is why the measurements are taken in [font].  The
    callers, [drawRound] and [drawTextBlock], always pass [maxLines] (3 or
    6), so its default value plays no part.  [None]: out of fuel. *)
Definition textLines (fuel : nat) (text : jsstring) (maxWidth : Q)
    (font : jsstring) (maxLines : Z) : option (outcome (list jsstring)) :=
  let words := words_of text in
  st ← place_words maxWidth font maxLines fuel words
         {| lines := []; current := [] |};
  let pushed :=
    if truthy (current st) then lines st ++ [current st] else lines st in
  let cut :=
    if maxLines <? Z.of_nat (length pushed) then set_length pushed maxLines
    else Returns pushed in
  match cut with
  | Throws e => Some (Throws e)
  | Returns ls => Returns <$> ellipsize fuel maxWidth font maxLines words ls
  end.

End TextLayout.

(** ** Data model shared by the broadcast script and the history view *)

Record Model := { model_id : jsstring; name : jsstring }.

Record TaskInfo := {
  model : Model;
  startedAt : Z;
  finishedAt : option Z;
  result : option jsstring;
  error : option jsstring;
}.

Record VoteInfo := {
  voter : Model;
  vote_startedAt : Z;
  vote_finishedAt : option Z;
  votedFor : option Model;
  vote_error : option bool;
}.

Inductive Phase := prompting | answering | voting | done_phase.

Record RoundState := {
  num : Z;
  phase : Phase;
  prompter : Model;
  promptTask : TaskInfo;
  prompt : option jsstring;
  contestants : Model * Model;
  answerTasks : TaskInfo * TaskInfo;
  votes : list VoteInfo;
  scoreA : option Z;
  scoreB : option Z;
  viewerVotesA : option Z;
  viewerVotesB : option Z;
  viewerVotingEndsAt : option Z;
}.

(** A [Record<string, number>], in the order of [Object.entries]. *)
Abbreviation scoreboard := (list (jsstring * Z)).

Record GameState := {
  lastCompleted : option RoundState;
  active : option RoundState;
  scores : scoreboard;
  viewerScores : option scoreboard;
  done : bool;
  isPaused : bool;
  generation : Z;
}.

Global Instance Phase_eq_dec : EqDecision Phase.
Proof. solve_decision. Defined.

(** ** Round selection: [draw] of the broadcast script *)

(** The drawing routines [draw] calls, with their arguments. *)
Inductive draw_call :=
  | DrawHeader
  | DrawWaiting
  | DrawScoreboard (s v : scoreboard)
  | DrawDone (s : scoreboard)
  | DrawRound (round : RoundState).

(** [state.active?.phase === "prompting" && !state.active.prompt] *)
Definition isNextPrompting (st : GameState) : bool :=
  match active st with
  | Some a =>
      bool_decide (phase a = prompting)
      && negb (from_option truthy false (prompt a))
  | None => false
  end.

(** [isNextPrompting && state.lastCompleted ? state.lastCompleted
      : (state.active ?? state.lastCompleted ?? null)] *)
Definition displayRound (st : GameState) : option RoundState :=
  if isNextPrompting st && bool_decide (is_Some (lastCompleted st))
  then lastCompleted st
  else match active st with
       | Some a => Some a
       | None => lastCompleted st
       end.

(** [draw()], reading the script's variable [state]. *)
Definition draw (state : option GameState) : list draw_call :=
  DrawHeader ::
  match state with
  | None => [DrawWaiting]
  | Some st =>
      DrawScoreboard (scores st) (default [] (viewerScores st)) ::
      (if done st then [DrawDone (scores st)]
       else match displayRound st with
            | Some round => [DrawRound round]
            | None => [DrawWaiting]
            end)
  end.

(** ** Vote tallies *)

(** [vote.votedFor?.name === n], for a string [n]. *)
Definition votedFor_named (vote : VoteInfo) (n : jsstring) : bool :=
  match votedFor vote with
  | Some m => bool_decide (name m = n)
  | None => false
  end.

(** The locals [votesA], [votesB] and [taskVoters] of
    [drawContestantCard]. *)
Record card_tally := {
  votesA : Z;
  votesB : Z;
  taskVoters : list VoteInfo;
}.

(** The body of [for (const vote of round.votes)] in
    [drawContestantCard]: three independent [if]s. *)
Definition card_vote (a b : Model) (task : TaskInfo)
    (t : card_tally) (vote : VoteInfo) : card_tally :=
  {| votesA := if votedFor_named vote (name a) then votesA t + 1
               else votesA t;
     votesB := if votedFor_named vote (name b) then votesB t + 1
               else votesB t;
     taskVoters := if votedFor_named vote (name (model task))
                   then taskVoters t ++ [vote] else taskVoters t |}.

Definition card_votes (task : TaskInfo) (round : RoundState) : card_tally :=
  let '(a, b) := contestants round in
  foldl (card_vote a b task)
    {| votesA := 0; votesB := 0; taskVoters := [] |} (votes round).

(** [round.answerTasks[0].model.name === task.model.name] *)
Definition isFirst (task : TaskInfo) (round : RoundState) : bool :=
  bool_decide (name (model (answerTasks round).1) = name (model task)).

Definition voteCount (task : TaskInfo) (round : RoundState) : Z :=
  let t := card_votes task round in
  if isFirst task round then votesA t else votesB t.

(** [round.phase === "done" && voteCount > (isFirst ? votesB : votesA)];
    the WIN badge of the card is drawn exactly when this holds. *)
Definition isWinner (task : TaskInfo) (round : RoundState) : bool :=
  let t := card_votes task round in
  bool_decide (phase round = done_phase)
  && (voteCount task round >?
        (if isFirst task round then votesB t else votesA t)).

(** What [drawContestantCard] puts on a card, in drawing order. *)
Inductive card_part :=
  | AccentBar (width : Z)
  | WinnerHighlight
  | CardName (n : jsstring)
  | WinBadge
  | AnswerText
  | JudgeVotes (count : Z) (voters : list VoteInfo).

(** [drawContestantCard(task, x, y, w, h, round)], without the geometry
    and the viewer votes. *)
Definition drawContestantCard (task : TaskInfo) (round : RoundState)
  : list card_part :=
  let winner := isWinner task round in
  let showVotes :=
    bool_decide (phase round = voting)
    || bool_decide (phase round = done_phase) in
  [AccentBar (if winner then 6 else 4)]
  ++ (if winner then [WinnerHighlight] else [])
  ++ [CardName (name (model task))]
  ++ (if winner then [WinBadge] else [])
  ++ [AnswerText]
  ++ (if showVotes
      then [JudgeVotes (voteCount task round)
              (taskVoters (card_votes task round))]
      else []).

(** The two cards [drawRound] draws, for [answerTasks[0]] and
    [answerTasks[1]], when the phase is not "prompting". *)
Definition drawn_cards (round : RoundState)
  : option (list card_part * list card_part) :=
  if bool_decide (phase round = prompting) then None
  else Some (drawContestantCard (answerTasks round).1 round,
             drawContestantCard (answerTasks round).2 round).

(** The locals of [HistoryCard] in the history view. *)
Record history_tally := {
  h_votesA : Z;
  h_votesB : Z;
  votersA : list Model;
  votersB : list Model;
}.

(** The body of [for (const v of round.votes)] in [HistoryCard]: an
    [if ... else if]. *)
Definition history_vote (contA contB : Model)
    (t : history_tally) (v : VoteInfo) : history_tally :=
  if votedFor_named v (name contA) then
    {| h_votesA := h_votesA t + 1; h_votesB := h_votesB t;
       votersA := votersA t ++ [voter v]; votersB := votersB t |}
  else if votedFor_named v (name contB) then
    {| h_votesA := h_votesA t; h_votesB := h_votesB t + 1;
       votersA := votersA t; votersB := votersB t ++ [voter v] |}
  else t.

Definition history_votes (round : RoundState) : history_tally :=
  let '(contA, contB) := contestants round in
  foldl (history_vote contA contB)
    {| h_votesA := 0; h_votesB := 0; votersA := []; votersB := [] |}
    (votes round).

(** [votesA > votesB] and [votesB > votesA]: the WINNER badges. *)
Definition isAWinner (round : RoundState) : bool :=
  h_votesA (history_votes round) >? h_votesB (history_votes round).

Definition isBWinner (round : RoundState) : bool :=
  h_votesB (history_votes round) >? h_votesA (history_votes round).

(** [getLogo(name)] of the history view. *)
Definition getLogo (n : jsstring) : option jsstring :=
  if includes n (js "Gemini") then Some (js "/assets/logos/gemini.svg")
  else if includes n (js "Kimi") then Some (js "/assets/logos/kimi.svg")
  else if includes n (js "DeepSeek")
  then Some (js "/assets/logos/deepseek.svg")
  else if includes n (js "GLM") then Some (js "/assets/logos/glm.svg")
  else if includes n (js "GPT") then Some (js "/assets/logos/openai.svg")
  else if includes n (js "Opus") || includes n (js "Sonnet")
  then Some (js "/assets/logos/claude.svg")
  else if includes n (js "Grok") then Some (js "/assets/logos/grok.svg")
  else if includes n (js "MiniMax")
  then Some (js "/assets/logos/minimax.svg")
  else None.

(** An [<img>] of a voter: its [src] and its [title]. *)
Record voter_logo := { logo_src : jsstring; logo_title : jsstring }.

(** [voters.map((v) => getLogo(v.name) && <img src={getLogo(v.name)}
    title={v.name} />)], as rendered: a voter whose name has no logo
    gives [null], which shows nothing. *)
Definition voter_logos (voters : list Model) : list voter_logo :=
  omap (λ v, (λ logo, {| logo_src := logo; logo_title := name v |})
             <$> getLogo (name v))
    voters.

(** What [HistoryCard] shows for one contestant: the name, the badge, the
    answer, and the count of votes with the logos of the voters. *)
Inductive history_part :=
  | HistoryName (m : Model)
  | WinnerBadge
  | HistoryAnswer (answer : option jsstring)
  | HistoryVotes (count : Z) (logos : list voter_logo).

(** The two columns of [HistoryCard], for [contA] and [contB]. *)
Definition HistoryCard (round : RoundState)
  : list history_part * list history_part :=
  let '(contA, contB) := contestants round in
  let t := history_votes round in
  ([HistoryName contA]
   ++ (if isAWinner round then [WinnerBadge] else [])
   ++ [HistoryAnswer (result (answerTasks round).1);
       HistoryVotes (h_votesA t) (voter_logos (votersA t))],
   [HistoryName contB]
   ++ (if isBWinner round then [WinnerBadge] else [])
   ++ [HistoryAnswer (result (answerTasks round).2);
       HistoryVotes (h_votesB t) (voter_logos (votersB t))]).

(** ** State-sync client: the WebSocket handlers of the broadcast script *)

(** A number read from a message: finite, or one of NaN and the
    infinities (or not a number at all). *)
Inductive jsnumber :=
  | Finite (q : Q)
  | NotFinite.

(** A message of the server.  [data] of a state message is [None] when
    the field is null or missing: the handler stores it as it comes. *)
Inductive ServerMessage :=
  | StateMessage (data : option GameState) (msg_totalRounds : jsnumber)
      (msg_viewerCount : Z) (version : option jsstring)
  | ViewerCountMessage (msg_viewerCount : Z)
  | OtherMessage.

(** [e.data]: text on which [JSON.parse] (or reading the parsed value)
    throws, or a parsed message. *)
Inductive payload :=
  | Malformed
  | Parsed (msg : ServerMessage).

(** The variables of the script and the parts of the browser they act on. *)
Record page := {
  state : option GameState;
  totalRounds : option Q;
  viewerCount : Z;
  connected : bool;
  ws : option nat;
  reconnectTimer : option nat;
  lastMessageAt : Z;
  knownVersion : option jsstring;
  (** [statusEl.textContent] *)
  statusText : string;
  (** timers of [window] that are set and have neither fired nor been
      cleared, with their delay in milliseconds; the callback of every one
      of them is [setupWebSocket] *)
  pending_timers : gmap nat Z;
  (** the identifier the next [window.setTimeout] returns *)
  next_timer : nat;
  (** how many [WebSocket]s have been constructed *)
  sockets : nat;
  (** how many times [location.reload()] has been called *)
  reloads : nat;
}.

Definition set_connected (b : bool) (p : page) : page :=
  {| state := state p; totalRounds := totalRounds p;
     viewerCount := viewerCount p; connected := b; ws := ws p;
     reconnectTimer := reconnectTimer p; lastMessageAt := lastMessageAt p;
     knownVersion := knownVersion p; statusText := statusText p;
     pending_timers := pending_timers p; next_timer := next_timer p;
     sockets := sockets p; reloads := reloads p |}.

Definition setStatus (value : string) (p : page) : page :=
  {| state := state p; totalRounds := totalRounds p;
     viewerCount := viewerCount p; connected := connected p; ws := ws p;
     reconnectTimer := reconnectTimer p; lastMessageAt := lastMessageAt p;
     knownVersion := knownVersion p; statusText := value;
     pending_timers := pending_timers p; next_timer := next_timer p;
     sockets := sockets p; reloads := reloads p |}.

Definition set_viewerCount (n : Z) (p : page) : page :=
  {| state := state p; totalRounds := totalRounds p;
     viewerCount := n; connected := connected p; ws := ws p;
     reconnectTimer := reconnectTimer p; lastMessageAt := lastMessageAt p;
     knownVersion := knownVersion p; statusText := statusText p;
     pending_timers := pending_timers p; next_timer := next_timer p;
     sockets := sockets p; reloads := reloads p |}.

Definition set_knownVersion (v : jsstring) (p : page) : page :=
  {| state := state p; totalRounds := totalRounds p;
     viewerCount := viewerCount p; connected := connected p; ws := ws p;
     reconnectTimer := reconnectTimer p; lastMessageAt := lastMessageAt p;
     knownVersion := Some v; statusText := statusText p;
     pending_timers := pending_timers p; next_timer := next_timer p;
     sockets := sockets p; reloads := reloads p |}.

Definition set_reconnectTimer (id : nat) (p : page) : page :=
  {| state := state p; totalRounds := totalRounds p;
     viewerCount := viewerCount p; connected := connected p; ws := ws p;
     reconnectTimer := Some id; lastMessageAt := lastMessageAt p;
     knownVersion := knownVersion p; statusText := statusText p;
     pending_timers := pending_timers p; next_timer := next_timer p;
     sockets := sockets p; reloads := reloads p |}.

(** [location.reload()] *)
Definition reload (p : page) : page :=
  {| state := state p; totalRounds := totalRounds p;
     viewerCount := viewerCount p; connected := connected p; ws := ws p;
     reconnectTimer := reconnectTimer p; lastMessageAt := lastMessageAt p;
     knownVersion := knownVersion p; statusText := statusText p;
     pending_timers := pending_timers p; next_timer := next_timer p;
     sockets := sockets p; reloads := S (reloads p) |}.

(** [window.clearTimeout(id)]: nothing happens for an [id] that is not
    pending. *)
Definition clearTimeout (id : nat) (p : page) : page :=
  {| state := state p; totalRounds := totalRounds p;
     viewerCount := viewerCount p; connected := connected p; ws := ws p;
     reconnectTimer := reconnectTimer p; lastMessageAt := lastMessageAt p;
     knownVersion := knownVersion p; statusText := statusText p;
     pending_timers := delete id (pending_timers p);
     next_timer := next_timer p;
     sockets := sockets p; reloads := reloads p |}.

(** [window.setTimeout(setupWebSocket, delay)]: the new timer and the page
    in which it is pending. *)
Definition setTimeout (delay : Z) (p : page) : nat * page :=
  (next_timer p,
   {| state := state p; totalRounds := totalRounds p;
      viewerCount := viewerCount p; connected := connected p; ws := ws p;
      reconnectTimer := reconnectTimer p; lastMessageAt := lastMessageAt p;
      knownVersion := knownVersion p; statusText := statusText p;
      pending_timers := <[next_timer p := delay]> (pending_timers p);
      next_timer := S (next_timer p);
      sockets := sockets p; reloads := reloads p |}).

(** [setupWebSocket()]: [ws = new WebSocket(wsUrl)]; the three handlers it
    installs on the socket are [onopen], [onclose] and [onmessage] below. *)
Definition setupWebSocket (p : page) : page :=
  {| state := state p; totalRounds := totalRounds p;
     viewerCount := viewerCount p; connected := connected p;
     ws := Some (sockets p);
     reconnectTimer := reconnectTimer p; lastMessageAt := lastMessageAt p;
     knownVersion := knownVersion p; statusText := statusText p;
     pending_timers := pending_timers p; next_timer := next_timer p;
     sockets := S (sockets p); reloads := reloads p |}.

Definition onopen (p : page) : page :=
  setStatus "WS connected" (set_connected true p).

Definition onclose (p : page) : page :=
  let p := setStatus "WS reconnecting..." (set_connected false p) in
  let p := match reconnectTimer p with
           | Some id => clearTimeout id p
           | None => p
           end in
  let '(id, p) := setTimeout 1000 p in
  set_reconnectTimer id p.

(** The assignments of the "state" branch after the version check; [now]
    is [Date.now()]. *)
Definition apply_state (now : Z) (data : option GameState)
    (tr : jsnumber) (vc : Z) (p : page) : page :=
  {| state := data;
     totalRounds := match tr with
                    | Finite q => if Qle_bool 0 q then Some q else None
                    | NotFinite => None
                    end;
     viewerCount := vc; connected := connected p; ws := ws p;
     reconnectTimer := reconnectTimer p; lastMessageAt := now;
     knownVersion := knownVersion p; statusText := statusText p;
     pending_timers := pending_timers p; next_timer := next_timer p;
     sockets := sockets p; reloads := reloads p |}.

Definition onmessage (now : Z) (data : payload) (p : page) : page :=
  match data with
  | Malformed => p
  | Parsed (StateMessage d tr vc version) =>
      match version with
      | Some v =>
          if truthy v then
            if negb (from_option truthy false (knownVersion p))
            then apply_state now d tr vc (set_knownVersion v p)
            else if negb (bool_decide (knownVersion p = Some v))
                 then reload p
                 else apply_state now d tr vc p
          else apply_state now d tr vc p
      | None => apply_state now d tr vc p
      end
  | Parsed (ViewerCountMessage vc) => set_viewerCount vc p
  | Parsed OtherMessage => p
  end.

(** What the browser can deliver to the script. *)
Inductive event :=
  | SocketOpen
  | SocketClose
  | SocketMessage (now : Z) (data : payload)
  | TimerFires (id : nat).

(** One turn of the event loop.  A timer fires only while it is pending,
    and is no longer pending once it has fired. *)
Definition step (e : event) (p : page) : option page :=
  match e with
  | SocketOpen => Some (onopen p)
  | SocketClose => Some (onclose p)
  | SocketMessage now data => Some (onmessage now data p)
  | TimerFires id =>
      if bool_decide (is_Some (pending_timers p !! id))
      then Some (setupWebSocket (clearTimeout id p))
      else None
  end.

Fixpoint run (es : list event) (p : page) : option page :=
  match es with
  | [] => Some p
  | e :: es => step e p ≫= run es
  end.

(** The page once the script's top level has run: the declarations of the
    variables, then [setupWebSocket()]. *)
Definition initial_page : page :=
  setupWebSocket
    {| state := None; totalRounds := None; viewerCount := 0;
       connected := false; ws := None; reconnectTimer := None;
       lastMessageAt := 0; knownVersion := None; statusText := "";
       pending_timers := ∅; next_timer := 1; sockets := 0; reloads := 0 |}.

Definition reachable (p : page) : Prop :=
  ∃ es, run es initial_page = Some p.

(** ** Capture sink: [recorder.ondataavailable] *)

Inductive ReadyState := CONNECTING | OPEN | CLOSING | CLOSED.

Global Instance ReadyState_eq_dec : EqDecision ReadyState.
Proof. solve_decision. Defined.

(** What the handler reads of the sink socket. *)
Record sink_socket := { readyState : ReadyState; bufferedAmount : Z }.

(** The calls the handler makes on the chunk and on the socket. *)
Inductive sink_call :=
  | ArrayBuffer
  | Send (chunk : list N).

(** [recorder.ondataavailable], for an event whose [data] holds the bytes
    [data] (so that [event.data.size] is their number).  The handler has no
    [throw]; the calls it makes are listed in order. *)
Definition ondataavailable (data : list N) (socket : sink_socket)
  : outcome (list sink_call) :=
  if Z.of_nat (length data) =? 0 then Returns []
  else if negb (bool_decide (readyState socket = OPEN)) then Returns []
  else if bufferedAmount socket >? 16000000 then Returns []
  else Returns [ArrayBuffer; Send data].

(** ** Stream orchestrator: the start-up path of [main] *)

Inductive Mode := live | dryrun.

(** What settles the promise [firstChunk] first. *)
Inductive readiness :=
  | ChunkArrives
  | ChunkWriteFails (detail : string)
  | NoChunk.

(** What the surroundings do during one run of the orchestrator. *)
Record run_env := {
  mode : Mode;
  (** [None]: the broadcast page answers; [Some detail]: it does not *)
  unreachable : option string;
  (** [ffmpeg.stdout] and [ffplay.stdin] are both present *)
  ffplay_pipe : bool;
  first : readiness;
  (** the value of [ffmpeg.exited] *)
  exitCode : Z;
}.

(** The calls of the orchestrator on its surroundings. *)
Inductive action :=
  | Fetch
  | SpawnFfmpeg
  | SpawnFfplay
  | PumpToFfplay
  | ServeChunks
  | LaunchBrowser
  | OpenCapturePage
  | SetTimeout (ms : Z)
  | ClearTimeout
  | WriteFfmpegStdin
  | ConsoleLog
  | ConsoleError (detail : string)
  | OnSignals
  | StopChunkServer
  | CloseBrowser
  | EndFfmpegStdin
  | KillFfmpeg
  | EndFfplayStdin
  | KillFfplay
  | ProcessExit (code : Z).

(** A computation that logs its calls and returns or throws. *)
Definition traced (A : Type) : Type := list action * outcome A.

Definition call (a : action) : traced unit := ([a], Returns ()).

Definition throw {A : Type} (detail : string) : traced A :=
  ([], Throws detail).

Definition then_ {A B : Type} (m : traced A) (k : A → traced B)
  : traced B :=
  match m.2 with
  | Returns a => (m.1 ++ (k a).1, (k a).2)
  | Throws e => (m.1, Throws e)
  end.

Notation "m ;;; k" := (then_ m (λ _, k))
  (at level 100, k at level 200, right associativity).

(** [assertBroadcastReachable(url)] *)
Definition assertBroadcastReachable (env : run_env) : traced unit :=
  call Fetch ;;;
  match unreachable env with
  | None => ([], Returns ())
  | Some detail => throw ("Cannot reach broadcast page (" ++ detail ++ ")")
  end.

(** [await firstChunk.finally(() => clearTimeout(firstChunkTimer))] after
    the timer of 10 seconds has been set. *)
Definition await_firstChunk (env : run_env) : traced unit :=
  call (SetTimeout 10000) ;;;
  match first env with
  | ChunkArrives => call WriteFfmpegStdin ;;; call ClearTimeout
  | ChunkWriteFails detail => call ClearTimeout ;;; throw detail
  | NoChunk =>
      call ClearTimeout ;;;
      throw "No media chunks received from headless browser within 10s."
  end.

(** The closure [shutdown], declared after the readiness gate; each step
    is in a [try] of its own. *)
Definition shutdown (env : run_env) : traced unit :=
  call StopChunkServer ;;; call CloseBrowser ;;;
  call EndFfmpegStdin ;;; call KillFfmpeg ;;;
  match mode env with
  | dryrun => call EndFfplayStdin ;;; call KillFfplay
  | live => ([], Returns ())
  end.

(** [main()], with the browser taken to start and to load the page, the
    first chunk (if any) arriving once the timer is set, and no signal
    delivered. *)
Definition main (env : run_env) : traced unit :=
  assertBroadcastReachable env ;;;
  call SpawnFfmpeg ;;;
  match mode env with
  | dryrun =>
      call SpawnFfplay ;;;
      if ffplay_pipe env then call PumpToFfplay
      else throw "Failed to pipe ffmpeg output into ffplay."
  | live => ([], Returns ())
  end ;;;
  call ServeChunks ;;;
  call LaunchBrowser ;;;
  call OpenCapturePage ;;;
  await_firstChunk env ;;;
  call ConsoleLog ;;;
  call OnSignals ;;;
  shutdown env ;;;
  if bool_decide (exitCode env ≠ 0) then call (ProcessExit (exitCode env))
  else ([], Returns ()).

(** The script's last statement: [main().catch(error => { console.error(
    detail); process.exit(1) })].  The result is the list of calls of the
    whole run. *)
Definition orchestrator (env : run_env) : list action :=
  match (main env).2 with
  | Returns _ => (main env).1
  | Throws detail => (main env).1 ++ [ConsoleError detail; ProcessExit 1]
  end.

(** The calls that tear down what the run has started. *)
Definition is_teardown (a : action) : bool :=
  match a with
  | StopChunkServer | CloseBrowser | EndFfmpegStdin | KillFfmpeg
  | EndFfplayStdin | KillFfplay => true
  | _ => false
  end.

(** ** The earlier [textLines], kept in the history view's file *)

Module Earlier.

Section TextLayout.

Variable measureText : jsstring → jsstring → Q.

Section Closure.

Variables (maxWidth : Q) (font : jsstring) (maxLines : Z).

(** The [for (const word of words)] loop of the earlier [textLines]: words
    are packed whole, a word wider than the line is not cut. *)
Fixpoint place_words (words : list jsstring) (st : layout) : layout :=
  match words with
  | [] => st
  | word :: rest =>
      let candidate :=
        if truthy (current st) then current st ++ js " " ++ word
        else word in
      if fits measureText maxWidth font candidate then
        place_words rest {| lines := lines st; current := candidate |}
      else
        let pushed :=
          if truthy (current st) then lines st ++ [current st]
          else lines st in
        let st' := {| lines := pushed; current := word |} in
        if cap_reached maxLines pushed then st'
        else place_words rest st'
  end.

End Closure.

(** The earlier [textLines(text, maxWidth, font, maxLines)]; after the
    loop it reads as the later one. *)
Definition textLines (fuel : nat) (text : jsstring) (maxWidth : Q)
    (font : jsstring) (maxLines : Z) : option (outcome (list jsstring)) :=
  let words := words_of text in
  let st := place_words maxWidth font maxLines words
              {| lines := []; current := [] |} in
  let pushed :=
    if truthy (current st) then lines st ++ [current st] else lines st in
  let cut :=
    if maxLines <? Z.of_nat (length pushed) then set_length pushed maxLines
    else Returns pushed in
  match cut with
  | Throws e => Some (Throws e)
  | Returns ls =>
      Returns <$> ellipsize measureText fuel maxWidth font maxLines words ls
  end.

End TextLayout.

End Earlier.

(** ** Scoreboard: [drawScoreboard], [drawScoreboardSection], [drawDone] *)

(** [entries.sort((a, b) => b[1] - a[1])].  The sort of an array is stable
    and the comparator orders integer scores consistently, so the result
    is determined: the entries by descending score, those of equal score
    in the order they had.  It is computed by insertion here. *)
Fixpoint insert_entry (e : jsstring * Z) (sorted : scoreboard)
  : scoreboard :=
  match sorted with
  | [] => [e]
  | x :: rest =>
      if e.2 <? x.2 then x :: insert_entry e rest else e :: sorted
  end.

Definition sort_entries (entries : scoreboard) : scoreboard :=
  foldr insert_entry [] entries.

(** The rank written before a name: the crown or [String(index + 1)]. *)
Inductive rank_text := Crown | Rank (n : Z).

(** What [drawScoreboardSection] draws for one entry: the rank, the name
    (cut after 18 code units), the width of the coloured bar when it is
    drawn, and the score; [row_y] is the local [y].  The logo before the
    name is left out. *)
Record score_row := {
  row_y : Z;
  rank : rank_text;
  nameText : jsstring;
  bar : option Q;
  scoreText : Z;
}.

(** [entries[0]?.[1] || 1] *)
Definition maxScore (entries : scoreboard) : Z :=
  match entries with
  | (_, score) :: _ => if score =? 0 then 1 else score
  | [] => 1
  end.

(** [maxScore > 0 ? score / maxScore : 0] *)
Definition pct (score maxScore : Z) : Q :=
  if 0 <? maxScore then inject_Z score / inject_Z maxScore else 0%Q.

(** The body of [entries.forEach(([name, score], index) => ...)]. *)
Definition score_entry (maxScore startY entryHeight : Z) (index : nat)
    (entry : jsstring * Z) : score_row :=
  let '(n, score) := entry in
  {| row_y := startY + 20 + Z.of_nat index * entryHeight;
     rank := if bool_decide (index = 0%nat) && (0 <? score) then Crown
             else Rank (Z.of_nat index + 1);
     nameText := if 18 <? jslen n then slice n 0 18 ++ js "..." else n;
     bar := if Qlt_le_dec 0 (pct score maxScore)
            then Some (Qmax 6 (216 * pct score maxScore)) else None;
     scoreText := score |}.

(** [drawScoreboardSection(entries, label, startY, entryHeight)] *)
Definition drawScoreboardSection (entries : scoreboard)
    (startY entryHeight : Z) : list score_row :=
  imap (score_entry (maxScore entries) startY entryHeight) entries.

(** [drawScoreboard(scores, viewerScores)]: the rows of the section of
    the models and of the section of the viewers. *)
Definition drawScoreboard (scores viewerScores : scoreboard)
  : list score_row * list score_row :=
  let modelEntries := sort_entries scores in
  let viewerEntries := sort_entries viewerScores in
  let entryHeight := 52 in
  let viewerStartY :=
    110 + 28 + Z.of_nat (length modelEntries) * entryHeight + 16 in
  (drawScoreboardSection modelEntries 110 entryHeight,
   drawScoreboardSection viewerEntries viewerStartY entryHeight).

(** [drawDone(scores)]: the entry whose name is drawn as the funniest,
    [None] when the function returns before drawing. *)
Definition drawDone (scores : scoreboard) : option (jsstring * Z) :=
  head (sort_entries scores).

(** ** Round screen: [drawTextBlock] and the geometry of [drawRound] *)

(** A rectangle of the canvas: its left and top, its width and height. *)
Record box := { box_x : Z; box_y : Z; box_w : Z; box_h : Z }.

(** What [drawRound] places on the canvas: the label of the phase, the
    seconds of the countdown when it is written, the lines of the prompt
    with the [x] and [y] they are written at, the bar beside the prompt,
    and the boxes of the two cards.  The heading "Round n/total" and the
    line "PROMPTED BY" do not depend on the round's text and are left
    out. *)
Record round_drawing := {
  phaseLabel : jsstring;
  countdownText : option Z;
  promptLines : list (jsstring * Z * Z);
  promptBar : box;
  cards : option (box * box);
}.

(** [round.phase === "voting" && round.viewerVotingEndsAt
      ? Math.max(0, Math.ceil((round.viewerVotingEndsAt - Date.now()) / 1000))
      : 0], with [now] for [Date.now()]; the quotient is rounded up. *)
Definition countdownSeconds (now : Z) (round : RoundState) : Z :=
  match viewerVotingEndsAt round with
  | Some endsAt =>
      if bool_decide (phase round = voting) && negb (endsAt =? 0)
      then Z.max 0 (- ((now - endsAt) `div` 1000))
      else 0
  | None => 0
  end.

(** [round.prompt ?? (round.phase === "prompting" ? "Generating prompt..."
      : "Prompt unavailable")] *)
Definition promptText (round : RoundState) : jsstring :=
  match prompt round with
  | Some p => p
  | None =>
      if bool_decide (phase round = prompting)
      then js "Generating prompt..." else js "Prompt unavailable"
  end.

(** ['400 56px "DM Serif Display", serif'] *)
Definition promptFont : jsstring :=
  js "400 56px " ++ [34%N] ++ js "DM Serif Display" ++ [34%N]
  ++ js ", serif".

Section RoundScreen.

Variable measureText : jsstring → jsstring → Q.

(** [drawTextBlock(text, x, y, maxWidth, lineHeight, font, color,
    maxLines)]: the lines with the place each is written at. *)
Definition drawTextBlock (fuel : nat) (text : jsstring) (x y : Z)
    (maxWidth : Q) (lineHeight : Z) (font : jsstring) (maxLines : Z)
  : option (outcome (list (jsstring * Z * Z))) :=
  r ← textLines measureText fuel text maxWidth font maxLines;
  Some match r with
       | Returns ls =>
           Returns (imap (λ idx line,
                            (line, x, y + Z.of_nat idx * lineHeight)) ls)
       | Throws e => Throws e
       end.

(** [drawRound(round)], with [now] for [Date.now()]. *)
Definition drawRound (fuel : nat) (now : Z) (round : RoundState)
  : option (outcome round_drawing) :=
  let mainW := 1920 - 380 in
  let label :=
    match phase round with
    | prompting => js "WRITING PROMPT"
    | answering => js "ANSWERING"
    | voting => js "JUDGES VOTING"
    | done_phase => js "COMPLETE"
    end in
  let seconds := countdownSeconds now round in
  let promptLineHeight := 72 in
  let promptMaxLines := 3 in
  let promptMaxWidth := inject_Z (mainW - 120) in
  r ← textLines measureText fuel (promptText round) promptMaxWidth
         promptFont promptMaxLines;
  match r with
  | Throws e => Some (Throws e)
  | Returns ls =>
      let promptTextHeight := Z.of_nat (length ls) * promptLineHeight in
      let promptBaselineY := 262 in
      let promptBarY := promptBaselineY - 44 in
      b ← drawTextBlock fuel (promptText round) 80 promptBaselineY
             promptMaxWidth promptLineHeight promptFont promptMaxLines;
      match b with
      | Throws e => Some (Throws e)
      | Returns written =>
          let cardW := (mainW - 160) `div` 2 in
          let cardY := promptBarY + promptTextHeight + 6 + 32 in
          let cardH := 1080 - cardY - 40 in
          Some (Returns
            {| phaseLabel := label;
               countdownText := if 0 <? seconds then Some seconds else None;
               promptLines := written;
               promptBar := {| box_x := 64; box_y := promptBarY; box_w := 4;
                               box_h := promptTextHeight + 6 |};
               cards :=
                 if negb (bool_decide (phase round = prompting))
                 then Some ({| box_x := 64; box_y := cardY;
                               box_w := cardW; box_h := cardH |},
                            {| box_x := 64 + cardW + 32; box_y := cardY;
                               box_w := cardW; box_h := cardH |})
                 else None |})
      end
  end.

End RoundScreen.

(** ** Logos: [getLogoUrl] and the cache of [drawModelLogo] *)

(** [getLogoUrl(name)] of the broadcast script. *)
Definition getLogoUrl (n : jsstring) : option jsstring :=
  if includes n (js "Gemini") then Some (js "/assets/logos/gemini.svg")
  else if includes n (js "Kimi") then Some (js "/assets/logos/kimi.svg")
  else if includes n (js "DeepSeek")
  then Some (js "/assets/logos/deepseek.svg")
  else if includes n (js "GLM") then Some (js "/assets/logos/glm.svg")
  else if includes n (js "GPT") then Some (js "/assets/logos/openai.svg")
  else if includes n (js "Opus") || includes n (js "Sonnet")
  then Some (js "/assets/logos/claude.svg")
  else if includes n (js "Grok") then Some (js "/assets/logos/grok.svg")
  else if includes n (js "MiniMax")
  then Some (js "/assets/logos/minimax.svg")
  else None.

(** The object [logoCache], from URLs to images, and the number of
    images made by [new Image()] so far; an image is named by its number
    in the order of creation. *)
Record logo_store := { logoCache : gmap jsstring nat; images : nat }.

(** [drawModelLogo(name, x, y, size)]: whether the logo was drawn, and
    the store afterwards.  [loaded img] tells whether, at the time of the
    call, [img.complete && img.naturalHeight !== 0]. *)
Definition drawModelLogo (loaded : nat → bool) (n : jsstring)
    (st : logo_store) : bool * logo_store :=
  match getLogoUrl n with
  | None => (false, st)
  | Some url =>
      let '(img, st') :=
        match logoCache st !! url with
        | Some img => (img, st)
        | None =>
            (images st,
             {| logoCache := <[url := images st]> (logoCache st);
                images := S (images st) |})
        end in
      (loaded img, st')
  end.

(** A sequence of calls of [drawModelLogo], each with the loading state
    of the images at its time. *)
Definition draw_logos (calls : list ((nat → bool) * jsstring))
    (st : logo_store) : logo_store :=
  foldl (λ st call, (drawModelLogo call.1 call.2 st).2) st calls.

(** ** Stream orchestrator: [pipeReadableToSink] *)

(** What [await reader.read()] gives: a value (or none) of a stream that
    goes on, the end of the stream, or a failure of the read. *)
Inductive read_result :=
  | ReadValue (value : option (list N))
  | ReadDone
  | ReadFails (detail : string).

(** The calls on the sink. *)
Inductive sink_op :=
  | SinkWrite (chunk : list N)
  | SinkEnd.

(** The [while (true)] loop inside the [try], over the results of the
    successive reads: the calls made and how the loop ends.  [None]: the
    reads given are used up before the stream has ended, the loop is still
    waiting.  [write_fails chunk] is the message of the error
    [sink.write(chunk)] throws, if it throws; [sink.end()] is taken to
    return. *)
Fixpoint pump (write_fails : list N → option string)
    (reads : list read_result) : option (list sink_op * outcome unit) :=
  match reads with
  | [] => None
  | ReadDone :: _ => Some ([], Returns ())
  | ReadFails detail :: _ => Some ([], Throws detail)
  | ReadValue None :: rest => pump write_fails rest
  | ReadValue (Some value) :: rest =>
      match write_fails value with
      | Some detail => Some ([SinkWrite value], Throws detail)
      | None =>
          r ← pump write_fails rest;
          Some (SinkWrite value :: r.1, r.2)
      end
  end.

(** [pipeReadableToSink(readable, sink)]: the loop, then the [finally]
    with [sink.end()]. *)
Definition pipeReadableToSink (write_fails : list N → option string)
    (reads : list read_result) : option (list sink_op * outcome unit) :=
  r ← pump write_fails reads;
  Some (r.1 ++ [SinkEnd], r.2).

(** ** Stream orchestrator: the chunk relay and the readiness promise *)

(** A message of the chunk socket, as the handler tells them apart. *)
Inductive ws_message :=
  | TextFrame (text : jsstring)
  | ArrayBufferFrame (bytes : list N)
  | ViewFrame (bytes : list N)
  | OtherFrame.

Inductive promise_state :=
  | Pending
  | Fulfilled
  | Rejected (detail : string).

(** The variables the handler shares with [main]: whether
    [firstChunkResolve] and [firstChunkReject] still hold their function,
    the promise [firstChunk], and the chunks [ffmpeg.stdin.write] has
    taken. *)
Record relay := {
  firstChunkResolve : bool;
  firstChunkReject : bool;
  firstChunk : promise_state;
  written : list (list N);
}.

(** Calling the [resolve] or the [reject] of a promise: only a pending
    promise changes. *)
Definition settle (to : promise_state) (now : promise_state)
  : promise_state :=
  match now with
  | Pending => to
  | _ => now
  end.

(** [websocket.message(_ws, message)].  [stdin] tells whether
    [ffmpeg.stdin] is there; [write_fails] is the message of the error
    thrown by [ffmpeg.stdin.write(chunk)] on this call, if it throws. *)
Definition message (stdin : bool) (msg : ws_message)
    (write_fails : option string) (r : relay) : relay :=
  if negb stdin then r
  else
    let chunk :=
      match msg with
      | ArrayBufferFrame bytes => Some bytes
      | ViewFrame bytes => Some bytes
      | TextFrame _ | OtherFrame => None
      end in
    match chunk with
    | None => r
    | Some chunk =>
        match write_fails with
        | None =>
            {| firstChunkResolve := false; firstChunkReject := false;
               firstChunk := if firstChunkResolve r
                             then settle Fulfilled (firstChunk r)
                             else firstChunk r;
               written := written r ++ [chunk] |}
        | Some detail =>
            {| firstChunkResolve := firstChunkResolve r;
               firstChunkReject := firstChunkReject r;
               firstChunk := if firstChunkReject r
                             then settle (Rejected detail) (firstChunk r)
                             else firstChunk r;
               written := written r |}
        end
    end.

(** The callback of [firstChunkTimer]. *)
Definition firstChunkTimer (r : relay) : relay :=
  {| firstChunkResolve := firstChunkResolve r;
     firstChunkReject := firstChunkReject r;
     firstChunk :=
       if firstChunkReject r
       then settle
              (Rejected
                 "No media chunks received from headless browser within 10s.")
              (firstChunk r)
       else firstChunk r;
     written := written r |}.

(** What happens to the relay: a message arrives, or the timer fires. *)
Inductive relay_event :=
  | Message (msg : ws_message) (write_fails : option string)
  | Timeout.

Definition relay_step (stdin : bool) (r : relay) (e : relay_event) : relay :=
  match e with
  | Message msg write_fails => message stdin msg write_fails r
  | Timeout => firstChunkTimer r
  end.

(** The relay once [main] has made the promise. *)
Definition relay_start : relay :=
  {| firstChunkResolve := true; firstChunkReject := true;
     firstChunk := Pending; written := [] |}.

(** ** Stream orchestrator: the steps of [shutdown] *)

(** [try { ... } catch {}] *)
Definition try_ (m : traced unit) : traced unit := (m.1, Returns ()).

(** A call that throws when the surroundings make it fail. *)
Definition attempt (fails : action → bool) (a : action) : traced unit :=
  call a ;;; if fails a then throw "failed" else ([], Returns ()).

(** The closure [shutdown] with its guard: the calls it makes and the
    value of [shuttingDown] afterwards.  [ffplay] tells whether the
    player was spawned, [ffplay_stdin] whether its [stdin] is a pipe. *)
Definition shutdown_guarded (fails : action → bool)
    (ffplay ffplay_stdin : bool) (shuttingDown : bool)
  : traced unit * bool :=
  if shuttingDown then (([], Returns ()), true)
  else
    (try_ (attempt fails StopChunkServer) ;;;
     try_ (attempt fails CloseBrowser) ;;;
     try_ (attempt fails EndFfmpegStdin) ;;;
     try_ (attempt fails KillFfmpeg) ;;;
     (if ffplay then
        try_ (if ffplay_stdin then attempt fails EndFfplayStdin
              else ([], Returns ())) ;;;
        try_ (attempt fails KillFfplay)
      else ([], Returns ())),
     true).

(** ** Archive of rounds: [saveRound] and [getRounds] *)

Section Archive.

(** The JSON texts, with [JSON.stringify] on rounds and [JSON.parse],
    which throws on a text that is not JSON. *)
Variable json : Type.
Variable JSON_stringify : RoundState → json.
Variable JSON_parse : json → option RoundState.

(** A row of the table [rounds]; the column [timestamp] is never read. *)
Record round_row := { row_id : Z; row_num : Z; row_data : json }.

(** The table [rounds], its rows in the order of their [id], as the
    database keeps them, and the largest [id] given so far, which
    AUTOINCREMENT steps from. *)
Record database := { rounds_table : list round_row; last_id : Z }.

(** The database once the script has created the table in a new file. *)
Definition db : database := {| rounds_table := []; last_id := 0 |}.

(** [saveRound(round)] *)
Definition saveRound (round : RoundState) (d : database) : database :=
  {| rounds_table :=
       rounds_table d ++
       [{| row_id := last_id d + 1; row_num := num round;
           row_data := JSON_stringify round |}];
     last_id := last_id d + 1 |}.

(** What [getRounds] returns; [r_totalPages] is [None] for a quotient
    that is not finite. *)
Record rounds_page := {
  r_rounds : list RoundState;
  r_total : Z;
  r_page : Z;
  r_limit : Z;
  r_totalPages : option Z;
}.

(** [... ORDER BY id DESC LIMIT $limit OFFSET $offset]: a negative limit
    is no limit, a negative offset is no offset. *)
Definition select_rows (limit offset : Z) (d : database) : list round_row :=
  let from := drop (Z.to_nat offset) (reverse (rounds_table d)) in
  if limit <? 0 then from else take (Z.to_nat limit) from.

(** [Math.ceil(count / limit)] *)
Definition ceil_div (count limit : Z) : option Z :=
  if limit =? 0 then None else Some (- ((- count) `div` limit)).

(** [getRounds(page, limit)], for whole numbers [page] and [limit]; it
    throws when [JSON.parse] does. *)
Definition getRounds (page limit : Z) (d : database) : outcome rounds_page :=
  let offset := (page - 1) * limit in
  let count := Z.of_nat (length (rounds_table d)) in
  let rows := select_rows limit offset d in
  match mapM (λ r, JSON_parse (row_data r)) rows with
  | Some rounds =>
      Returns {| r_rounds := rounds; r_total := count; r_page := page;
                 r_limit := limit; r_totalPages := ceil_div count limit |}
  | None => Throws "SyntaxError"
  end.

End Archive.

Arguments row_id {json} _.
Arguments row_num {json} _.
Arguments row_data {json} _.
Arguments rounds_table {json} _.
Arguments last_id {json} _.
Arguments db {json}.
Arguments saveRound {json} JSON_stringify round d.
Arguments select_rows {json} limit offset d.
Arguments getRounds {json} JSON_parse page limit d.

(** ** Contestant card: the answer text and the places of the vote bars *)

(** [!task.finishedAt && !task.result ? "Writing answer..."
      : task.error ? task.error : task.result ?? "No answer"], in quotes
    when [task.result] is there. *)
Definition answerText (task : TaskInfo) : jsstring :=
  let has_result := from_option truthy false (result task) in
  let finished := from_option (λ t, negb (t =? 0)) false (finishedAt task) in
  let answer :=
    if negb finished && negb has_result then js "Writing answer..."
    else if from_option truthy false (error task)
         then default [] (error task)
         else default (js "No answer") (result task) in
  if has_result then [34%N] ++ answer ++ [34%N] else answer.

(** ['400 40px "DM Serif Display", serif'] *)
Definition answerFont : jsstring :=
  js "400 40px " ++ [34%N] ++ js "DM Serif Display" ++ [34%N]
  ++ js ", serif".

(** Where [drawContestantCard(task, x, y, w, h, round)] writes the answer
    and puts the bars of the votes: the lines of the answer with their
    places, the [y] of the bar and of the count of the judges' votes, the
    [y] of the avatars, and the [y] of the bar of the viewers' votes. *)
Record card_places := {
  answerLines : list (jsstring * Z * Z);
  modelVoteBarY : option Z;
  modelVoteTextY : option Z;
  avatarY : option Z;
  viewerVoteBarY : option Z;
}.

Section ContestantCard.

Variable measureText : jsstring → jsstring → Q.

Definition card_geometry (fuel : nat) (task : TaskInfo) (b : box)
    (round : RoundState) : option (outcome card_places) :=
  let x := box_x b in
  let y := box_y b in
  let w := box_w b in
  let h := box_h b in
  written ← drawTextBlock measureText fuel (answerText task) (x + 24)
               (y + 120) (inject_Z (w - 48)) 52 answerFont 6;
  match written with
  | Throws e => Some (Throws e)
  | Returns written =>
      let showVotes :=
        bool_decide (phase round = voting)
        || bool_decide (phase round = done_phase) in
      let totalViewerVotes :=
        default 0 (viewerVotesA round) + default 0 (viewerVotesB round) in
      let hasViewerVotes := 0 <? totalViewerVotes in
      let barY := if hasViewerVotes then y + h - 110 else y + h - 60 in
      let textY := if hasViewerVotes then y + h - 74 else y + h - 24 in
      Some (Returns
        {| answerLines := written;
           modelVoteBarY := if showVotes then Some barY else None;
           modelVoteTextY := if showVotes then Some textY else None;
           avatarY := if showVotes then Some (barY + 12) else None;
           viewerVoteBarY := if showVotes && hasViewerVotes
                             then Some (y + h - 56) else None |})
  end.

End ContestantCard.

(** ** Vocabulary of the properties *)

Section LayoutInvariants.

Variable measureText : jsstring → jsstring → Q.
Variables (maxWidth : Q) (font : jsstring).

Abbreviation fits := (fits measureText maxWidth font).

(** The size of the interval the search still has to look at. *)
Definition interval (s : search) : Z := high s - low s + 1.

(** What the search keeps true: the bounds stay inside the string and
    [best] is 1 until a candidate has fitted, then the longest candidate
    that fitted, just below [low]. *)
Definition search_inv (remaining : jsstring) (s : search) : Prop :=
  1 ≤ low s ∧ high s ≤ jslen remaining ∧ low s ≤ high s + 1 ∧
  ((low s = 1 ∧ best s = 1) ∨
   (best s = low s - 1 ∧ 1 ≤ best s ∧
    fits (slice remaining 0 (best s)) = true)).

(** Measured width grows with the text: when a prefix fits, the shorter
    prefixes fit too. *)
Definition prefix_monotone (remaining : jsstring) : Prop :=
  ∀ i j, 1 ≤ i ≤ j → j ≤ jslen remaining →
    fits (slice remaining 0 j) = true → fits (slice remaining 0 i) = true.

(** With such widths the search has all fitting lengths below [low] and
    none above [high]. *)
Definition search_sorted (remaining : jsstring) (s : search) : Prop :=
  (∀ k, 1 ≤ k < low s → fits (slice remaining 0 k) = true) ∧
  (∀ k, high s < k ≤ jslen remaining → fits (slice remaining 0 k) = false).

(** A segment is in order for a text when it fits, or else is a single
    code unit of the text (too wide by itself). *)
Definition seg_ok (text l : jsstring) : Prop :=
  fits l = true ∨ ∃ c, l = [c] ∧ c ∈ text.

(** What the outer loop of [splitWordToFit] keeps true: the pieces so far
    followed by the remainder spell the word, and every piece is a
    non-empty segment in order. *)
Definition split_inv (word : jsstring) (st : list jsstring * jsstring)
  : Prop :=
  concat st.1 ++ st.2 = word ∧ Forall (λ p, p ≠ [] ∧ seg_ok word p) st.1.

(** What the two [for] loops keep true: the finished lines and the line
    being filled are segments in order. *)
Definition layout_ok (text : jsstring) (st : layout) : Prop :=
  Forall (seg_ok text) (lines st) ∧
  (current st = [] ∨ seg_ok text (current st)).

End LayoutInvariants.

(** The code units of a text that are not white space. *)
Definition glyphs (text : jsstring) : jsstring :=
  filter (λ c, is_ws c = false) text.

(** The round has no prompt text: [!round.prompt]. *)
Definition no_prompt_text (round : RoundState) : Prop :=
  prompt round = None ∨ prompt round = Some [].

(** The vote names the model: [votedFor] is present and has its name. *)
Definition votes_for (v : VoteInfo) (m : Model) : Prop :=
  ∃ m', votedFor v = Some m' ∧ name m' = name m.

(** How many of the votes name the model. *)
Definition named (m : Model) (vs : list VoteInfo) : Z :=
  Z.of_nat (length (List.filter (λ v, votedFor_named v (name m)) vs)).

(** How many of the votes the [else if] of [HistoryCard] gives to B. *)
Definition named_second (a b : Model) (vs : list VoteInfo) : Z :=
  Z.of_nat (length (List.filter
    (λ v, negb (votedFor_named v (name a)) && votedFor_named v (name b))
    vs)).

(** An event that is not a state message with a version. *)
Definition versionless (e : event) : Prop :=
  match e with
  | SocketMessage _ (Parsed (StateMessage _ _ _ (Some (_ :: _)))) => False
  | _ => True
  end.

(** Every pending timer is the one [reconnectTimer] holds. *)
Definition timers_inv (p : page) : Prop :=
  ∀ id, is_Some (pending_timers p !! id) → reconnectTimer p = Some id.

(** A run in which the page answers and the pipe to [ffplay] is there
    gets as far as the readiness gate. *)
Definition starts_up (env : run_env) : Prop :=
  unreachable env = None ∧ (mode env = dryrun → ffplay_pipe env = true).

(** ** Sample data *)

(** Glyphs ten units wide each, whatever the font. *)
Definition wide_glyphs (font s : jsstring) : Q := inject_Z (10 * jslen s).

(** Models by name, finished tasks, votes, rounds. *)
Definition mk_model (n : string) : Model :=
  {| model_id := js n; name := js n |}.

Definition mk_task (m : Model) : TaskInfo :=
  {| model := m; startedAt := 0; finishedAt := Some 1;
     result := Some (js "answer"); error := None |}.

Definition mk_vote (by_ : string) (for_ : option string)
    (err : option bool) : VoteInfo :=
  {| voter := mk_model by_; vote_startedAt := 2; vote_finishedAt := Some 3;
     votedFor := mk_model <$> for_; vote_error := err |}.

Definition mk_round (ph : Phase) (p : option jsstring) (a b : string)
    (vs : list VoteInfo) : RoundState :=
  {| num := 1; phase := ph; prompter := mk_model "P";
     promptTask := mk_task (mk_model "P"); prompt := p;
     contestants := (mk_model a, mk_model b);
     answerTasks := (mk_task (mk_model a), mk_task (mk_model b));
     votes := vs; scoreA := None; scoreB := None; viewerVotesA := None;
     viewerVotesB := None; viewerVotingEndsAt := None |}.

(** The scenario of the specification: X and Y vote for A, Z for B. *)
Definition scenario_votes : list VoteInfo :=
  [mk_vote "X" (Some "A") None; mk_vote "Y" (Some "A") None;
   mk_vote "Z" (Some "B") None].

Definition mk_game (a l : option RoundState) : GameState :=
  {| lastCompleted := l; active := a; scores := [(js "A", 1)];
     viewerScores := None; done := false; isPaused := false;
     generation := 0 |}.


(** A state message of the event, if it carries a version, carries [v]. *)
Definition agrees_with (v : jsstring) (e : event) : Prop :=
  match e with
  | SocketMessage _ (Parsed (StateMessage _ _ _ (Some w))) => w = [] ∨ w = v
  | _ => True
  end.

Definition is_close (e : event) : bool :=
  match e with SocketClose => true | _ => false end.

(** How many disconnects the events hold. *)
Definition closes (es : list event) : nat := length (List.filter is_close es).

(** The recorded total of rounds, if any, is not negative. *)
Definition totalRounds_ok (p : page) : Prop :=
  ∀ q, totalRounds p = Some q → (0 <= q)%Q.

(** The words on one line, a single space between neighbours. *)
Fixpoint unwords (ws : list jsstring) : jsstring :=
  match ws with
  | [] => []
  | w :: rest =>
      match rest with
      | [] => w
      | _ :: _ => w ++ js " " ++ unwords rest
      end
  end.

(** The line [current] grown by the words, as the packing loop grows it. *)
Definition extend (current : jsstring) (ws : list jsstring) : jsstring :=
  foldl (λ cur w, if truthy cur then cur ++ js " " ++ w else w) current ws.

(** The code units, white space apart, that a state of the packing loops
    has laid out. *)
Definition laid_out (st : layout) : jsstring :=
  glyphs (concat (lines st) ++ current st).

(** The rows rank the entries: every entry has a row, the scores go down
    the rows, the rows are [entryHeight = 52] apart from [startY + 20] on,
    and the crown is on the first row alone, when its score is positive. *)
Definition ranked (entries : scoreboard) (startY : Z)
    (rows : list score_row) : Prop :=
  map scoreText rows ≡ₚ entries.*2
  ∧ StronglySorted (λ x y, y ≤ x) (map scoreText rows)
  ∧ ∀ i row, rows !! i = Some row →
      row_y row = startY + 20 + 52 * Z.of_nat i
      ∧ (rank row = Crown ↔ i = 0%nat ∧ 0 < scoreText row).

(** The logo files of the page. *)
Definition logo_urls : list jsstring :=
  [js "/assets/logos/gemini.svg"; js "/assets/logos/kimi.svg";
   js "/assets/logos/deepseek.svg"; js "/assets/logos/glm.svg";
   js "/assets/logos/openai.svg"; js "/assets/logos/claude.svg";
   js "/assets/logos/grok.svg"; js "/assets/logos/minimax.svg"].

(** The cached URLs are those of logo files, there are as many of them
    as images made, and every cached image is one that was made. *)
Definition logo_store_ok (st : logo_store) : Prop :=
  dom (logoCache st) ⊆ list_to_set (C := gset jsstring) logo_urls
  ∧ size (logoCache st) = images st
  ∧ ∀ url img, logoCache st !! url = Some img → (img < images st)%nat.

(** The values a stream delivers before it ends or fails. *)
Fixpoint values_read (reads : list read_result) : list (list N) :=
  match reads with
  | ReadValue (Some value) :: rest => value :: values_read rest
  | ReadValue None :: rest => values_read rest
  | _ => []
  end.

(** The stream ends or fails within the reads given. *)
Definition stream_ends (reads : list read_result) : Prop :=
  ∃ r, r ∈ reads ∧ (r = ReadDone ∨ ∃ detail, r = ReadFails detail).

(** The bytes a message passes to [ffmpeg.stdin.write], when it does and
    the write returns. *)
Definition relayed (e : relay_event) : option (list N) :=
  match e with
  | Message (ArrayBufferFrame bytes) None
  | Message (ViewFrame bytes) None => Some bytes
  | _ => None
  end.

(** How an event settles a pending [firstChunk], if it does. *)
Definition decides (e : relay_event) : option promise_state :=
  match e with
  | Message (ArrayBufferFrame _) None
  | Message (ViewFrame _) None => Some Fulfilled
  | Message (ArrayBufferFrame _) (Some detail)
  | Message (ViewFrame _) (Some detail) => Some (Rejected detail)
  | Message _ _ => None
  | Timeout =>
      Some (Rejected
              "No media chunks received from headless browser within 10s.")
  end.

(** The codes of the calls of [process.exit] in a run. *)
Definition exits (trace : list action) : list Z :=
  omap (λ a, match a with ProcessExit code => Some code | _ => None end)
    trace.

(** The database after the rounds [rs] have been saved, the first of
    them first. *)
Definition saved {json : Type} (JSON_stringify : RoundState → json)
    (rs : list RoundState) : database json :=
  foldl (λ d round, saveRound JSON_stringify round d) db rs.

(** The rounds on a page, none when [getRounds] throws. *)
Definition page_rounds {json : Type} (JSON_parse : json → option RoundState)
    (page limit : Z) (d : database json) : list RoundState :=
  match getRounds JSON_parse page limit d with
  | Returns pg => r_rounds pg
  | Throws _ => []
  end.

(** * Properties *)

(** ** The model on concrete inputs *)

Example words_of_spaces :
  words_of (js " ab  cd e ") = [js "ab"; js "cd"; js "e"].
Proof. reflexivity. Qed.

Example split_ws_empty : split_ws false [] (js "") = [[]].
Proof. reflexivity. Qed.

Example slice_negative_end : slice (js "abcd") 0 (-1) = js "abc".
Proof. reflexivity. Qed.

(** Three glyphs fit on a line: the long words are cut, and the third
    line ends the text at the cap. *)
Example textLines_hello :
  textLines wide_glyphs 16 (js "hello world foo") 30 (js "serif") 3
  = Some (Returns [js "hel"; js "lo"; js "wor"]).
Proof. vm_compute. reflexivity. Qed.

Example textLines_no_space :
  textLines wide_glyphs 12 (js "abcdefghijk") 30 (js "serif") 6
  = Some (Returns [js "abc"; js "def"; js "ghi"; js "jk"]).
Proof. vm_compute. reflexivity. Qed.

Example textLines_one_line :
  textLines wide_glyphs 12 (js "aa bb cc dd") 200 (js "serif") 2
  = Some (Returns [js "aa bb cc dd"]).
Proof. vm_compute. reflexivity. Qed.

Example textLines_empty :
  textLines wide_glyphs 1 (js "") 30 (js "serif") 3 = Some (Returns []).
Proof. vm_compute. reflexivity. Qed.

Example textLines_negative_cap :
  textLines wide_glyphs 12 (js "abcdefghijk") 30 (js "serif") (-1)
  = Some (Throws "RangeError: Invalid array length").
Proof. vm_compute. reflexivity. Qed.

(** Too little fuel for the loops is reported, not hidden. *)
Example textLines_out_of_fuel :
  textLines wide_glyphs 1 (js "abcdefghijk") 30 (js "serif") 3 = None.
Proof. vm_compute. reflexivity. Qed.

Example scenario_tally :
  card_votes (mk_task (mk_model "B"))
    (mk_round done_phase None "A" "B" scenario_votes)
  = {| votesA := 2; votesB := 1;
       taskVoters := [mk_vote "Z" (Some "B") None] |}.
Proof. reflexivity. Qed.

Example scenario_winner :
  isWinner (mk_task (mk_model "A"))
    (mk_round done_phase None "A" "B" scenario_votes) = true
  ∧ isWinner (mk_task (mk_model "B"))
      (mk_round done_phase None "A" "B" scenario_votes) = false
  ∧ isWinner (mk_task (mk_model "A"))
      (mk_round voting None "A" "B" scenario_votes) = false.
Proof. repeat split. Qed.

Example draw_without_state : draw None = [DrawHeader; DrawWaiting].
Proof. reflexivity. Qed.

Example reconnect_twice :
  run [SocketClose; SocketClose] initial_page
  = Some (onclose (onclose initial_page))
  ∧ map_to_list (pending_timers (onclose (onclose initial_page)))
    = [(2%nat, 1000)].
Proof. split; vm_compute; reflexivity. Qed.

Example encoder_exit_run :
  orchestrator {| mode := live; unreachable := None; ffplay_pipe := true;
                  first := ChunkArrives; exitCode := 0 |}
  = [Fetch; SpawnFfmpeg; ServeChunks; LaunchBrowser; OpenCapturePage;
     SetTimeout 10000; WriteFfmpegStdin; ClearTimeout; ConsoleLog;
     OnSignals; StopChunkServer; CloseBrowser; EndFfmpegStdin; KillFfmpeg].
Proof. reflexivity. Qed.

(** ** Strings and loops *)

Lemma jslen_nonneg (s : jsstring) : 0 ≤ jslen s.
Proof. unfold jslen. lia. Qed.

Lemma slice_prefix (s : jsstring) (k : Z) :
  0 ≤ k → slice s 0 k = take (Z.to_nat k) s.
Proof.
  intros Hk. unfold slice, clamp_index, jslen.
  change (0 <? 0) with false. cbv iota.
  destruct (Z.ltb_spec k 0); [lia|].
  rewrite (Z.min_l 0) by lia. rewrite Z.sub_0_r.
  change (Z.to_nat 0) with 0%nat. rewrite drop_0.
  destruct (decide (k ≤ Z.of_nat (length s))) as [Hle|Hgt].
  - by rewrite Z.min_l by lia.
  - rewrite Z.min_r by lia. rewrite Nat2Z.id.
    rewrite !take_ge; [done|lia|lia].
Qed.

Lemma slice_suffix (s : jsstring) (k : Z) :
  0 ≤ k → slice_from s k = drop (Z.to_nat k) s.
Proof.
  intros Hk. unfold slice_from, slice, clamp_index, jslen.
  destruct (Z.ltb_spec k 0); [lia|].
  destruct (Z.ltb_spec (Z.of_nat (length s)) 0); [lia|].
  rewrite (Z.min_l (Z.of_nat (length s))) by lia.
  destruct (decide (k ≤ Z.of_nat (length s))) as [Hle|Hgt].
  - rewrite Z.min_l by lia. apply take_ge. rewrite length_drop. lia.
  - rewrite Z.min_r by lia. rewrite Z.sub_diag.
    change (Z.to_nat 0) with 0%nat. rewrite take_0.
    symmetry. apply drop_ge. lia.
Qed.

Lemma slice_drop_last (s : jsstring) :
  slice s 0 (-1) = take (length s - 1) s.
Proof.
  unfold slice, clamp_index, jslen.
  change (0 <? 0) with false. change (-1 <? 0) with true. cbv iota.
  rewrite (Z.min_l 0) by lia. rewrite Z.sub_0_r.
  change (Z.to_nat 0) with 0%nat. rewrite drop_0.
  f_equal. lia.
Qed.

(** A loop whose body keeps an invariant [I] and lowers a measure [m]
    ends, within [m s + 1] tests, in a state where the invariant holds and
    the condition fails. *)
Lemma while_loop_total {S : Type} (I : S → Prop) (m : S → nat)
    (cond : S → bool) (body : S → option S) :
  (∀ s, I s → cond s = true →
        ∃ s', body s = Some s' ∧ I s' ∧ (m s' < m s)%nat) →
  ∀ fuel s, I s → (m s < fuel)%nat →
    ∃ s', while_loop fuel cond body s = Some s' ∧ I s' ∧ cond s' = false.
Proof.
  intros Hbody. induction fuel as [|fuel IH]; intros s HI Hm; [lia|].
  simpl. destruct (cond s) eqn:Hc.
  - destruct (Hbody s HI Hc) as (s' & -> & HI' & Hlt). simpl.
    apply IH; [done|lia].
  - by exists s.
Qed.

(** More fuel, for the loop and inside its body, does not change a
    result. *)
Lemma while_loop_mono {S : Type} (cond : S → bool)
    (body body' : S → option S) :
  (∀ s s', body s = Some s' → body' s = Some s') →
  ∀ fuel fuel' s r, (fuel ≤ fuel')%nat →
    while_loop fuel cond body s = Some r →
    while_loop fuel' cond body' s = Some r.
Proof.
  intros Hb. induction fuel as [|fuel IH]; intros fuel' s r Hle H; [done|].
  destruct fuel' as [|fuel']; [lia|]. simpl in *.
  destruct (cond s); [|done].
  destruct (body s) as [s1|] eqn:E; [|done]. simpl in H.
  rewrite (Hb _ _ E). simpl. apply (IH fuel'); [lia|done].
Qed.

(** ** Words *)

Lemma split_ws_pieces (s : jsstring) :
  ∀ in_sep acc w, w ∈ split_ws in_sep acc s →
    (∀ c, c ∈ w → c ∈ acc ∨ c ∈ glyphs s) ∧
    (length w ≤ length acc + length s)%nat.
Proof.
  induction s as [|c r IH]; intros in_sep acc w Hw; simpl in Hw.
  - apply list_elem_of_singleton in Hw as ->. split; [auto|lia].
  - unfold glyphs. rewrite filter_cons. fold (glyphs r).
    destruct (is_ws c) eqn:Ec.
    + rewrite decide_False by done.
      assert (w = acc ∨ w ∈ split_ws true [] r ∨ w ∈ split_ws true acc r)
        as [->|[H|H]].
      { destruct in_sep; [auto|].
        apply elem_of_cons in Hw as [->|Hw]; auto. }
      * split; [auto|lia].
      * destruct (IH _ _ _ H) as [Hc Hl]. split; [|simpl in *; lia].
        intros x Hx. destruct (Hc x Hx) as [Hn|Hr]; [|auto].
        by apply elem_of_nil in Hn.
      * destruct (IH _ _ _ H) as [Hc Hl]. split; [done|simpl in *; lia].
    + rewrite decide_True by done.
      destruct (IH _ _ _ Hw) as [Hc Hl]. split.
      * intros x Hx. destruct (Hc x Hx) as [Hn|Hr].
        -- apply elem_of_app in Hn as [Hn|Hn]; [auto|].
           apply list_elem_of_singleton in Hn as ->.
           right. by left.
        -- right. by right.
      * rewrite length_app in Hl. simpl in *. lia.
Qed.

(** A word is not empty, is made of code units of the text that are not
    white space, and is no longer than the text. *)
Lemma words_of_spec (text w : jsstring) :
  w ∈ words_of text →
  w ≠ [] ∧ (∀ c, c ∈ w → c ∈ glyphs text)
  ∧ (length w ≤ length text)%nat.
Proof.
  unfold words_of. rewrite list_elem_of_In, filter_In, <- list_elem_of_In.
  intros [Hw Ht]. destruct (split_ws_pieces _ _ _ _ Hw) as [Hc Hl].
  split; [by destruct w|]. split; [|simpl in Hl; lia].
  intros c Hcw. destruct (Hc c Hcw) as [Hn|]; [|done].
  by apply elem_of_nil in Hn.
Qed.

(** ** The binary search and the splitting of a wide word *)

Section TextLayoutFacts.

Variable measureText : jsstring → jsstring → Q.
Variables (maxWidth : Q) (font : jsstring).

Abbreviation fits := (fits measureText maxWidth font).
Abbreviation overflows := (overflows measureText maxWidth font).
Abbreviation search_body := (search_body measureText maxWidth font).
Abbreviation split_body := (split_body measureText maxWidth font).
Abbreviation splitWordToFit := (splitWordToFit measureText maxWidth font).
Abbreviation search_inv := (search_inv measureText maxWidth font).
Abbreviation search_sorted := (search_sorted measureText maxWidth font).
Abbreviation prefix_monotone := (prefix_monotone measureText maxWidth font).
Abbreviation seg_ok := (seg_ok measureText maxWidth font).
Abbreviation split_inv := (split_inv measureText maxWidth font).
Abbreviation layout_ok := (layout_ok measureText maxWidth font).

(** Each step of the search at least halves its interval. *)
Lemma search_body_halves (remaining : jsstring) (s : search) :
  search_cond s = true →
  interval (search_body remaining s) ≤ interval s `div` 2.
Proof.
  unfold search_cond, interval, search_body. intros Hc.
  apply Z.leb_le in Hc.
  destruct (fits _); simpl; Z.div_mod_to_equations; lia.
Qed.

Lemma search_body_inv (remaining : jsstring) (s : search) :
  search_inv remaining s → search_cond s = true →
  search_inv remaining (search_body remaining s) ∧
  (Z.to_nat (interval (search_body remaining s)) < Z.to_nat (interval s))%nat.
Proof.
  unfold search_inv, search_cond, interval, search_body.
  intros (Hl & Hh & Hlh & Hb) Hc. apply Z.leb_le in Hc.
  destruct (fits (slice remaining 0 ((low s + high s) `div` 2))) eqn:E;
    simpl; (split; [|Z.div_mod_to_equations; lia]).
  - repeat split; try (Z.div_mod_to_equations; lia).
    right. split; [lia|]. split; [Z.div_mod_to_equations; lia|done].
  - repeat split; try (Z.div_mod_to_equations; lia).
    destruct Hb as [Hb|Hb]; [left|right]; done.
Qed.

(** The search ends, with [low = high + 1]. *)
Lemma search_total (remaining : jsstring) (fuel : nat) :
  (length remaining < fuel)%nat →
  ∃ s, while_loop fuel search_cond (λ s, Some (search_body remaining s))
         (search_init remaining) = Some s
       ∧ search_inv remaining s ∧ low s = high s + 1.
Proof.
  intros Hf.
  destruct (while_loop_total (search_inv remaining)
              (λ s, Z.to_nat (interval s)) search_cond
              (λ s, Some (search_body remaining s))) with
    (fuel := fuel) (s := search_init remaining) as (s & Hs & HI & Hc).
  - intros s HI Hc. eexists. split; [done|].
    by apply search_body_inv.
  - unfold search_inv, search_init, maxChunkLength. simpl.
    pose proof (jslen_nonneg remaining).
    split; [lia|]. split; [lia|]. split; [lia|]. by left.
  - unfold interval, search_init, maxChunkLength, jslen. simpl. lia.
  - exists s. split; [done|]. split; [done|].
    destruct HI as (? & ? & ? & ?). unfold search_cond in Hc.
    apply Z.leb_gt in Hc. lia.
Qed.

Lemma seg_ok_weaken (word text l : jsstring) :
  (∀ c, c ∈ word → c ∈ text) → seg_ok word l → seg_ok text l.
Proof. intros H [Hf|(c & -> & Hc)]; [by left|right; eauto]. Qed.

(** One round of the outer loop takes at least one code unit off the
    remainder. *)
Lemma split_body_spec (word : jsstring) (fuel : nat)
    (st : list jsstring * jsstring) :
  split_inv word st → split_cond st = true → (length st.2 < fuel)%nat →
  ∃ st', split_body fuel st = Some st' ∧ split_inv word st'
         ∧ (length st'.2 < length st.2)%nat.
Proof.
  destruct st as [pieces remaining]. unfold split_inv, split_cond. simpl.
  intros [Hw Hp] Hc Hf. apply Z.ltb_lt in Hc. unfold jslen in Hc.
  destruct (search_total remaining fuel Hf) as (s & -> & HI & Hend).
  simpl. eexists. split; [done|]. simpl.
  destruct HI as (Hl & Hh & _ & Hb). unfold jslen in Hh.
  assert (1 ≤ best s ≤ Z.of_nat (length remaining)) as Hbest
    by (destruct Hb as [[? ?]|(? & ? & ?)]; lia).
  rewrite slice_prefix, slice_suffix by lia.
  split; [split|].
  - rewrite concat_app. simpl. rewrite app_nil_r, <- app_assoc.
    by rewrite take_drop.
  - apply Forall_app. split; [done|]. apply Forall_singleton. split.
    + destruct remaining; [simpl in Hc; lia|].
      destruct (Z.to_nat (best s)) eqn:E; [lia|done].
    + destruct Hb as [[_ Hb]|(_ & _ & Hb)].
      * right. rewrite Hb. destruct remaining as [|c r]; [simpl in Hc; lia|].
        exists c. split; [done|]. rewrite <- Hw.
        apply elem_of_app. right. by left.
      * left. by rewrite slice_prefix in Hb by lia.
  - rewrite length_drop. lia.
Qed.

(** [splitWordToFit] returns: the pieces spell the word, none is empty,
    and each fits unless it is a single code unit. *)
Lemma splitWordToFit_total (word : jsstring) (fuel : nat) :
  (length word < fuel)%nat →
  ∃ pieces, splitWordToFit fuel word = Some pieces
            ∧ concat pieces = word
            ∧ Forall (λ p, p ≠ [] ∧ seg_ok word p) pieces.
Proof.
  intros Hf. unfold splitWordToFit.
  destruct word as [|c w]; [by exists []|]. simpl negb. cbv iota.
  destruct (fits (c :: w)) eqn:Efit.
  - exists [c :: w]. split; [done|]. simpl. rewrite app_nil_r.
    split; [done|]. apply Forall_singleton. split; [done|by left].
  - destruct (while_loop_total (split_inv (c :: w))
                (λ st, length st.2) split_cond (split_body fuel)) with
      (fuel := fuel) (s := ([] : list jsstring, c :: w))
      as (st & -> & [Hw Hp] & Hc).
    + intros st HI Hc.
      apply split_body_spec; [done|done|].
      destruct HI as [HI _]. apply (f_equal length) in HI.
      rewrite length_app in HI. lia.
    + split; [done|]. simpl. constructor.
    + simpl. simpl in Hf. lia.
    + exists st.1. split; [done|]. split; [|done].
      unfold split_cond in Hc. apply Z.ltb_ge in Hc. unfold jslen in Hc.
      destruct st.2 eqn:E; [|simpl in Hc; lia].
      by rewrite app_nil_r in Hw.
Qed.

Lemma search_body_sorted (remaining : jsstring) (s : search) :
  prefix_monotone remaining →
  search_inv remaining s → search_sorted remaining s →
  search_cond s = true →
  search_sorted remaining (search_body remaining s).
Proof.
  intros Hmono (Hl & Hh & _ & _) [Hlo Hhi] Hc.
  unfold search_cond in Hc. apply Z.leb_le in Hc.
  unfold search_sorted, search_body.
  assert (low s ≤ (low s + high s) `div` 2 ≤ high s) as Hmid
    by (Z.div_mod_to_equations; lia).
  destruct (fits (slice remaining 0 ((low s + high s) `div` 2))) eqn:E;
    simpl; split; intros k Hk; auto.
  - apply (Hmono k ((low s + high s) `div` 2)); [lia|lia|done].
  - destruct (decide (high s < k)) as [?|?]; [apply Hhi; lia|].
    destruct (fits (slice remaining 0 k)) eqn:Ek; [|done].
    rewrite <- E. symmetry.
    apply (Hmono ((low s + high s) `div` 2) k); [lia|lia|done].
Qed.

(** The binary search finds the largest length that fits: no longer
    prefix fits, and, when the first code unit fits at all, every prefix up
    to [best] fits. *)
Lemma search_finds_largest (remaining : jsstring) (fuel : nat) :
  prefix_monotone remaining → (length remaining < fuel)%nat →
  ∃ s, while_loop fuel search_cond (λ s, Some (search_body remaining s))
         (search_init remaining) = Some s
       ∧ (∀ k, best s < k ≤ jslen remaining →
               fits (slice remaining 0 k) = false)
       ∧ (fits (slice remaining 0 1) = true →
          ∀ k, 1 ≤ k ≤ best s → fits (slice remaining 0 k) = true).
Proof.
  intros Hmono Hf.
  destruct (while_loop_total
              (λ s, search_inv remaining s ∧ search_sorted remaining s)
              (λ s, Z.to_nat (interval s)) search_cond
              (λ s, Some (search_body remaining s))) with
    (fuel := fuel) (s := search_init remaining)
    as (s & Hs & [HI [Hlo Hhi]] & Hc).
  - intros s [HI HS] Hc. eexists. split; [done|].
    destruct (search_body_inv remaining s HI Hc). split; [|done].
    split; [done|]. by apply search_body_sorted.
  - pose proof (jslen_nonneg remaining). split.
    + unfold search_inv, search_init, maxChunkLength. simpl.
      split; [lia|]. split; [lia|]. split; [lia|]. by left.
    + unfold search_sorted, search_init, maxChunkLength. simpl.
      split; intros k Hk; lia.
  - unfold interval, search_init, maxChunkLength, jslen. simpl. lia.
  - exists s. split; [done|].
    destruct HI as (? & ? & ? & Hb). unfold search_cond in Hc.
    apply Z.leb_gt in Hc.
    destruct Hb as [[Hl1 Hb1]|(Hb & ? & ?)].
    + split.
      * intros k Hk. apply Hhi. lia.
      * intros Hone k Hk. by replace k with 1 by lia.
    + split.
      * intros k Hk. apply Hhi. lia.
      * intros _ k Hk. apply Hlo. lia.
Qed.

(** ** Packing the segments into lines *)

Abbreviation place_segments := (place_segments measureText maxWidth font).
Abbreviation place_words := (place_words measureText maxWidth font).
Abbreviation trim_cond := (trim_cond measureText maxWidth font).

Lemma place_segments_ok (text : jsstring) (maxLines : Z)
    (segments : list jsstring) :
  ∀ isFirstSegment st,
    Forall (seg_ok text) segments → layout_ok text st →
    layout_ok text (place_segments maxLines segments isFirstSegment st).
Proof.
  induction segments as [|segment rest IH]; intros isF st Hs [Hl Hc];
    [done|].
  apply Forall_cons in Hs as [Hseg Hrest]. simpl.
  match goal with |- context [if fits ?c then _ else _] =>
    destruct (fits c) eqn:Efit end.
  - apply IH; [done|]. split; [done|]. simpl. right. by left.
  - assert (Forall (seg_ok text)
              (if truthy (current st) then lines st ++ [current st]
               else lines st)) as Hpushed.
    { destruct (current st) as [|c cs] eqn:Ec; simpl; [done|].
      apply Forall_app. split; [done|]. apply Forall_singleton.
      by destruct Hc. }
    destruct (cap_reached _ _).
    + split; simpl; [done|by right].
    + apply IH; [done|]. split; simpl; [done|by right].
Qed.

Lemma place_words_total (text : jsstring) (maxLines : Z) (fuel : nat)
    (words : list jsstring) :
  ∀ st,
    (∀ w, w ∈ words → (length w < fuel)%nat ∧ ∀ c, c ∈ w → c ∈ text) →
    layout_ok text st →
    ∃ st', place_words maxLines fuel words st = Some st' ∧ layout_ok text st'.
Proof.
  induction words as [|word rest IH]; intros st Hw Hst; [by exists st|].
  simpl.
  destruct (Hw word) as [Hlen Hin]; [by left|].
  destruct (splitWordToFit_total word fuel Hlen) as (segs & -> & _ & Hsegs).
  simpl.
  assert (layout_ok text (place_segments maxLines segs true st)) as Hok.
  { apply place_segments_ok; [|done].
    eapply Forall_impl; [exact Hsegs|]. intros p [_ Hp].
    by apply (seg_ok_weaken word). }
  destruct (cap_reached _ _); [by eexists|].
  apply IH; [|done]. intros w Hwr. apply Hw. by right.
Qed.

(** The packing loops return for every text, given one unit of fuel more
    than the text has code units. *)
Lemma packing_total (text : jsstring) (maxLines : Z) (fuel : nat) :
  (length text < fuel)%nat →
  ∃ st, place_words maxLines fuel (words_of text)
          {| lines := []; current := [] |} = Some st
        ∧ layout_ok (glyphs text) st.
Proof.
  intros Hf. apply place_words_total.
  - intros w Hw. destruct (words_of_spec _ _ Hw) as (_ & Hc & Hl).
    split; [lia|done].
  - split; simpl; [constructor|by left].
Qed.

(** ** The ellipsis loop *)

(** Each round of the ellipsis loop drops one code unit. *)
Lemma trim_body_shortens (t : jsstring) :
  trim_cond t = true → length (trim_body t) = (length t - 1)%nat
                       ∧ (length (trim_body t) < length t)%nat.
Proof.
  unfold trim_cond, trim_body, jslen. intros Hc.
  apply andb_true_iff in Hc as [Hc _]. apply Z.ltb_lt in Hc.
  rewrite slice_drop_last, length_take. lia.
Qed.

(** The ellipsis loop stops at three code units. *)
Lemma trim_cond_short (t : jsstring) :
  (length t ≤ 3)%nat → trim_cond t = false.
Proof.
  unfold trim_cond, jslen. intros Hl.
  apply andb_false_iff. left. apply Z.ltb_ge. lia.
Qed.

Lemma trim_total (t : jsstring) (fuel : nat) :
  (length t < fuel)%nat →
  ∃ t', while_loop fuel trim_cond (λ t, Some (trim_body t)) t = Some t'
        ∧ trim_cond t' = false.
Proof.
  intros Hf.
  destruct (while_loop_total (λ _, True) (λ t : jsstring, length t)
              trim_cond (λ t, Some (trim_body t))) with
    (fuel := fuel) (s := t) as (t' & Ht & _ & Hc); [|done|done|by exists t'].
  intros s _ Hc. eexists. split; [done|]. split; [done|].
  by apply trim_body_shortens.
Qed.

Lemma overflowing_segment_short (text l : jsstring) :
  seg_ok text l → overflows l = true → (length l ≤ 3)%nat.
Proof.
  unfold overflows. intros [Hf|(c & -> & _)] Ho; [|simpl; lia].
  rewrite Hf in Ho. done.
Qed.

(** The ellipsis step returns after a single test of its loop condition:
    a line that overflows is a single code unit. *)
Lemma ellipsize_total (text : jsstring) (fuel : nat) (maxLines : Z)
    (words ls : list jsstring) :
  (0 < fuel)%nat → Forall (seg_ok text) ls →
  ∃ r, ellipsize measureText fuel maxWidth font maxLines words ls = Some r
       ∧ length r = length ls.
Proof.
  intros Hf Hls. unfold ellipsize.
  destruct (_ && _); [|by exists ls].
  destruct (overflows _) eqn:Eo; [|by exists ls].
  assert (length (default [] (array_get ls (maxLines - 1))) ≤ 3)%nat as Hl.
  { destruct (array_get ls (maxLines - 1)) as [l|] eqn:El; [|simpl; lia].
    simpl in *. apply (overflowing_segment_short text); [|done].
    unfold array_get in El. destruct (maxLines - 1 <? 0); [done|].
    apply list_elem_of_lookup_2 in El.
    by apply (proj1 (Forall_forall _ _) Hls). }
  destruct fuel as [|fuel]; [lia|]. simpl while_loop.
  rewrite (trim_cond_short _ Hl). simpl. eexists. split; [done|].
  unfold array_set. destruct (maxLines - 1 <? 0); [done|].
  by rewrite length_insert.
Qed.

(** Lines that all fit are returned as they are. *)
Lemma ellipsize_fitting (fuel : nat) (maxLines : Z)
    (words ls : list jsstring) :
  1 ≤ maxLines → Forall (λ l, fits l = true) ls →
  ellipsize measureText fuel maxWidth font maxLines words ls = Some ls.
Proof.
  intros Hm Hls. unfold ellipsize.
  destruct (0 <? _); simpl; [|done].
  destruct (Z.eqb_spec (Z.of_nat (length ls)) maxLines) as [Hlen|]; [|done].
  unfold array_get. destruct (Z.ltb_spec (maxLines - 1) 0); [lia|].
  destruct (lookup_lt_is_Some_2 ls (Z.to_nat (maxLines - 1))) as [l Hl];
    [lia|].
  rewrite Hl. simpl. unfold overflows.
  apply list_elem_of_lookup_2 in Hl.
  by rewrite (proj1 (Forall_forall _ _) Hls l Hl).
Qed.

(** [textLines] returns (or throws) for every text, width, font and line
    cap, given one unit of fuel more than the text has code units.  It
    throws exactly when the cap is negative, and otherwise returns at most
    [maxLines] lines. *)
Lemma textLines_total (text : jsstring) (maxLines : Z) (fuel : nat) :
  (length text < fuel)%nat →
  ∃ r, textLines measureText fuel text maxWidth font maxLines = Some r
       ∧ match r with
         | Returns ls => 0 ≤ maxLines ∧ Z.of_nat (length ls) ≤ maxLines
         | Throws _ => maxLines < 0
         end.
Proof.
  intros Hf. unfold textLines.
  destruct (packing_total text maxLines fuel Hf) as (st & -> & Hl & Hc).
  simpl.
  set (pushed := if truthy (current st) then lines st ++ [current st]
                 else lines st).
  assert (Forall (seg_ok (glyphs text)) pushed) as Hp.
  { subst pushed. destruct (current st) eqn:Ec; simpl; [done|].
    apply Forall_app. split; [done|]. apply Forall_singleton.
    by destruct Hc. }
  assert (∀ ls, Forall (seg_ok (glyphs text)) ls →
            ∃ r, ellipsize measureText fuel maxWidth font
                   maxLines (words_of text) ls = Some r
                 ∧ length r = length ls) as Hell.
  { intros ls Hls. apply (ellipsize_total (glyphs text)); [lia|done]. }
  destruct (Z.ltb_spec maxLines (Z.of_nat (length pushed))) as [Hlt|Hge].
  - unfold set_length. destruct (Z.ltb_spec maxLines 0); [by eexists|].
    destruct (Hell (take (Z.to_nat maxLines) pushed)) as (r & -> & Hr);
      [by apply Forall_take|].
    eexists. split; [done|]. simpl. rewrite Hr, length_take. lia.
  - destruct (Hell pushed Hp) as (r & -> & Hr).
    eexists. split; [done|]. simpl. lia.
Qed.


End TextLayoutFacts.

(** ** More fuel never changes a result *)

Section Fuel.

Variable measureText : jsstring → jsstring → Q.
Variables (maxWidth : Q) (font : jsstring).
Variables (fuel fuel' : nat).
Hypothesis fuel_le : (fuel ≤ fuel')%nat.

Lemma split_body_mono (st st' : list jsstring * jsstring) :
  split_body measureText maxWidth font fuel st = Some st' →
  split_body measureText maxWidth font fuel' st = Some st'.
Proof.
  destruct st as [pieces remaining]. unfold split_body.
  destruct (while_loop fuel _ _ _) as [s|] eqn:E; [|done].
  by rewrite (while_loop_mono _ _ _ (λ _ _ H, H) _ _ _ _ fuel_le E).
Qed.

Lemma splitWordToFit_mono (word : jsstring) (pieces : list jsstring) :
  splitWordToFit measureText maxWidth font fuel word = Some pieces →
  splitWordToFit measureText maxWidth font fuel' word = Some pieces.
Proof.
  unfold splitWordToFit. destruct (negb _); [done|].
  destruct (fits _ _ _ _); [done|].
  destruct (while_loop fuel _ _ _) as [st|] eqn:E; [|done].
  by rewrite (while_loop_mono _ _ _ split_body_mono _ _ _ _ fuel_le E).
Qed.

Lemma place_words_mono (maxLines : Z) (words : list jsstring) :
  ∀ st st',
    place_words measureText maxWidth font maxLines fuel words st = Some st' →
    place_words measureText maxWidth font maxLines fuel' words st = Some st'.
Proof.
  induction words as [|word rest IH]; intros st st' H; [done|].
  simpl in *.
  destruct (splitWordToFit _ _ _ fuel word) as [segs|] eqn:E; [|done].
  rewrite (splitWordToFit_mono _ _ E). simpl in *.
  destruct (cap_reached _ _); [done|]. by apply IH.
Qed.

Lemma ellipsize_mono (maxLines : Z) (words ls r : list jsstring) :
  ellipsize measureText fuel maxWidth font maxLines words ls = Some r →
  ellipsize measureText fuel' maxWidth font maxLines words ls = Some r.
Proof.
  unfold ellipsize. destruct (_ && _); [|done].
  destruct (overflows _ _ _ _); [|done].
  destruct (while_loop fuel _ _ _) as [t|] eqn:E; [|done].
  by rewrite (while_loop_mono _ _ _ (λ _ _ H, H) _ _ _ _ fuel_le E).
Qed.

Lemma textLines_mono (text : jsstring) (maxLines : Z)
    (r : outcome (list jsstring)) :
  textLines measureText fuel text maxWidth font maxLines = Some r →
  textLines measureText fuel' text maxWidth font maxLines = Some r.
Proof.
  unfold textLines.
  destruct (place_words _ _ _ _ fuel _ _) as [st|] eqn:E; [|done].
  rewrite (place_words_mono _ _ _ _ E). simpl.
  destruct (if maxLines <? _ then _ else _) as [ls|e]; [|done].
  destruct (ellipsize _ fuel _ _ _ _ _) as [r'|] eqn:E'; [|done].
  by rewrite (ellipsize_mono _ _ _ _ E').
Qed.

End Fuel.

(** ** The claims about [textLines] *)

(** One round of the outer loop of [splitWordToFit] cuts a non-empty
    prefix of [b] code units off the remainder: a piece that fits, or else
    a single code unit.  When widths grow with the prefix, [b] is the
    largest count that fits, and it is 1 when not even one code unit
    fits. *)
Lemma split_body_largest (measureText : jsstring → jsstring → Q)
    (maxWidth : Q) (font : jsstring) (pieces : list jsstring)
    (remaining : jsstring) (fuel : nat) :
  remaining ≠ [] → (length remaining < fuel)%nat →
  ∃ b : nat,
    (1 ≤ b ≤ length remaining)%nat ∧
    split_body measureText maxWidth font fuel (pieces, remaining)
      = Some (pieces ++ [take b remaining], drop b remaining) ∧
    (b = 1%nat ∨ fits measureText maxWidth font (take b remaining) = true) ∧
    (prefix_monotone measureText maxWidth font remaining →
     (∀ k, (b < k ≤ length remaining)%nat →
           fits measureText maxWidth font (take k remaining) = false) ∧
     (fits measureText maxWidth font (take 1 remaining) = true →
      fits measureText maxWidth font (take b remaining) = true) ∧
     (fits measureText maxWidth font (take 1 remaining) = false →
      b = 1%nat)).
Proof.
  intros Hne Hf.
  destruct (search_total measureText maxWidth font remaining fuel Hf)
    as (s & Hs & HI & Hend).
  destruct HI as (Hl & Hh & _ & Hb). unfold jslen in Hh.
  assert (0 < length remaining)%nat by (destruct remaining; [done|simpl; lia]).
  assert (1 ≤ best s ≤ Z.of_nat (length remaining)) as Hbest
    by (destruct Hb as [[? ?]|(? & ? & ?)]; lia).
  assert (Z.to_nat (best s) = 1%nat
          ∨ fits measureText maxWidth font
              (take (Z.to_nat (best s)) remaining) = true) as Hone.
  { destruct Hb as [[_ Hb]|(_ & _ & Hb)]; [left; lia|right].
    by rewrite slice_prefix in Hb by lia. }
  exists (Z.to_nat (best s)). split; [lia|]. split.
  { unfold split_body. rewrite Hs. simpl.
    by rewrite slice_prefix, slice_suffix by lia. }
  split; [exact Hone|].
  intros Hmono.
  destruct (search_finds_largest measureText maxWidth font remaining fuel
              Hmono Hf) as (s' & Hs' & Hhi & Hlo).
  rewrite Hs in Hs'. injection Hs' as <-. split; [|split].
  - intros k Hk. specialize (Hhi (Z.of_nat k)).
    rewrite slice_prefix, Nat2Z.id in Hhi by lia.
    apply Hhi. unfold jslen. lia.
  - intros H1. specialize (Hlo ltac:(by rewrite slice_prefix by lia)
                             (best s) ltac:(lia)).
    by rewrite slice_prefix in Hlo by lia.
  - intros H1. destruct Hone as [?|Hfit]; [done|].
    specialize (Hmono 1 (best s) ltac:(lia) ltac:(unfold jslen; lia)).
    rewrite !slice_prefix in Hmono by lia.
    change (Z.to_nat 1) with 1%nat in Hmono.
    rewrite (Hmono Hfit) in H1. done.
Qed.





(** C10: [textLines] terminates for every text, width, font and line cap:
    one unit of fuel more than the text has code units is enough for all
    its loops, and the result does not depend on the fuel.  Each step of
    the binary search at least halves its interval, each round of the
    word-splitting loop takes at least one code unit off the remainder,
    and each round of the ellipsis loop drops one code unit of the line,
    the loop stopping at three code units. *)
Theorem textLines_terminates (measureText : jsstring → jsstring → Q)
    (text : jsstring) (maxWidth : Q) (font : jsstring) (maxLines : Z) :
  (∃ r, ∀ fuel, (length text < fuel)%nat →
          textLines measureText fuel text maxWidth font maxLines = Some r)
  ∧ (∀ remaining s,
       search_cond s = true →
       interval (search_body measureText maxWidth font remaining s)
         ≤ interval s `div` 2)
  ∧ (∀ pieces remaining fuel,
       remaining ≠ [] → (length remaining < fuel)%nat →
       ∃ pieces' remaining',
         split_body measureText maxWidth font fuel (pieces, remaining)
           = Some (pieces', remaining')
         ∧ (length remaining' < length remaining)%nat)
  ∧ (∀ t, trim_cond measureText maxWidth font t = true →
          (length (trim_body t) < length t)%nat)
  ∧ (∀ t, (length t ≤ 3)%nat →
          trim_cond measureText maxWidth font t = false).
Proof.
  split; [|split; [|split; [|split]]].
  - destruct (textLines_total measureText maxWidth font text maxLines
                (S (length text))) as (r & Hr & _); [lia|].
    exists r. intros fuel Hf.
    apply (textLines_mono _ _ _ (S (length text))); [lia|done].
  - intros remaining s. apply search_body_halves.
  - intros pieces remaining fuel Hne Hf.
    destruct (split_body_largest measureText maxWidth font pieces remaining
                fuel Hne Hf) as (b & Hb & Hs & _).
    eexists _, _. split; [exact Hs|]. rewrite length_drop. lia.
  - intros t Ht. by apply trim_body_shortens in Ht as [_ ?].
  - intros t. apply trim_cond_short.
Qed.

(** C10, witness: eleven glyphs without a space, each wider than the
    width. *)
Lemma textLines_terminates_witness :
  ∃ r, textLines wide_glyphs 12 (js "WWWWWWWWWWW") 5 (js "serif") 3
         = Some r.
Proof.
  destruct (textLines_terminates wide_glyphs (js "WWWWWWWWWWW") 5
              (js "serif") 3) as ((r & Hr) & _).
  exists r. apply Hr. simpl. lia.
Defined.

(** ** Round selection *)

(** C2: for a snapshot that is not done, [draw] draws the last completed
    round when the active round is in phase "prompting" without prompt
    text and a last completed round exists; otherwise the active round,
    or the last completed round when there is no active one; and the
    waiting placeholder when there is neither, or no snapshot at all. *)
Theorem draw_round_selection (st : GameState) :
  done st = false →
  let board := DrawScoreboard (scores st) (default [] (viewerScores st)) in
  (∀ a l, active st = Some a → lastCompleted st = Some l →
          phase a = prompting → no_prompt_text a →
          draw (Some st) = [DrawHeader; board; DrawRound l])
  ∧ (∀ a, active st = Some a →
          ¬ (phase a = prompting ∧ no_prompt_text a
             ∧ is_Some (lastCompleted st)) →
          draw (Some st) = [DrawHeader; board; DrawRound a])
  ∧ (∀ l, active st = None → lastCompleted st = Some l →
          draw (Some st) = [DrawHeader; board; DrawRound l])
  ∧ (active st = None → lastCompleted st = None →
     draw (Some st) = [DrawHeader; board; DrawWaiting])
  ∧ draw None = [DrawHeader; DrawWaiting].
Proof.
  intros Hdone board. unfold draw, displayRound, isNextPrompting.
  rewrite Hdone. repeat split.
  - intros a l -> -> Hp [Hn|Hn]; rewrite Hn; simpl;
      by rewrite bool_decide_eq_true_2.
  - intros a -> Hnot. destruct (lastCompleted st) as [l|] eqn:El.
    + destruct (bool_decide (phase a = prompting)) eqn:Ep; simpl; [|done].
      apply bool_decide_eq_true in Ep.
      destruct (prompt a) as [[|c p]|] eqn:Epr; simpl; try done.
      * exfalso. apply Hnot. split; [done|]. split; [by right|by eexists].
      * exfalso. apply Hnot. split; [done|]. split; [by left|by eexists].
    + rewrite andb_false_r. done.
  - by intros l -> ->.
  - by intros -> ->.
Qed.

(** C2, witness: the next round is still writing its prompt, so the last
    completed round stays on screen. *)
Lemma draw_round_selection_witness :
  draw (Some (mk_game (Some (mk_round prompting None "C" "D" []))
                (Some (mk_round done_phase (Some (js "Q")) "A" "B"
                         scenario_votes))))
  = [DrawHeader; DrawScoreboard [(js "A", 1)] [];
     DrawRound (mk_round done_phase (Some (js "Q")) "A" "B" scenario_votes)].
Proof.
  apply (proj1 (draw_round_selection
                  (mk_game (Some (mk_round prompting None "C" "D" []))
                     (Some (mk_round done_phase (Some (js "Q")) "A" "B"
                              scenario_votes)))
                  eq_refl)
           (mk_round prompting None "C" "D" [])
           (mk_round done_phase (Some (js "Q")) "A" "B" scenario_votes)
           eq_refl eq_refl eq_refl (or_introl eq_refl)).
Defined.

(** ** Vote tallies *)

Lemma votedFor_named_spec (v : VoteInfo) (m : Model) :
  votedFor_named v (name m) = true ↔ votes_for v m.
Proof.
  unfold votedFor_named, votes_for. destruct (votedFor v) as [m'|].
  - rewrite bool_decide_eq_true. split; [by eexists|].
    by intros (? & [= <-] & ?).
  - split; [done|]. by intros (? & ? & ?).
Qed.

Lemma named_cons (m : Model) (v : VoteInfo) (vs : list VoteInfo) :
  named m (v :: vs)
  = (if votedFor_named v (name m) then 1 else 0) + named m vs.
Proof.
  unfold named. simpl. destruct (votedFor_named v (name m)); simpl; lia.
Qed.

Lemma named_nonneg (m : Model) (vs : list VoteInfo) : 0 ≤ named m vs.
Proof. unfold named. lia. Qed.

Lemma card_votes_fold (a b : Model) (task : TaskInfo) (vs : list VoteInfo) :
  ∀ t, votesA (foldl (card_vote a b task) t vs) = votesA t + named a vs
       ∧ votesB (foldl (card_vote a b task) t vs) = votesB t + named b vs.
Proof.
  induction vs as [|v vs IH]; intros t.
  - unfold named. simpl. lia.
  - simpl foldl. destruct (IH (card_vote a b task t v)) as [-> ->].
    rewrite !named_cons. unfold card_vote. simpl.
    destruct (votedFor_named v (name a)), (votedFor_named v (name b)); lia.
Qed.

Lemma history_votes_fold (a b : Model) (vs : list VoteInfo) :
  ∀ t, h_votesA (foldl (history_vote a b) t vs) = h_votesA t + named a vs
       ∧ h_votesB (foldl (history_vote a b) t vs)
         = h_votesB t + named_second a b vs.
Proof.
  induction vs as [|v vs IH]; intros t.
  - unfold named, named_second. simpl. lia.
  - simpl foldl. destruct (IH (history_vote a b t v)) as [-> ->].
    rewrite named_cons. unfold named_second, history_vote. simpl.
    destruct (votedFor_named v (name a)), (votedFor_named v (name b));
      simpl; lia.
Qed.

Lemma named_second_distinct (a b : Model) (vs : list VoteInfo) :
  name a ≠ name b → named_second a b vs = named b vs.
Proof.
  intros Hne. unfold named_second, named. do 2 f_equal.
  induction vs as [|v vs IH]; [done|]. simpl. rewrite IH.
  destruct (votedFor_named v (name a)) eqn:Ea,
           (votedFor_named v (name b)) eqn:Eb; try done.
  apply votedFor_named_spec in Ea as (m1 & H1 & Hn1).
  apply votedFor_named_spec in Eb as (m2 & H2 & Hn2).
  congruence.
Qed.

Lemma named_second_le (a b : Model) (vs : list VoteInfo) :
  named a vs + named_second a b vs ≤ Z.of_nat (length vs).
Proof.
  unfold named, named_second.
  induction vs as [|v vs IH]; [done|]. simpl.
  destruct (votedFor_named v (name a)), (votedFor_named v (name b));
    simpl; lia.
Qed.

Lemma card_votes_named (task : TaskInfo) (round : RoundState) :
  votesA (card_votes task round) = named (contestants round).1 (votes round)
  ∧ votesB (card_votes task round)
    = named (contestants round).2 (votes round).
Proof.
  unfold card_votes. destruct (contestants round) as [a b]. simpl.
  destruct (card_votes_fold a b task (votes round)
              {| votesA := 0; votesB := 0; taskVoters := [] |}) as [-> ->].
  simpl. lia.
Qed.

Lemma history_votes_named (round : RoundState) :
  h_votesA (history_votes round)
    = named (contestants round).1 (votes round)
  ∧ h_votesB (history_votes round)
    = named_second (contestants round).1 (contestants round).2
        (votes round).
Proof.
  unfold history_votes. destruct (contestants round) as [a b]. simpl.
  destruct (history_votes_fold a b (votes round)
              {| h_votesA := 0; h_votesB := 0; votersA := [];
                 votersB := [] |}) as [-> ->].
  simpl. lia.
Qed.

(** C3, as stated, fails twice.  A vote that names A counts for A also
    when it is marked as errored; and when both contestants bear one name,
    [drawContestantCard] counts a single vote for each of them. *)
Lemma vote_counts_errored_and_twins :
  vote_error (mk_vote "X" (Some "A") (Some true)) = Some true
  ∧ votesA (card_votes (mk_task (mk_model "A"))
              (mk_round voting None "A" "B"
                 [mk_vote "X" (Some "A") (Some true)])) = 1
  ∧ h_votesA (history_votes
                (mk_round voting None "A" "B"
                   [mk_vote "X" (Some "A") (Some true)])) = 1
  ∧ votesA (card_votes (mk_task (mk_model "A"))
              (mk_round voting None "A" "A"
                 [mk_vote "X" (Some "A") None]))
    + votesB (card_votes (mk_task (mk_model "A"))
                (mk_round voting None "A" "A"
                   [mk_vote "X" (Some "A") None])) = 2
  ∧ length (votes (mk_round voting None "A" "A"
                     [mk_vote "X" (Some "A") None])) = 1%nat.
Proof. repeat split; vm_compute; reflexivity. Qed.

(** C3 (amended): the counts of both views are derived from the votes by
    name: each is the number of votes whose [votedFor] is present and bears
    the contestant's name, whatever the vote's error flag (in the history
    view a vote naming A is not counted for B).  A vote adds one to a
    contestant's count exactly when it names that contestant, and nothing
    when [votedFor] is absent or names neither.  The two counts add up to
    at most the number of votes in the history view, and in the broadcast
    view when the two contestants' names differ. *)
Theorem vote_counts_by_name (round : RoundState) (task : TaskInfo) :
  let a := (contestants round).1 in
  let b := (contestants round).2 in
  let t := card_votes task round in
  let h := history_votes round in
  let n := Z.of_nat (length (votes round)) in
  (votesA t = named a (votes round) ∧ votesB t = named b (votes round)
   ∧ h_votesA h = named a (votes round)
   ∧ h_votesB h = named_second a b (votes round))
  ∧ (∀ v m, votedFor_named v (name m) = true ↔ votes_for v m)
  ∧ (name a ≠ name b → votesA t + votesB t ≤ n
                       ∧ h_votesB h = named b (votes round))
  ∧ h_votesA h + h_votesB h ≤ n
  ∧ (∀ c v,
       (votes_for v a → votesA (card_vote a b task c v) = votesA c + 1)
       ∧ (¬ votes_for v a → votesA (card_vote a b task c v) = votesA c)
       ∧ (votes_for v b → votesB (card_vote a b task c v) = votesB c + 1)
       ∧ (¬ votes_for v b → votesB (card_vote a b task c v) = votesB c))
  ∧ (∀ c v,
       (votes_for v a →
        h_votesA (history_vote a b c v) = h_votesA c + 1
        ∧ h_votesB (history_vote a b c v) = h_votesB c)
       ∧ (¬ votes_for v a → votes_for v b →
          h_votesA (history_vote a b c v) = h_votesA c
          ∧ h_votesB (history_vote a b c v) = h_votesB c + 1)
       ∧ (¬ votes_for v a → ¬ votes_for v b → history_vote a b c v = c)).
Proof.
  intros a b t h n.
  destruct (card_votes_named task round) as [HA HB].
  destruct (history_votes_named round) as [HhA HhB].
  fold a b t in HA, HB. fold a b h in HhA, HhB.
  split; [done|]. split; [apply votedFor_named_spec|].
  split; [|split; [|split]].
  - intros Hne. rewrite HA, HB, HhB, named_second_distinct by done.
    split; [|done].
    rewrite <- (named_second_distinct a b) by done.
    apply named_second_le.
  - rewrite HhA, HhB. apply named_second_le.
  - intros c v. unfold card_vote. simpl.
    repeat split; intros Hv.
    + apply votedFor_named_spec in Hv. by rewrite Hv.
    + destruct (votedFor_named v (name a)) eqn:E; [|done].
      by apply votedFor_named_spec in E.
    + apply votedFor_named_spec in Hv. by rewrite Hv.
    + destruct (votedFor_named v (name b)) eqn:E; [|done].
      by apply votedFor_named_spec in E.
  - intros c v. unfold history_vote.
    destruct (votedFor_named v (name a)) eqn:Ea;
      destruct (votedFor_named v (name b)) eqn:Eb;
      try apply votedFor_named_spec in Ea;
      try apply votedFor_named_spec in Eb; simpl; repeat split; try done;
      intros; try done.
    all: exfalso.
    all: match goal with
         | H : votes_for ?x ?m, E : votedFor_named ?x (name ?m) = false
           |- _ => apply votedFor_named_spec in H; congruence
         end.
Qed.

(** C3, witness: the scenario of the specification gives two votes to A
    and one to B. *)
Lemma vote_counts_by_name_witness :
  votesA (card_votes (mk_task (mk_model "A"))
            (mk_round done_phase None "A" "B" scenario_votes)) = 2
  ∧ votesB (card_votes (mk_task (mk_model "A"))
              (mk_round done_phase None "A" "B" scenario_votes)) = 1
  ∧ votesA (card_votes (mk_task (mk_model "A"))
              (mk_round done_phase None "A" "B" scenario_votes))
    + votesB (card_votes (mk_task (mk_model "A"))
                (mk_round done_phase None "A" "B" scenario_votes)) ≤ 3.
Proof.
  pose proof (vote_counts_by_name
                (mk_round done_phase None "A" "B" scenario_votes)
                (mk_task (mk_model "A"))) as H.
  cbv zeta in H. destruct H as ((HA & HB & _) & _ & Hsum & _).
  split; [rewrite HA; reflexivity|]. split; [rewrite HB; reflexivity|].
  apply Hsum. discriminate.
Defined.

(** ** Winner badges *)

Lemma WinBadge_drawn (task : TaskInfo) (round : RoundState) :
  WinBadge ∈ drawContestantCard task round ↔ isWinner task round = true.
Proof.
  unfold drawContestantCard.
  destruct (isWinner task round), (_ || _); simpl;
    rewrite ?elem_of_cons, ?elem_of_nil; intuition congruence.
Qed.

Lemma WinnerBadge_shown (round : RoundState) :
  (WinnerBadge ∈ (HistoryCard round).1 ↔ isAWinner round = true)
  ∧ (WinnerBadge ∈ (HistoryCard round).2 ↔ isBWinner round = true).
Proof.
  unfold HistoryCard. destruct (contestants round) as [contA contB].
  destruct (isAWinner round), (isBWinner round); simpl;
    rewrite ?elem_of_cons, ?elem_of_nil; intuition congruence.
Qed.

(** C4: on the broadcast, for a round whose answer tasks bear the names
    of its contestants, the card of a contestant has the WIN badge iff
    the phase is "done" and that contestant's derived count is strictly
    greater than the other's.  The history view shows the rounds of the
    archive, which are complete: for a round in phase "done" whose
    contestants have different names, a contestant has the WINNER badge
    under the same condition.  [HistoryCard] itself does not read the
    phase: its badge follows the counts alone.  Equal counts give no
    badge in either view. *)
Theorem winner_badge (round : RoundState) :
  let a := (contestants round).1 in
  let b := (contestants round).2 in
  let taskA := (answerTasks round).1 in
  let taskB := (answerTasks round).2 in
  let countA := named a (votes round) in
  let countB := named b (votes round) in
  (name (model taskA) = name a → name (model taskB) = name b →
   (WinBadge ∈ drawContestantCard taskA round
      ↔ phase round = done_phase ∧ countB < countA)
   ∧ (WinBadge ∈ drawContestantCard taskB round
      ↔ phase round = done_phase ∧ countA < countB)
   ∧ (countA = countB →
      (WinBadge ∉ drawContestantCard taskA round)
      ∧ (WinBadge ∉ drawContestantCard taskB round)))
  ∧ (name a ≠ name b →
     (WinnerBadge ∈ (HistoryCard round).1 ↔ countB < countA)
     ∧ (WinnerBadge ∈ (HistoryCard round).2 ↔ countA < countB)
     ∧ (countA = countB →
        (WinnerBadge ∉ (HistoryCard round).1)
        ∧ (WinnerBadge ∉ (HistoryCard round).2)))
  ∧ (WinnerBadge ∈ (HistoryCard round).1
     ↔ h_votesB (history_votes round) < h_votesA (history_votes round))
  ∧ (WinnerBadge ∈ (HistoryCard round).2
     ↔ h_votesA (history_votes round) < h_votesB (history_votes round))
  ∧ (phase round = done_phase → name a ≠ name b →
     (WinnerBadge ∈ (HistoryCard round).1
        ↔ phase round = done_phase ∧ countB < countA)
     ∧ (WinnerBadge ∈ (HistoryCard round).2
        ↔ phase round = done_phase ∧ countA < countB)
     ∧ (countA = countB →
        (WinnerBadge ∉ (HistoryCard round).1)
        ∧ (WinnerBadge ∉ (HistoryCard round).2))).
Proof.
  intros a b taskA taskB countA countB.
  assert (name a ≠ name b →
          (WinnerBadge ∈ (HistoryCard round).1 ↔ countB < countA)
          ∧ (WinnerBadge ∈ (HistoryCard round).2 ↔ countA < countB))
    as Hhistory.
  { intros Hne. destruct (WinnerBadge_shown round) as [HbA HbB].
    rewrite HbA, HbB. unfold isAWinner, isBWinner.
    destruct (history_votes_named round) as [-> ->].
    fold a b. rewrite named_second_distinct by done.
    fold countA countB. by rewrite !Z.gtb_ltb, !Z.ltb_lt. }
  split; [|split; [|split; [|split]]].
  3, 4: destruct (WinnerBadge_shown round) as [HbA HbB];
    rewrite ?HbA, ?HbB; unfold isAWinner, isBWinner;
    rewrite Z.gtb_ltb; apply Z.ltb_lt.
  3: { intros Hdone Hne. destruct (Hhistory Hne) as [HwA HwB].
       rewrite HwA, HwB. split; [tauto|]. split; [tauto|]. lia. }
  - intros HnA HnB.
    assert ((isWinner taskA round = true
             ↔ phase round = done_phase ∧ countB < countA)
            ∧ (isWinner taskB round = true
               ↔ phase round = done_phase ∧ countA < countB)) as [HwA HwB].
    { unfold isWinner, voteCount, isFirst.
      destruct (card_votes_named taskA round) as [-> ->].
      destruct (card_votes_named taskB round) as [-> ->].
      fold a b taskA taskB countA countB.
      rewrite (bool_decide_eq_true_2
                 (name (model taskA) = name (model taskA))) by done.
      rewrite !andb_true_iff, !bool_decide_eq_true.
      split; [by rewrite Z.gtb_ltb, Z.ltb_lt|].
      destruct (bool_decide (name (model taskA) = name (model taskB)))
        eqn:E.
      - apply bool_decide_eq_true in E.
        assert (countA = countB) as Heq.
        { unfold countA, countB, named. by rewrite <- HnA, <- HnB, E. }
        rewrite Z.gtb_ltb, Z.ltb_lt. lia.
      - by rewrite Z.gtb_ltb, Z.ltb_lt. }
    rewrite !WinBadge_drawn. split; [done|]. split; [done|].
    intros Heq. rewrite HwA, HwB. lia.
  - intros Hne.
    destruct (WinnerBadge_shown round) as [HbA HbB].
    assert ((isAWinner round = true ↔ countB < countA)
            ∧ (isBWinner round = true ↔ countA < countB)) as [HwA HwB].
    { unfold isAWinner, isBWinner.
      destruct (history_votes_named round) as [-> ->].
      fold a b. rewrite named_second_distinct by done.
      fold countA countB. by rewrite !Z.gtb_ltb, !Z.ltb_lt. }
    rewrite HbA, HbB. split; [done|]. split; [done|].
    intros Heq. rewrite HwA, HwB. lia.
Qed.

(** C4, witness: in the scenario of the specification A has the badge
    once the round is done. *)
Lemma winner_badge_witness :
  WinBadge ∈ drawContestantCard (mk_task (mk_model "A"))
               (mk_round done_phase None "A" "B" scenario_votes)
  ∧ WinnerBadge ∈ (HistoryCard
                     (mk_round done_phase None "A" "B" scenario_votes)).1.
Proof.
  pose proof (winner_badge
                (mk_round done_phase None "A" "B" scenario_votes)) as H.
  cbv zeta in H. destruct H as (Hcard & Hhist & _). split.
  - apply (proj1 (Hcard eq_refl eq_refl)). split; [reflexivity|].
    vm_compute. reflexivity.
  - apply (proj1 (Hhist ltac:(discriminate))). vm_compute. reflexivity.
Defined.

(** ** State-sync client *)

(** C6: a viewer-count message changes the viewer counter and nothing
    else: the snapshot, the total of rounds, the recorded version and the
    time of the last update keep their values, as do the connection, the
    timers and the reload count. *)
Theorem viewerCount_message_frame (now n : Z) (p : page) :
  viewerCount (onmessage now (Parsed (ViewerCountMessage n)) p) = n
  ∧ onmessage now (Parsed (ViewerCountMessage n)) p = set_viewerCount n p
  ∧ state (set_viewerCount n p) = state p
  ∧ totalRounds (set_viewerCount n p) = totalRounds p
  ∧ knownVersion (set_viewerCount n p) = knownVersion p
  ∧ lastMessageAt (set_viewerCount n p) = lastMessageAt p
  ∧ connected (set_viewerCount n p) = connected p
  ∧ ws (set_viewerCount n p) = ws p
  ∧ reconnectTimer (set_viewerCount n p) = reconnectTimer p
  ∧ statusText (set_viewerCount n p) = statusText p
  ∧ pending_timers (set_viewerCount n p) = pending_timers p
  ∧ next_timer (set_viewerCount n p) = next_timer p
  ∧ sockets (set_viewerCount n p) = sockets p
  ∧ reloads (set_viewerCount n p) = reloads p.
Proof. repeat split. Qed.

Lemma run_app (es1 es2 : list event) (p : page) :
  run (es1 ++ es2) p = run es1 p ≫= run es2.
Proof.
  revert p. induction es1 as [|e es1 IH]; intros p; [done|].
  simpl. destruct (step e p) as [p'|]; [apply IH|done].
Qed.

(** Opening, closing and timers leave the recorded version alone. *)
Lemma knownVersion_other (e : event) (p p' : page) :
  (∀ now data, e ≠ SocketMessage now data) → step e p = Some p' →
  knownVersion p' = knownVersion p.
Proof.
  intros He Hs. destruct e as [| |now data|id]; simpl in Hs.
  - by injection Hs as <-.
  - injection Hs as <-. unfold onclose. simpl.
    by destruct (reconnectTimer p).
  - by destruct (He now data).
  - destruct (bool_decide _); [|done]. by injection Hs as <-.
Qed.

Lemma versionless_step (e : event) (p p' : page) :
  versionless e → step e p = Some p' →
  knownVersion p = None → knownVersion p' = None.
Proof.
  intros Hv Hs Hk.
  destruct e as [| |now data|id];
    try (rewrite <- Hk; eapply knownVersion_other; [|exact Hs];
         intros ? ? ?; discriminate).
  simpl in Hs. injection Hs as <-.
  destruct data as [|[d tr vc [[|c v]|]|vc|]]; simpl in *; done.
Qed.

Lemma versionless_run (es : list event) :
  ∀ p p', Forall versionless es → run es p = Some p' →
          knownVersion p = None → knownVersion p' = None.
Proof.
  induction es as [|e es IH]; intros p p' Hv Hr Hk.
  - by injection Hr as <-.
  - apply Forall_cons in Hv as [He Hes]. simpl in Hr.
    destruct (step e p) as [p1|] eqn:E; [|done]. simpl in Hr.
    apply (IH p1 p' Hes Hr). by apply (versionless_step e p).
Qed.

(** Once recorded, the expected version stays. *)
Lemma knownVersion_step (e : event) (p p' : page) (v : jsstring) :
  v ≠ [] → step e p = Some p' →
  knownVersion p = Some v → knownVersion p' = Some v.
Proof.
  intros Hv Hs Hk.
  destruct e as [| |now data|id];
    try (rewrite <- Hk; eapply knownVersion_other; [|exact Hs];
         intros ? ? ?; discriminate).
  simpl in Hs. injection Hs as <-.
  destruct data as [|[d tr vc [[|c w]|]|vc|]]; simpl in *; try done.
  rewrite Hk. destruct v; [done|]. simpl.
  by destruct (bool_decide _).
Qed.

Lemma knownVersion_run (es : list event) (v : jsstring) :
  ∀ p p', v ≠ [] → run es p = Some p' →
          knownVersion p = Some v → knownVersion p' = Some v.
Proof.
  induction es as [|e es IH]; intros p p' Hv Hr Hk.
  - by injection Hr as <-.
  - simpl in Hr. destruct (step e p) as [p1|] eqn:E; [|done]. simpl in Hr.
    apply (IH p1 p' Hv Hr). by apply (knownVersion_step e p).
Qed.

(** C5: the version of the first state message that carries one is
    recorded as the expected version (and that message is applied), and
    stays recorded.  Every later state message with a different version
    calls [location.reload()] once and changes nothing else: its payload
    is not applied.  A later state message with the same version, or with
    none, is applied. *)
Theorem version_check (before later : list event) (now : Z)
    (d : option GameState) (tr : jsnumber) (vc : Z) (v : jsstring)
    (p1 p2 : page) :
  v ≠ [] →
  Forall versionless before →
  run (before ++ [SocketMessage now (Parsed (StateMessage d tr vc (Some v)))])
    initial_page = Some p1 →
  run later p1 = Some p2 →
  (knownVersion p1 = Some v ∧ state p1 = d ∧ viewerCount p1 = vc
   ∧ lastMessageAt p1 = now)
  ∧ knownVersion p2 = Some v
  ∧ (∀ now' d' tr' vc' v',
       v' ≠ [] → v' ≠ v →
       let p3 := onmessage now' (Parsed (StateMessage d' tr' vc' (Some v')))
                   p2 in
       p3 = reload p2 ∧ reloads p3 = S (reloads p2)
       ∧ state p3 = state p2 ∧ totalRounds p3 = totalRounds p2
       ∧ viewerCount p3 = viewerCount p2
       ∧ lastMessageAt p3 = lastMessageAt p2
       ∧ knownVersion p3 = Some v)
  ∧ (∀ now' d' tr' vc' version',
       version' = Some v ∨ version' = None ∨ version' = Some [] →
       let p3 := onmessage now' (Parsed (StateMessage d' tr' vc' version'))
                   p2 in
       p3 = apply_state now' d' tr' vc' p2
       ∧ state p3 = d' ∧ viewerCount p3 = vc'
       ∧ lastMessageAt p3 = now' ∧ reloads p3 = reloads p2
       ∧ knownVersion p3 = Some v).
Proof.
  intros Hv Hbefore Hrun1 Hrun2.
  rewrite run_app in Hrun1.
  destruct (run before initial_page) as [p0|] eqn:E0; [|done].
  assert (knownVersion p0 = None) as Hk0
    by (by apply (versionless_run before initial_page)).
  simpl in Hrun1. rewrite Hk0 in Hrun1.
  destruct v as [|c v]; [done|]. simpl in Hrun1. injection Hrun1 as <-.
  assert (knownVersion p2 = Some (c :: v)) as Hk2
    by (by apply (knownVersion_run later _
                    (apply_state now d tr vc (set_knownVersion (c :: v) p0)))).
  split; [done|]. split; [done|]. split.
  - intros now' d' tr' vc' v' Hv' Hne. simpl.
    destruct v' as [|c' v']; [done|]. simpl. rewrite Hk2. simpl.
    rewrite bool_decide_eq_false_2 by congruence. done.
  - intros now' d' tr' vc' version' [->|[->| ->]]; simpl; try done.
    rewrite Hk2. simpl. by rewrite bool_decide_eq_true_2.
Qed.

(** C5, witness: version "v1" is recorded; a message of version "v2"
    then reloads the page and leaves the snapshot alone. *)
Lemma version_check_witness :
  knownVersion
    (onmessage 7 (Parsed (StateMessage (Some (mk_game None None)) (Finite 3) 1
                            (Some (js "v1")))) initial_page)
    = Some (js "v1")
  ∧ onmessage 9 (Parsed (StateMessage (Some (mk_game None None)) (Finite 3) 5
                           (Some (js "v2"))))
      (onmessage 7 (Parsed (StateMessage (Some (mk_game None None)) (Finite 3) 1
                              (Some (js "v1")))) initial_page)
    = reload
        (onmessage 7 (Parsed (StateMessage (Some (mk_game None None)) (Finite 3) 1
                                (Some (js "v1")))) initial_page).
Proof.
  pose proof (version_check [] [] 7 (Some (mk_game None None)) (Finite 3) 1
                (js "v1") _ _ ltac:(discriminate) (Forall_nil_2 _)
                eq_refl eq_refl) as H.
  destruct H as ((Hk & _) & _ & Hreload & _). split; [exact Hk|].
  apply (Hreload 9 (Some (mk_game None None)) (Finite 3) 5 (js "v2"));
    discriminate.
Defined.

(** ** Reconnect timer *)

(** A timer other than the one [reconnectTimer] holds is not pending. *)
Lemma timers_inv_other (p : page) (k : nat) :
  timers_inv p → reconnectTimer p ≠ Some k → pending_timers p !! k = None.
Proof.
  intros Hinv Hne. destruct (pending_timers p !! k) eqn:Ek; [|done].
  destruct Hne. apply Hinv. by eexists.
Qed.

Lemma onclose_schedules (p : page) :
  timers_inv p →
  pending_timers (onclose p) = {[next_timer p := 1000]}
  ∧ reconnectTimer (onclose p) = Some (next_timer p)
  ∧ next_timer (onclose p) = S (next_timer p).
Proof.
  intros Hinv. unfold onclose. simpl.
  destruct (reconnectTimer p) as [id0|] eqn:Er; simpl;
    (split; [|done]); rewrite <- insert_empty; f_equal;
    apply map_eq; intros k; rewrite lookup_empty.
  - destruct (decide (k = id0)) as [->|Hne];
      [by rewrite lookup_delete_eq|].
    rewrite lookup_delete_ne by done.
    apply timers_inv_other; [done|congruence].
  - apply timers_inv_other; [done|congruence].
Qed.

(** Messages touch neither the timers nor the socket counter. *)
Lemma onmessage_timers (now : Z) (data : payload) (p : page) :
  pending_timers (onmessage now data p) = pending_timers p
  ∧ reconnectTimer (onmessage now data p) = reconnectTimer p
  ∧ next_timer (onmessage now data p) = next_timer p.
Proof.
  destruct data as [|[d tr vc [v|]|vc|]]; simpl; try done.
  destruct (truthy v); [|done].
  destruct (negb _); [done|]. by destruct (negb _).
Qed.

Lemma timers_inv_step (e : event) (p p' : page) :
  timers_inv p → step e p = Some p' → timers_inv p'.
Proof.
  intros Hinv Hs. destruct e as [| |now data|id]; simpl in Hs.
  - by injection Hs as <-.
  - injection Hs as <-.
    destruct (onclose_schedules p Hinv) as (Ht & Hr & _).
    intros k Hk. rewrite Ht in Hk. rewrite Hr.
    destruct (decide (k = next_timer p)) as [->|Hne]; [done|].
    rewrite lookup_singleton_ne in Hk by done. by destruct Hk.
  - injection Hs as <-. intros k Hk.
    destruct (onmessage_timers now data p) as (Ht & Hr & _).
    rewrite Ht in Hk. rewrite Hr. by apply Hinv.
  - destruct (bool_decide _); [|done]. injection Hs as <-.
    intros k Hk. simpl in *.
    destruct (decide (k = id)) as [->|Hne].
    + rewrite lookup_delete_eq in Hk. by destruct Hk.
    + rewrite lookup_delete_ne in Hk by done. by apply Hinv.
Qed.

Lemma timers_inv_reachable (p : page) : reachable p → timers_inv p.
Proof.
  intros [es Hes].
  assert (∀ p0, timers_inv p0 → run es p0 = Some p → timers_inv p) as H.
  { clear Hes. induction es as [|e es IH]; intros p0 H0 Hr.
    - by injection Hr as <-.
    - simpl in Hr. destruct (step e p0) as [p1|] eqn:E; [|done].
      apply (IH p1); [|done]. by apply (timers_inv_step e p0). }
  apply (H initial_page); [|done].
  intros k Hk. simpl in Hk. rewrite lookup_empty in Hk. by destruct Hk.
Qed.

Lemma timers_inv_size (p : page) :
  timers_inv p → (size (pending_timers p) ≤ 1)%nat.
Proof.
  intros Hinv.
  assert (pending_timers p = ∅ ∨ ∃ id d, pending_timers p = {[id := d]})
    as [->|(id & d & ->)];
    [|by rewrite map_size_empty; lia|by rewrite map_size_singleton].
  destruct (reconnectTimer p) as [id0|] eqn:Er;
    [destruct (pending_timers p !! id0) as [d|] eqn:E0|].
  - right. exists id0, d. apply map_eq. intros k.
    destruct (decide (k = id0)) as [->|Hne];
      [by rewrite lookup_singleton_eq|].
    rewrite lookup_singleton_ne by done.
    apply timers_inv_other; [done|congruence].
  - left. apply map_eq. intros k. rewrite lookup_empty.
    destruct (decide (k = id0)) as [->|Hne]; [done|].
    apply timers_inv_other; [done|congruence].
  - left. apply map_eq. intros k. rewrite lookup_empty.
    apply timers_inv_other; [done|congruence].
Qed.

(** The identifier of a pending timer is below the next identifier. *)
Lemma timers_fresh_step (e : event) (p p' : page) :
  (∀ id, is_Some (pending_timers p !! id) → (id < next_timer p)%nat) →
  step e p = Some p' →
  ∀ id, is_Some (pending_timers p' !! id) → (id < next_timer p')%nat.
Proof.
  intros H0 Hs. destruct e as [| |now data|id0]; simpl in Hs.
  - by injection Hs as <-.
  - injection Hs as <-. intros id. unfold onclose. simpl.
    destruct (reconnectTimer p) as [n|]; simpl; intros Hid;
      (destruct (decide (id = next_timer p)) as [->|Hne];
       [lia|rewrite lookup_insert_ne in Hid by done]).
    + destruct (decide (id = n)) as [->|Hn];
        [rewrite lookup_delete_eq in Hid; by destruct Hid|].
      rewrite lookup_delete_ne in Hid by done.
      specialize (H0 id Hid). lia.
    + specialize (H0 id Hid). lia.
  - injection Hs as <-.
    destruct (onmessage_timers now data p) as (-> & _ & ->). done.
  - destruct (bool_decide _); [|done]. injection Hs as <-.
    intros id. simpl.
    destruct (decide (id = id0)) as [->|Hn];
      [rewrite lookup_delete_eq; by intros []|].
    rewrite lookup_delete_ne by done. apply H0.
Qed.

Lemma timers_fresh (p : page) :
  reachable p → pending_timers p !! next_timer p = None.
Proof.
  intros [es Hes].
  assert (∀ p0,
            (∀ id, is_Some (pending_timers p0 !! id) →
                   (id < next_timer p0)%nat) →
            run es p0 = Some p →
            ∀ id, is_Some (pending_timers p !! id) →
                  (id < next_timer p)%nat) as H.
  { clear Hes. induction es as [|e es IH]; intros p0 H0 Hr.
    - by injection Hr as <-.
    - simpl in Hr. destruct (step e p0) as [p1|] eqn:E; [|done].
      apply (IH p1); [|done]. by apply (timers_fresh_step e p0). }
  destruct (pending_timers p !! next_timer p) eqn:E; [|done].
  assert (next_timer p < next_timer p)%nat; [|lia].
  apply (H initial_page); [|done|by eexists].
  intros id. simpl. rewrite lookup_empty. by intros [].
Qed.

(** C7: in every state the page can reach, at most one reconnect timer is
    pending.  A disconnect is always handled, and leaves exactly one timer
    pending: a new one, with a delay of 1000 ms whatever happened before,
    any timer that was pending having been cleared. *)
Theorem single_reconnect_timer (p : page) :
  reachable p →
  (size (pending_timers p) ≤ 1)%nat
  ∧ step SocketClose p = Some (onclose p)
  ∧ reachable (onclose p)
  ∧ pending_timers (onclose p) = {[next_timer p := 1000]}
  ∧ reconnectTimer (onclose p) = Some (next_timer p)
  ∧ pending_timers p !! next_timer p = None.
Proof.
  intros Hr. pose proof (timers_inv_reachable p Hr) as Hinv.
  destruct (onclose_schedules p Hinv) as (Ht & Hrt & _).
  split; [by apply timers_inv_size|]. split; [done|].
  split; [|split; [done|split; [done|by apply timers_fresh]]].
  destruct Hr as [es Hes]. exists (es ++ [SocketClose]).
  rewrite run_app, Hes. done.
Qed.

(** C7, witness: two disconnects in a row leave one timer pending. *)
Lemma single_reconnect_timer_witness :
  (size (pending_timers (onclose (onclose initial_page))) ≤ 1)%nat
  ∧ pending_timers (onclose (onclose (onclose initial_page)))
    = {[next_timer (onclose (onclose initial_page)) := 1000]}.
Proof.
  assert (reachable (onclose (onclose initial_page))) as Hr
    by (exists [SocketClose; SocketClose]; reflexivity).
  destruct (single_reconnect_timer _ Hr) as (Hsize & _ & _ & Ht & _).
  split; [exact Hsize|exact Ht].
Defined.

(** ** Capture sink *)

(** C8: the handler drops the chunk, making no call on the socket and
    returning normally, when more than 16,000,000 bytes are buffered (so at
    17,000,000), when the socket is not open, or when the chunk is empty;
    otherwise it reads the chunk and sends it.  It never throws, and never
    sends an empty chunk. *)
Theorem capture_sink_backpressure (data : list N) (socket : sink_socket) :
  (16000000 < bufferedAmount socket ∨ readyState socket ≠ OPEN ∨ data = [] →
   ondataavailable data socket = Returns [])
  ∧ (bufferedAmount socket ≤ 16000000 → readyState socket = OPEN →
     data ≠ [] →
     ondataavailable data socket = Returns [ArrayBuffer; Send data])
  ∧ (∀ rs, ondataavailable data
             {| readyState := rs; bufferedAmount := 17000000 |} = Returns [])
  ∧ (∃ calls, ondataavailable data socket = Returns calls
              ∧ Send [] ∉ calls).
Proof.
  assert (∀ s, (16000000 < bufferedAmount s ∨ readyState s ≠ OPEN
                ∨ data = []) → ondataavailable data s = Returns [])
    as Hdrop.
  { intros s H. unfold ondataavailable.
    destruct data as [|c data]; [done|]. simpl length.
    destruct (Z.eqb_spec (Z.of_nat (S (length data))) 0); [done|].
    destruct (bool_decide (readyState s = OPEN)) eqn:Er; [|done].
    apply bool_decide_eq_true in Er. simpl.
    destruct (Z.gtb_spec (bufferedAmount s) 16000000) as [|Hle]; [done|].
    destruct H as [?|[?|?]]; [lia|done|done]. }
  assert (bufferedAmount socket ≤ 16000000 → readyState socket = OPEN →
          data ≠ [] →
          ondataavailable data socket = Returns [ArrayBuffer; Send data])
    as Hsend.
  { intros Hb Hr Hd. unfold ondataavailable.
    destruct data as [|c data]; [done|]. simpl length.
    destruct (Z.eqb_spec (Z.of_nat (S (length data))) 0); [lia|].
    rewrite bool_decide_eq_true_2 by done. simpl.
    destruct (Z.gtb_spec (bufferedAmount socket) 16000000); [lia|done]. }
  split; [apply Hdrop|]. split; [exact Hsend|]. split.
  - intros rs. apply Hdrop. left. simpl. lia.
  - destruct (decide (data = [])) as [Hd|Hd].
    { exists []. split; [apply Hdrop; auto|]. apply not_elem_of_nil. }
    destruct (decide (readyState socket = OPEN)) as [Hr|Hr].
    2: { exists []. split; [apply Hdrop; auto|]. apply not_elem_of_nil. }
    destruct (decide (bufferedAmount socket ≤ 16000000)) as [Hb|Hb].
    2: { exists []. split; [apply Hdrop; left; lia|].
         apply not_elem_of_nil. }
    exists [ArrayBuffer; Send data]. split; [by apply Hsend|].
    rewrite !elem_of_cons, elem_of_nil. intros [?|[?|?]]; congruence.
Qed.

(** C8, witness: 17,000,000 bytes buffered on an open socket. *)
Lemma capture_sink_backpressure_witness :
  ondataavailable [1%N; 2%N; 3%N]
    {| readyState := OPEN; bufferedAmount := 17000000 |} = Returns [].
Proof.
  apply (proj1 (capture_sink_backpressure [1%N; 2%N; 3%N]
                  {| readyState := OPEN; bufferedAmount := 17000000 |})).
  left. simpl. lia.
Defined.

(** ** Orchestrator start-up *)

(** When no chunk arrives in time, the run ends with [process.exit(1)],
    but between the launch of the browser and the exit nothing is torn
    down: [shutdown] is declared after the gate and never called. *)
Lemma startup_timeout_trace (env : run_env) :
  starts_up env → first env = NoChunk →
  ∃ started,
    orchestrator env
    = started ++
      [ServeChunks; LaunchBrowser; OpenCapturePage; SetTimeout 10000;
       ClearTimeout;
       ConsoleError
         "No media chunks received from headless browser within 10s.";
       ProcessExit 1]
    ∧ SpawnFfmpeg ∈ started
    ∧ Forall (λ a, is_teardown a = false) (orchestrator env).
Proof.
  intros [Hu Hp] Hf. unfold orchestrator, main, await_firstChunk,
    assertBroadcastReachable.
  rewrite Hu, Hf. destruct (mode env) eqn:Em.
  - exists [Fetch; SpawnFfmpeg]. simpl. split; [done|].
    split; [set_solver|]. repeat constructor.
  - rewrite Hp by done. exists [Fetch; SpawnFfmpeg; SpawnFfplay; PumpToFfplay].
    simpl. split; [done|]. split; [set_solver|]. repeat constructor.
Qed.

(** The other way out of [main] does tear down: once a chunk has arrived
    and [ffmpeg] has exited, [shutdown] stops the relay, closes the
    browser and ends and kills the encoder. *)
Lemma encoder_exit_trace (env : run_env) :
  starts_up env → first env = ChunkArrives →
  StopChunkServer ∈ orchestrator env ∧ CloseBrowser ∈ orchestrator env
  ∧ EndFfmpegStdin ∈ orchestrator env ∧ KillFfmpeg ∈ orchestrator env.
Proof.
  intros [Hu Hp] Hf. unfold orchestrator, main, await_firstChunk,
    assertBroadcastReachable, shutdown.
  rewrite Hu, Hf. destruct (mode env) eqn:Em.
  - simpl. destruct (bool_decide _); simpl; set_solver.
  - rewrite Hp by done. simpl. destruct (bool_decide _); simpl; set_solver.
Qed.

(** C9, at the failing input: a live run in which no chunk arrives.  The
    process exits with code 1, having started the encoder and the browser
    and torn down neither. *)
Theorem startup_timeout_exits_without_teardown :
  orchestrator {| mode := live; unreachable := None; ffplay_pipe := true;
                  first := NoChunk; exitCode := 0 |}
  = [Fetch; SpawnFfmpeg; ServeChunks; LaunchBrowser; OpenCapturePage;
     SetTimeout 10000; ClearTimeout;
     ConsoleError
       "No media chunks received from headless browser within 10s.";
     ProcessExit 1]
  ∧ Forall (λ a, is_teardown a = false)
      (orchestrator {| mode := live; unreachable := None;
                       ffplay_pipe := true; first := NoChunk;
                       exitCode := 0 |}).
Proof. split; [reflexivity|]. repeat constructor. Qed.

(** * Further properties of the code *)

(** ** State-sync client: what the handlers keep *)

Lemma run_invariant (I : page → Prop) :
  (∀ e p p', I p → step e p = Some p' → I p') →
  ∀ es p p', I p → run es p = Some p' → I p'.
Proof.
  intros Hstep. induction es as [|e es IH]; intros p p' HI Hr.
  - by injection Hr as <-.
  - simpl in Hr. destruct (step e p) as [p1|] eqn:E; [|done].
    apply (IH p1); [|done]. by apply (Hstep e p).
Qed.

(** What a message does to the snapshot fields: it applies a state, or
    leaves them. *)
Lemma onmessage_cases (now : Z) (data : payload) (p : page) :
  (∃ d tr vc p0, onmessage now data p = apply_state now d tr vc p0
                 ∧ reloads p0 = reloads p)
  ∨ (state (onmessage now data p) = state p
     ∧ totalRounds (onmessage now data p) = totalRounds p
     ∧ lastMessageAt (onmessage now data p) = lastMessageAt p).
Proof.
  destruct data as [|[d tr vc [v|]|vc|]]; simpl; try (by right).
  - destruct (truthy v); [|left; by eexists _, _, _, _].
    destruct (negb _); [left; by eexists _, _, _, _|].
    destruct (negb _); [by right|left; by eexists _, _, _, _].
  - left. by eexists _, _, _, _.
Qed.

Lemma other_events_keep_snapshot (e : event) (p p' : page) :
  (∀ now data, e ≠ SocketMessage now data) → step e p = Some p' →
  state p' = state p ∧ totalRounds p' = totalRounds p
  ∧ lastMessageAt p' = lastMessageAt p ∧ reloads p' = reloads p.
Proof.
  intros He Hs. destruct e as [| |now data|id]; simpl in Hs.
  - by injection Hs as <-.
  - injection Hs as <-. unfold onclose. simpl.
    by destruct (reconnectTimer p).
  - by destruct (He now data).
  - destruct (bool_decide _); [|done]. by injection Hs as <-.
Qed.

(** What an event other than a message leaves as it is. *)
Ltac other_event Hs :=
  match type of Hs with
  | step ?e ?p = Some ?p' =>
      let Hkeep := fresh "Hkeep" in
      let Hver := fresh "Hver" in
      pose proof (other_events_keep_snapshot e p p'
                    ltac:(intros ? ? ?; discriminate) Hs) as Hkeep;
      pose proof (knownVersion_other e p p'
                    ltac:(intros ? ? ?; discriminate) Hs) as Hver;
      destruct Hkeep as (Hkeep_state & Hkeep_total & Hkeep_at & Hkeep_reloads)
  end.



(** X2: whatever the server sends, the total of rounds the page holds is
    absent or a finite number that is not negative. *)
Theorem totalRounds_never_negative (p : page) :
  reachable p → totalRounds_ok p.
Proof.
  intros [es Hes].
  apply (run_invariant totalRounds_ok) with (es := es) (p := initial_page);
    [|done|done].
  clear. intros e p p' HI Hs. destruct e as [| |now data|id];
    try (other_event Hs; unfold totalRounds_ok; by rewrite Hkeep_total).
  simpl in Hs. injection Hs as <-.
  destruct (onmessage_cases now data p)
    as [(d & tr & vc & p0 & -> & _)|(_ & Ht & _)].
  - intros q. simpl. destruct tr as [q0|]; [|done].
    destruct (Qle_bool 0 q0) eqn:E; [|done].
    intros [= <-]. by apply Qle_bool_iff.
  - unfold totalRounds_ok. by rewrite Ht.
Qed.

Lemma totalRounds_never_negative_witness :
  totalRounds_ok
    (onmessage 5
       (Parsed (StateMessage (Some (mk_game None None)) (Finite (-2)) 1 None))
       initial_page).
Proof.
  apply totalRounds_never_negative.
  exists [SocketMessage 5
            (Parsed (StateMessage (Some (mk_game None None)) (Finite (-2)) 1 None))].
  reflexivity.
Defined.

(** X3: no reload without a change of version.  When every state message
    that carries a version carries the same one, [location.reload()] is
    never called, however many messages, disconnects and reconnects
    there are. *)
Theorem no_reload_without_version_change (v : jsstring)
    (es : list event) (p : page) :
  Forall (agrees_with v) es → run es initial_page = Some p →
  reloads p = 0%nat ∧ (knownVersion p = None ∨ knownVersion p = Some v).
Proof.
  intros Hes Hr.
  assert (∀ p0, reloads p0 = 0%nat
                ∧ (knownVersion p0 = None
                   ∨ (knownVersion p0 = Some v ∧ v ≠ [])) →
            run es p0 = Some p →
            reloads p = 0%nat
            ∧ (knownVersion p = None ∨ (knownVersion p = Some v ∧ v ≠ [])))
    as H.
  { clear Hr. induction es as [|e es IH]; intros p0 H0 Hr.
    - by injection Hr as <-.
    - apply Forall_cons in Hes as [He Hes]. simpl in Hr.
      destruct (step e p0) as [p1|] eqn:E; [|done].
      apply (IH Hes p1); [|done]. clear IH Hr Hes.
      destruct H0 as [Hr0 Hk0].
      destruct e as [| |now data|id];
        try (other_event E; by rewrite Hkeep_reloads, Hver).
      simpl in E. injection E as <-.
      destruct data as [|[d tr vc [[|c w]|]|vc|]]; simpl in *; try done.
      destruct He as [He|He]; [done|]. subst v.
      destruct Hk0 as [Hk|[Hk Hv]]; rewrite Hk; simpl.
      + split; [done|]. by right.
      + rewrite bool_decide_eq_true_2 by done. simpl. split; [done|].
        by right. }
  destruct (H initial_page) as [Hr0 Hk0]; [by split; [|left]|done|].
  split; [done|]. destruct Hk0 as [?|[? _]]; auto.
Qed.

Lemma no_reload_without_version_change_witness :
  reloads
    (onmessage 9 (Parsed (StateMessage (Some (mk_game None None)) (Finite 3) 5
                            (Some (js "v1"))))
       (onclose
          (onmessage 7 (Parsed (StateMessage (Some (mk_game None None)) (Finite 3) 1
                                  (Some (js "v1")))) initial_page)))
  = 0%nat.
Proof.
  apply (no_reload_without_version_change (js "v1")
           [SocketMessage 7
              (Parsed (StateMessage (Some (mk_game None None)) (Finite 3) 1
                         (Some (js "v1"))));
            SocketClose;
            SocketMessage 9
              (Parsed (StateMessage (Some (mk_game None None)) (Finite 3) 5
                         (Some (js "v1"))))]);
    [|reflexivity].
  repeat constructor; by right.
Defined.

Lemma onmessage_sockets (now : Z) (data : payload) (p : page) :
  sockets (onmessage now data p) = sockets p.
Proof.
  destruct data as [|[d tr vc [v|]|vc|]]; simpl; try done.
  destruct (truthy v); [|done].
  destruct (negb _); [done|]. by destruct (negb _).
Qed.

Lemma reconnects_step (e : event) (p p' : page) :
  step e p = Some p' →
  next_timer p' = (next_timer p + closes [e])%nat
  ∧ (sockets p' + size (pending_timers p')
     ≤ sockets p + size (pending_timers p) + closes [e])%nat.
Proof.
  intros Hs. destruct e as [| |now data|id]; simpl in Hs.
  - injection Hs as <-. unfold closes. simpl. lia.
  - injection Hs as <-. unfold closes, onclose. simpl.
    destruct (reconnectTimer p) as [id0|]; simpl;
      rewrite map_size_insert; (split; [lia|]).
    + pose proof (map_size_delete id0 (pending_timers p)) as Hd.
      destruct (delete id0 (pending_timers p) !! next_timer p),
               (pending_timers p !! id0); simpl in *; lia.
    + destruct (pending_timers p !! next_timer p); simpl; lia.
  - injection Hs as <-.
    destruct (onmessage_timers now data p) as (-> & _ & ->).
    rewrite onmessage_sockets. unfold closes. simpl. lia.
  - destruct (bool_decide (is_Some (pending_timers p !! id))) eqn:E;
      [|done].
    apply bool_decide_eq_true in E. injection Hs as <-.
    unfold closes. simpl. rewrite map_size_delete_Some by done.
    apply map_size_ne_0_lookup_2 in E. lia.
Qed.

(** X4: never more reconnect attempts than disconnects.  After any events,
    the sockets the script has opened and the reconnect attempt it has
    pending number at most one more than the disconnects seen, and the
    timers set number exactly the disconnects. *)
Theorem reconnects_bounded (es : list event) (p : page) :
  run es initial_page = Some p →
  next_timer p = S (closes es)
  ∧ (sockets p + size (pending_timers p) ≤ S (closes es))%nat.
Proof.
  assert (∀ p0, run es p0 = Some p →
            next_timer p = (next_timer p0 + closes es)%nat
            ∧ (sockets p + size (pending_timers p)
               ≤ sockets p0 + size (pending_timers p0) + closes es)%nat)
    as H.
  { induction es as [|e es IH]; intros p0 Hr.
    - injection Hr as <-. unfold closes. simpl. lia.
    - simpl in Hr. destruct (step e p0) as [p1|] eqn:E; [|done].
      destruct (IH p1 Hr) as [Hn Hs].
      destruct (reconnects_step e p0 p1 E) as [Hn1 Hs1].
      assert (closes (e :: es) = closes [e] + closes es)%nat as ->
        by (unfold closes; simpl; destruct (is_close e); simpl; lia).
      lia. }
  intros Hr. destruct (H initial_page Hr) as [Hn Hs].
  simpl in Hn, Hs. rewrite map_size_empty in Hs. lia.
Qed.

Lemma reconnects_bounded_witness :
  (sockets (onclose (onclose initial_page))
   + size (pending_timers (onclose (onclose initial_page))) ≤ 3)%nat.
Proof.
  apply (reconnects_bounded [SocketClose; SocketClose]). reflexivity.
Defined.

(** ** Text layout: words that fit *)

Section WordsThatFit.

Variable measureText : jsstring → jsstring → Q.
Variables (maxWidth : Q) (font : jsstring).

Abbreviation fits := (fits measureText maxWidth font).
Abbreviation splitWordToFit := (splitWordToFit measureText maxWidth font).
Abbreviation place_segments := (place_segments measureText maxWidth font).
Abbreviation place_words := (place_words measureText maxWidth font).

(** A word that fits is its own, single, segment. *)
Lemma splitWordToFit_fitting (fuel : nat) (word : jsstring) :
  word ≠ [] → fits word = true → splitWordToFit fuel word = Some [word].
Proof.
  intros Hne Hf. unfold splitWordToFit. destruct word; [done|].
  simpl. by rewrite Hf.
Qed.

(** The later loop on a word that fits does what the earlier loop did,
    before the cap is looked at. *)
Lemma place_segments_whole (maxLines : Z) (word : jsstring) (st : layout) :
  place_segments maxLines [word] true st
  = let candidate :=
      if truthy (current st) then current st ++ js " " ++ word else word in
    if fits candidate then {| lines := lines st; current := candidate |}
    else {| lines := if truthy (current st) then lines st ++ [current st]
                     else lines st;
            current := word |}.
Proof.
  simpl. destruct (truthy (current st)); simpl;
    destruct (fits _); try done; by destruct (cap_reached _ _).
Qed.

Lemma earlier_place_words_cons (maxLines : Z) (word : jsstring)
    (rest : list jsstring) (st : layout) :
  Earlier.place_words measureText maxWidth font maxLines (word :: rest) st
  = let candidate :=
      if truthy (current st) then current st ++ js " " ++ word else word in
    if fits candidate then
      Earlier.place_words measureText maxWidth font maxLines rest
        {| lines := lines st; current := candidate |}
    else
      let pushed :=
        if truthy (current st) then lines st ++ [current st]
        else lines st in
      if cap_reached maxLines pushed
      then {| lines := pushed; current := word |}
      else Earlier.place_words measureText maxWidth font maxLines rest
             {| lines := pushed; current := word |}.
Proof. reflexivity. Qed.

Lemma place_words_agree (maxLines : Z) (fuel : nat)
    (words : list jsstring) :
  ∀ st,
    (∀ w, w ∈ words → w ≠ [] ∧ fits w = true) →
    cap_reached maxLines (lines st) = false →
    place_words maxLines fuel words st
    = Some (Earlier.place_words measureText maxWidth font maxLines words st).
Proof.
  induction words as [|word rest IH]; intros st Hw Hcap; [done|].
  destruct (Hw word) as [Hne Hf]; [by left|].
  assert (∀ w, w ∈ rest → w ≠ [] ∧ fits w = true) as Hrest
    by (intros w Hin; apply Hw; by right).
  assert (place_words maxLines fuel (word :: rest) st
          = let st' := place_segments maxLines [word] true st in
            if cap_reached maxLines (lines st') then Some st'
            else place_words maxLines fuel rest st') as ->.
  { change (place_words maxLines fuel (word :: rest) st)
      with (splitWordToFit fuel word ≫= λ segments,
              let st' := place_segments maxLines segments true st in
              if cap_reached maxLines (lines st') then Some st'
              else place_words maxLines fuel rest st').
    rewrite (splitWordToFit_fitting fuel word Hne Hf). reflexivity. }
  rewrite place_segments_whole, earlier_place_words_cons.
  cbv zeta.
  set (candidate := if truthy (current st) then current st ++ js " " ++ word
                    else word).
  destruct (fits candidate).
  - simpl lines. rewrite Hcap. by apply IH.
  - simpl lines.
    set (pushed := if truthy (current st) then lines st ++ [current st]
                   else lines st).
    destruct (cap_reached maxLines pushed) eqn:E; [done|].
    by apply IH.
Qed.

(** X5: the later [textLines] changes nothing for text it need not cut.
    For a cap of at least two lines and a text whose words each fit the
    width, it returns what the earlier [textLines] returned. *)
Theorem textLines_agrees_with_earlier (fuel : nat) (text : jsstring)
    (maxLines : Z) :
  2 ≤ maxLines →
  (∀ w, w ∈ words_of text → fits w = true) →
  textLines measureText fuel text maxWidth font maxLines
  = Earlier.textLines measureText fuel text maxWidth font maxLines.
Proof.
  intros Hm Hw. unfold textLines, Earlier.textLines.
  rewrite place_words_agree; [done| |].
  - intros w Hin. split; [|by apply Hw].
    by destruct (words_of_spec text w Hin).
  - unfold cap_reached. simpl. apply Z.leb_gt. lia.
Qed.

Lemma extend_unwords (ws : list jsstring) :
  Forall (λ w, w ≠ []) ws →
  ∀ cur, cur ≠ [] →
    extend cur ws
    = cur ++ match ws with [] => [] | _ :: _ => js " " ++ unwords ws end.
Proof.
  induction ws as [|w rest IH]; intros Hne cur Hcur.
  - simpl. by rewrite app_nil_r.
  - apply Forall_cons in Hne as [Hw Hrest]. unfold extend. simpl foldl.
    destruct cur as [|c cur]; [done|]. simpl truthy. cbv iota.
    fold (extend ((c :: cur) ++ js " " ++ w) rest).
    rewrite IH; [|done|by destruct w]. rewrite <- !app_assoc.
    destruct rest; [by rewrite app_nil_r|done].
Qed.

Lemma extend_empty (ws : list jsstring) :
  Forall (λ w, w ≠ []) ws → extend [] ws = unwords ws.
Proof.
  destruct ws as [|w rest]; [done|]. intros Hne.
  apply Forall_cons in Hne as [Hw Hrest]. unfold extend. simpl foldl.
  fold (extend w rest). rewrite extend_unwords by done.
  destruct rest; [by rewrite app_nil_r|done].
Qed.

Lemma place_words_one_line (maxLines : Z) (fuel : nat)
    (words : list jsstring) :
  2 ≤ maxLines →
  ∀ cur,
    (∀ w, w ∈ words → w ≠ [] ∧ fits w = true) →
    (∀ k, (1 ≤ k ≤ length words)%nat →
          fits (extend cur (take k words)) = true) →
    place_words maxLines fuel words {| lines := []; current := cur |}
    = Some {| lines := []; current := extend cur words |}.
Proof.
  intros Hm. induction words as [|word rest IH]; intros cur Hw Hk; [done|].
  rewrite place_words_agree; [|done|unfold cap_reached; simpl;
                                apply Z.leb_gt; lia].
  rewrite earlier_place_words_cons. cbv zeta. simpl current.
  pose proof (Hk 1%nat ltac:(simpl; lia)) as H1.
  change (extend cur (take 1 (word :: rest)))
    with (if truthy cur then cur ++ js " " ++ word else word) in H1.
  rewrite H1.
  rewrite <- (place_words_agree maxLines fuel);
    [|intros w Hin; apply Hw; by right
     |unfold cap_reached; simpl; apply Z.leb_gt; lia].
  rewrite IH.
  - done.
  - intros w Hin. apply Hw. by right.
  - intros k Hkr. apply (Hk (S k)). simpl. lia.
Qed.

(** X6: text whose words fit on one line is not wrapped.  For a cap of at
    least two lines, when every word fits and so does every line made of
    the first [k] words, [textLines] returns the single line of all the
    words, one space between neighbours, and no line for a text without
    words. *)
Theorem textLines_unwrapped (fuel : nat) (text : jsstring) (maxLines : Z) :
  2 ≤ maxLines →
  (∀ w, w ∈ words_of text → fits w = true) →
  (∀ k, (1 ≤ k ≤ length (words_of text))%nat →
        fits (unwords (take k (words_of text))) = true) →
  textLines measureText fuel text maxWidth font maxLines
  = Some (Returns match words_of text with
                  | [] => []
                  | _ :: _ => [unwords (words_of text)]
                  end).
Proof.
  intros Hm Hw Hk.
  assert (Forall (λ w, w ≠ []) (words_of text)) as Hne.
  { apply Forall_forall. intros w Hin.
    by destruct (words_of_spec text w Hin). }
  unfold textLines. rewrite place_words_one_line; [|done| |].
  - rewrite extend_empty by done.
    destruct (words_of text) as [|w rest] eqn:E.
    + simpl. change (Z.of_nat 0) with 0.
      destruct (Z.ltb_spec maxLines 0); [lia|done].
    + assert (truthy (unwords (w :: rest)) = true) as Ht.
      { apply Forall_cons in Hne as [Hw1 _]. simpl.
        destruct w; [done|]. by destruct rest. }
      remember (unwords (w :: rest)) as line.
      remember (w :: rest) as ws.
      cbn [mbind option_bind current lines]. rewrite Ht.
      cbn [app length].
      rewrite (proj2 (Z.ltb_ge maxLines (Z.of_nat 1))) by lia.
      unfold ellipsize. cbn [length].
      rewrite (proj2 (Z.eqb_neq (Z.of_nat 1) maxLines)) by lia.
      by rewrite andb_false_r.
  - intros w Hin. split; [|by apply Hw].
    by apply (proj1 (Forall_forall _ _) Hne).
  - intros k Hkr. rewrite extend_empty; [by apply Hk|].
    by apply Forall_take.
Qed.

(** X7: at a cap of one line only the first word is laid out.  When the
    first word of the text fits, [textLines] with [maxLines] 1 returns
    that word alone, whatever follows it and however wide the line is. *)
Theorem textLines_first_word_only (fuel : nat) (text : jsstring)
    (w : jsstring) (rest : list jsstring) :
  words_of text = w :: rest → fits w = true →
  textLines measureText fuel text maxWidth font 1 = Some (Returns [w]).
Proof.
  intros Hws Hf.
  assert (w ≠ []) as Hne.
  { destruct (words_of_spec text w) as [? _]; [|done].
    rewrite Hws. by left. }
  unfold textLines. rewrite Hws.
  assert (place_words 1 fuel (w :: rest) {| lines := []; current := [] |}
          = Some {| lines := []; current := w |}) as ->.
  { change (place_words 1 fuel (w :: rest) {| lines := []; current := [] |})
      with (splitWordToFit fuel w ≫= λ segments,
              let st' := place_segments 1 segments true
                           {| lines := []; current := [] |} in
              if cap_reached 1 (lines st') then Some st'
              else place_words 1 fuel rest st').
    rewrite (splitWordToFit_fitting fuel w Hne Hf).
    change (Some [w] ≫= ?f) with (f [w]). cbv beta.
    rewrite place_segments_whole. simpl. by rewrite Hf. }
  simpl. destruct w as [|c w]; [done|]. simpl.
  unfold ellipsize, array_get, overflows. simpl. by rewrite Hf.
Qed.

End WordsThatFit.

(** X5, witness *)
Lemma textLines_agrees_with_earlier_witness :
  textLines wide_glyphs 9 (js "aa bb cc") 50 (js "serif") 3
  = Earlier.textLines wide_glyphs 9 (js "aa bb cc") 50 (js "serif") 3.
Proof.
  apply textLines_agrees_with_earlier; [lia|].
  intros w Hin.
  change (words_of (js "aa bb cc")) with [js "aa"; js "bb"; js "cc"] in Hin.
  repeat (apply elem_of_cons in Hin as [->|Hin]; [reflexivity|]).
  by apply elem_of_nil in Hin.
Defined.

(** X6, witness *)
Lemma textLines_unwrapped_witness :
  textLines wide_glyphs 6 (js " aa  bb ") 50 (js "serif") 3
  = Some (Returns [js "aa bb"]).
Proof.
  apply (textLines_unwrapped wide_glyphs 50 (js "serif") 6 (js " aa  bb ") 3);
    [lia| |].
  - intros w Hin.
    change (words_of (js " aa  bb ")) with [js "aa"; js "bb"] in Hin.
    repeat (apply elem_of_cons in Hin as [->|Hin]; [reflexivity|]).
    by apply elem_of_nil in Hin.
  - intros k Hk.
    change (words_of (js " aa  bb ")) with [js "aa"; js "bb"] in *.
    destruct k as [|[|[|k]]]; [simpl in Hk; lia|reflexivity|reflexivity|].
    simpl in Hk. lia.
Defined.

(** X7, witness: the second word would fit, and is dropped all the same. *)
Lemma textLines_first_word_only_witness :
  textLines wide_glyphs 3 (js "hello world") 500 (js "serif") 1
  = Some (Returns [js "hello"]).
Proof.
  apply (textLines_first_word_only wide_glyphs 500 (js "serif") 3
           (js "hello world") (js "hello") [js "world"]); reflexivity.
Defined.

(** ** Text layout: the lines are the text *)

Lemma glyphs_app (a b : jsstring) : glyphs (a ++ b) = glyphs a ++ glyphs b.
Proof. apply filter_app. Qed.

Lemma glyphs_id (w : jsstring) :
  (∀ c, c ∈ w → is_ws c = false) → glyphs w = w.
Proof.
  induction w as [|c w IH]; intros H; [done|].
  unfold glyphs. rewrite filter_cons, decide_True by (apply H; by left).
  f_equal. apply IH. intros x Hx. apply H. by right.
Qed.

Lemma glyphs_elem (c : N) (text : jsstring) :
  c ∈ glyphs text → is_ws c = false.
Proof. intros H. by apply list_elem_of_filter in H as [? _]. Qed.

(** The words, one after the other, are the text without its white
    space. *)
Lemma concat_split_ws (s : jsstring) :
  ∀ in_sep acc,
    concat (List.filter truthy (split_ws in_sep acc s)) = acc ++ glyphs s.
Proof.
  assert (∀ (acc : jsstring) l,
            concat (List.filter truthy (acc :: l))
            = acc ++ concat (List.filter truthy l)) as Hcons.
  { intros acc l. simpl. by destruct acc. }
  induction s as [|c r IH]; intros in_sep acc.
  - simpl split_ws. rewrite Hcons. simpl. done.
  - simpl split_ws. unfold glyphs. rewrite filter_cons. fold (glyphs r).
    destruct (is_ws c) eqn:Ec.
    + rewrite decide_False by done. destruct in_sep; [apply IH|].
      rewrite Hcons, IH. done.
    + rewrite decide_True by done. rewrite IH, <- app_assoc. done.
Qed.

Lemma concat_words_of (text : jsstring) :
  concat (words_of text) = glyphs text.
Proof. unfold words_of. by rewrite concat_split_ws. Qed.

Section Content.

Variable measureText : jsstring → jsstring → Q.
Variables (maxWidth : Q) (font : jsstring) (maxLines : Z).

Abbreviation fits := (fits measureText maxWidth font).
Abbreviation place_segments :=
  (place_segments measureText maxWidth font maxLines).
Abbreviation place_words := (place_words measureText maxWidth font maxLines).

Lemma place_segments_cons (seg : jsstring) (rest : list jsstring)
    (isFirstSegment : bool) (st : layout) :
  place_segments (seg :: rest) isFirstSegment st
  = let candidate :=
      if truthy (current st)
      then current st ++
           (if isFirstSegment && truthy (current st) then js " " else [])
           ++ seg
      else seg in
    let pushed :=
      if truthy (current st) then lines st ++ [current st] else lines st in
    if fits candidate
    then place_segments rest false {| lines := lines st; current := candidate |}
    else if cap_reached maxLines pushed
         then {| lines := pushed; current := seg |}
         else place_segments rest false {| lines := pushed; current := seg |}.
Proof. reflexivity. Qed.

Lemma place_segments_content (segments : list jsstring) :
  ∀ isFirstSegment st,
    (∀ s c, s ∈ segments → c ∈ s → is_ws c = false) →
    ∃ tail, laid_out (place_segments segments isFirstSegment st) ++ tail
            = laid_out st ++ concat segments
          ∧ (tail = [] ∨
             cap_reached maxLines
               (lines (place_segments segments isFirstSegment st)) = true).
Proof.
  induction segments as [|seg rest IH]; intros isF st Hws.
  - exists []. simpl. split; [done|by left].
  - assert (glyphs seg = seg) as Hseg
      by (apply glyphs_id; intros c Hc; apply (Hws seg); [by left|done]).
    assert (∀ s c, s ∈ rest → c ∈ s → is_ws c = false) as Hrest
      by (intros s c Hs; apply Hws; by right).
    rewrite place_segments_cons. cbv zeta.
    set (candidate := if truthy (current st)
                      then current st ++
                           (if isF && truthy (current st) then js " "
                            else []) ++ seg
                      else seg).
    set (pushed := if truthy (current st) then lines st ++ [current st]
                   else lines st).
    assert (laid_out {| lines := lines st; current := candidate |}
            = laid_out st ++ seg) as Hfit.
    { unfold laid_out, candidate. cbn [lines current].
      destruct (current st) as [|c cur]; cbn [truthy].
      - rewrite !glyphs_app, Hseg. change (glyphs []) with (@nil N).
        by rewrite app_nil_r.
      - rewrite andb_true_r, !glyphs_app, Hseg, <- !app_assoc.
        destruct isF; [change (glyphs (js " ")) with (@nil N)
                      |change (glyphs []) with (@nil N)]; done. }
    assert (laid_out {| lines := pushed; current := seg |}
            = laid_out st ++ seg) as Hpush.
    { unfold laid_out, pushed. cbn [lines current].
      destruct (current st) as [|c cur]; cbn [truthy].
      - rewrite !glyphs_app, Hseg. change (glyphs []) with (@nil N).
        by rewrite app_nil_r.
      - rewrite concat_app. cbn [concat]. rewrite app_nil_r.
        rewrite !glyphs_app, Hseg, <- !app_assoc. done. }
    cbn [concat].
    destruct (fits candidate).
    + destruct (IH false {| lines := lines st; current := candidate |} Hrest)
        as (tail & Ht & Hcap).
      exists tail. split; [|done]. rewrite Ht, Hfit, <- app_assoc. done.
    + destruct (cap_reached maxLines pushed) eqn:Ecap.
      * exists (concat rest). split; [|by right].
        rewrite Hpush, <- app_assoc. done.
      * destruct (IH false {| lines := pushed; current := seg |} Hrest)
          as (tail & Ht & Hcap).
        exists tail. split; [|done]. rewrite Ht, Hpush, <- app_assoc. done.
Qed.

Lemma place_words_content (fuel : nat) (words : list jsstring) :
  ∀ st st',
    (∀ w c, w ∈ words → c ∈ w → is_ws c = false) →
    (∀ w, w ∈ words → (length w < fuel)%nat) →
    place_words fuel words st = Some st' →
    ∃ tail, laid_out st' ++ tail = laid_out st ++ concat words.
Proof.
  induction words as [|word rest IH]; intros st st' Hws Hlen Hr.
  - injection Hr as <-. exists []. done.
  - simpl in Hr.
    destruct (splitWordToFit_total measureText maxWidth font word fuel)
      as (segs & Hsegs & Hcat & _); [apply Hlen; by left|].
    rewrite Hsegs in Hr. simpl in Hr.
    destruct (place_segments_content segs true st) as (tail1 & Ht1 & Hcap).
    { intros s c Hs Hc. apply (Hws word); [by left|].
      rewrite <- Hcat. apply list_elem_of_In, in_concat.
      exists s. by rewrite <- !list_elem_of_In. }
    rewrite Hcat in Ht1. cbn [concat].
    destruct (cap_reached maxLines _) eqn:Ecap.
    + injection Hr as <-. exists (tail1 ++ concat rest).
      rewrite !app_assoc, Ht1. done.
    + destruct Hcap as [->|?]; [|congruence]. rewrite app_nil_r in Ht1.
      destruct (IH _ st' ltac:(intros w c Hw; apply Hws; by right)
                  ltac:(intros w Hw; apply Hlen; by right) Hr)
        as [tail Ht].
      exists tail. by rewrite Ht, Ht1, <- !app_assoc.
Qed.

(** X8: [textLines] lays the text out as it is.  When every code unit of
    the text other than white space fits by itself, the lines returned,
    read one after the other without white space, are a beginning of the
    text without its white space: nothing is added, changed or moved (the
    end of the text may be left out). *)
Theorem textLines_keeps_text (fuel : nat) (text : jsstring) :
  (length text < fuel)%nat → 1 ≤ maxLines →
  (∀ c, c ∈ glyphs text → fits [c] = true) →
  ∃ ls, textLines measureText fuel text maxWidth font maxLines
          = Some (Returns ls)
        ∧ glyphs (concat ls) `prefix_of` glyphs text.
Proof.
  intros Hf Hm Hchars.
  destruct (packing_total measureText maxWidth font text maxLines fuel Hf)
    as (st & Hst & Hl & Hc).
  destruct (place_words_content fuel (words_of text)
              {| lines := []; current := [] |} st) as [tail Htail];
    [| |exact Hst|].
  { intros w c Hw Hcw. apply (glyphs_elem c text).
    by apply (proj1 (proj2 (words_of_spec text w Hw))). }
  { intros w Hw. destruct (words_of_spec text w Hw) as (_ & _ & ?). lia. }
  rewrite concat_words_of in Htail. unfold laid_out in Htail.
  simpl in Htail.
  assert (∀ l, seg_ok measureText maxWidth font (glyphs text) l →
               fits l = true) as Hok.
  { intros l [?|(c & -> & Hin)]; [done|by apply Hchars]. }
  unfold textLines. rewrite Hst. cbn [mbind option_bind].
  set (pushed := if truthy (current st) then lines st ++ [current st]
                 else lines st).
  assert (Forall (λ l, fits l = true) pushed) as Hp.
  { subst pushed.
    assert (Forall (λ l, fits l = true) (lines st))
      by (eapply Forall_impl; [exact Hl|exact Hok]).
    destruct (current st) eqn:Ec; simpl; [done|].
    apply Forall_app. split; [done|]. apply Forall_singleton.
    apply Hok. by destruct Hc. }
  assert (glyphs (concat pushed) ++ tail = glyphs text) as Hpushed.
  { rewrite <- Htail. f_equal. f_equal. subst pushed.
    destruct (current st); simpl; [by rewrite app_nil_r|].
    rewrite concat_app. simpl. by rewrite app_nil_r. }
  destruct (Z.ltb_spec maxLines (Z.of_nat (length pushed))) as [Hlt|Hge].
  - unfold set_length. destruct (Z.ltb_spec maxLines 0); [lia|].
    rewrite ellipsize_fitting; [|done|by apply Forall_take].
    eexists. split; [done|].
    exists (glyphs (concat (drop (Z.to_nat maxLines) pushed)) ++ tail).
    rewrite app_assoc, <- glyphs_app, <- concat_app, take_drop. done.
  - rewrite ellipsize_fitting; [|done|done].
    eexists. split; [done|]. by exists tail.
Qed.

End Content.

Lemma textLines_keeps_text_witness :
  ∃ ls, textLines wide_glyphs 16 (js "hello world foo") 30 (js "serif") 3
          = Some (Returns ls)
        ∧ glyphs (concat ls) `prefix_of` glyphs (js "hello world foo").
Proof.
  apply (textLines_keeps_text wide_glyphs 30 (js "serif") 3 16
           (js "hello world foo")); [simpl; lia|lia|].
  intros c _. unfold fits, wide_glyphs, jslen. simpl. reflexivity.
Defined.

(** ** Vote tallies: the voters shown *)

Lemma card_voters_fold (a b : Model) (task : TaskInfo) (vs : list VoteInfo) :
  ∀ t, taskVoters (foldl (card_vote a b task) t vs)
       = taskVoters t
         ++ List.filter (λ v, votedFor_named v (name (model task))) vs.
Proof.
  induction vs as [|v vs IH]; intros t.
  - simpl. by rewrite app_nil_r.
  - simpl foldl. rewrite IH. unfold card_vote. cbn [taskVoters List.filter].
    destruct (votedFor_named v (name (model task))); [|done].
    by rewrite <- app_assoc.
Qed.

Lemma history_voters_fold (a b : Model) (vs : list VoteInfo) :
  ∀ t, votersA (foldl (history_vote a b) t vs)
       = votersA t
         ++ map voter (List.filter (λ v, votedFor_named v (name a)) vs)
       ∧ votersB (foldl (history_vote a b) t vs)
         = votersB t
           ++ map voter
                (List.filter
                   (λ v, negb (votedFor_named v (name a))
                         && votedFor_named v (name b)) vs).
Proof.
  induction vs as [|v vs IH]; intros t.
  - simpl. by rewrite !app_nil_r.
  - simpl foldl. destruct (IH (history_vote a b t v)) as [-> ->].
    unfold history_vote. cbn [List.filter].
    destruct (votedFor_named v (name a)), (votedFor_named v (name b));
      cbn [votersA votersB negb andb map]; by rewrite <- ?app_assoc.
Qed.

(** X9: the avatars on a card of the broadcast are the voters of the votes
    that name the card's model, in the order of the votes; for a round
    whose answer tasks bear the names of its contestants there are as many
    avatars as the count shown beside them. *)
Theorem voter_avatars (task : TaskInfo) (round : RoundState) :
  let a := (contestants round).1 in
  let b := (contestants round).2 in
  let taskA := (answerTasks round).1 in
  let taskB := (answerTasks round).2 in
  (∀ count voters,
     JudgeVotes count voters ∈ drawContestantCard task round →
     voters = List.filter (λ v, votedFor_named v (name (model task)))
                (votes round))
  ∧ (name (model taskA) = name a → name (model taskB) = name b →
     task = taskA ∨ task = taskB →
     ∀ count voters,
       JudgeVotes count voters ∈ drawContestantCard task round →
       count = Z.of_nat (length voters)).
Proof.
  intros a b taskA taskB.
  assert (taskVoters (card_votes task round)
          = List.filter (λ v, votedFor_named v (name (model task)))
              (votes round)) as Hvoters.
  { unfold card_votes. destruct (contestants round) as [a' b'].
    by rewrite card_voters_fold. }
  assert (∀ count voters,
            JudgeVotes count voters ∈ drawContestantCard task round →
            count = voteCount task round
            ∧ voters = taskVoters (card_votes task round)) as Hpart.
  { intros count voters. unfold drawContestantCard.
    destruct (isWinner task round), (_ || _); simpl;
      rewrite ?elem_of_cons, ?elem_of_nil; intuition congruence. }
  split.
  - intros count voters Hin. destruct (Hpart _ _ Hin) as [_ ->]. done.
  - intros HnA HnB Htask count voters Hin.
    destruct (Hpart _ _ Hin) as [-> ->]. rewrite Hvoters.
    unfold voteCount, isFirst. fold taskA.
    destruct (card_votes_named task round) as [-> ->]. fold a b.
    unfold named. rewrite <- HnA, <- HnB.
    destruct Htask as [->| ->].
    + by rewrite bool_decide_eq_true_2.
    + case_bool_decide as E; [by rewrite E|done].
Qed.

Lemma voter_avatars_witness :
  ∃ count voters,
    JudgeVotes count voters
      ∈ drawContestantCard (mk_task (mk_model "A"))
          (mk_round voting None "A" "B" scenario_votes)
    ∧ count = Z.of_nat (length voters).
Proof.
  pose (task := mk_task (mk_model "A")).
  pose (round := mk_round voting None "A" "B" scenario_votes).
  assert (JudgeVotes (voteCount task round)
            (taskVoters (card_votes task round))
            ∈ drawContestantCard task round) as Hin.
  { apply list_elem_of_In. vm_compute.
    repeat (first [left; reflexivity | right]). }
  exists (voteCount task round), (taskVoters (card_votes task round)).
  split; [exact Hin|].
  apply (proj2 (voter_avatars task round) eq_refl eq_refl
           (or_introl eq_refl) _ _ Hin).
Defined.

Lemma voter_logos_length (voters : list Model) :
  (length (voter_logos voters) ≤ length voters)%nat
  ∧ (length (voter_logos voters) = length voters
     ↔ Forall (λ v, is_Some (getLogo (name v))) voters).
Proof.
  unfold voter_logos. induction voters as [|v voters [IHle IHeq]].
  - simpl. split; [done|]. split; [constructor|done].
  - cbn [omap list_omap]. destruct (getLogo (name v)) as [logo|] eqn:E;
      cbn [fmap option_fmap option_map length].
    + split; [lia|]. rewrite Forall_cons, <- IHeq, E.
      split; [intros [= ?]; split; [by eexists|done]|intros [_ ?]; lia].
    + split; [lia|]. rewrite Forall_cons, E.
      split; [lia|]. intros [[? [=]] _].
Qed.

(** X10: in the history view the count under a contestant is the number
    of votes counted for it, for every round, and the logos beside it are
    those of the voters of these votes whose name has a logo, in the
    order of the votes, titled with the voter's name.  A voter without a
    logo is not shown: there are never more logos than the count says,
    and as many exactly when every such voter has a logo.  No vote is
    counted for both contestants. *)
Theorem history_voters (round : RoundState) :
  let a := (contestants round).1 in
  let b := (contestants round).2 in
  let forA := List.filter (λ v, votedFor_named v (name a)) (votes round) in
  let forB :=
    List.filter (λ v, negb (votedFor_named v (name a))
                      && votedFor_named v (name b)) (votes round) in
  let shown (counted : list VoteInfo) (count : Z) (logos : list voter_logo) :=
    count = Z.of_nat (length counted)
    ∧ logos = voter_logos (voter <$> counted)
    ∧ (length logos ≤ length counted)%nat
    ∧ (length logos = length counted
       ↔ Forall (λ v, is_Some (getLogo (name (voter v)))) counted) in
  (∀ count logos,
     HistoryVotes count logos ∈ (HistoryCard round).1 →
     shown forA count logos)
  ∧ (∀ count logos,
       HistoryVotes count logos ∈ (HistoryCard round).2 →
       shown forB count logos)
  ∧ (length forA + length forB ≤ length (votes round))%nat.
Proof.
  intros a b forA forB shown.
  assert (votersA (history_votes round) = voter <$> forA
          ∧ votersB (history_votes round) = voter <$> forB) as [HvA HvB].
  { unfold history_votes, forA, forB, a, b.
    destruct (contestants round) as [a' b'].
    destruct (history_voters_fold a' b' (votes round)
                {| h_votesA := 0; h_votesB := 0; votersA := [];
                   votersB := [] |}) as [-> ->]. done. }
  destruct (history_votes_named round) as [HcA HcB]. fold a b in HcA, HcB.
  assert (∀ counted, shown counted (Z.of_nat (length counted))
                       (voter_logos (voter <$> counted))) as Hshown.
  { intros counted. unfold shown.
    destruct (voter_logos_length (voter <$> counted)) as [Hle Heq].
    rewrite length_fmap in Hle, Heq. rewrite Forall_fmap in Heq.
    done. }
  split; [|split].
  - intros count logos. unfold HistoryCard.
    destruct (contestants round) as [contA contB].
    destruct (isAWinner round); simpl;
      rewrite ?elem_of_cons, ?elem_of_nil;
      intros Hin; assert (count = h_votesA (history_votes round)
                          ∧ logos = voter_logos
                                      (votersA (history_votes round)))
        as [-> ->] by (intuition congruence);
      rewrite HvA, HcA; apply Hshown.
  - intros count logos. unfold HistoryCard.
    destruct (contestants round) as [contA contB].
    destruct (isBWinner round); simpl;
      rewrite ?elem_of_cons, ?elem_of_nil;
      intros Hin; assert (count = h_votesB (history_votes round)
                          ∧ logos = voter_logos
                                      (votersB (history_votes round)))
        as [-> ->] by (intuition congruence);
      rewrite HvB, HcB; apply Hshown.
  - pose proof (named_second_le a b (votes round)) as Hle.
    unfold named, named_second in Hle. fold forA forB in Hle. lia.
Qed.

(** A voter whose name has no logo is counted and not shown. *)
Lemma history_voters_witness :
  ∃ count logos,
    HistoryVotes count logos
      ∈ (HistoryCard
           (mk_round done_phase None "A" "B"
              [mk_vote "Kimi K2" (Some "A") None;
               mk_vote "X" (Some "A") None])).1
    ∧ count = 2
    ∧ logos = [{| logo_src := js "/assets/logos/kimi.svg";
                  logo_title := js "Kimi K2" |}].
Proof.
  pose (round := mk_round done_phase None "A" "B"
                   [mk_vote "Kimi K2" (Some "A") None;
                    mk_vote "X" (Some "A") None]).
  assert (HistoryVotes (h_votesA (history_votes round))
            (voter_logos (votersA (history_votes round)))
            ∈ (HistoryCard round).1) as Hin.
  { apply list_elem_of_In. vm_compute.
    repeat (first [left; reflexivity | right]). }
  exists (h_votesA (history_votes round)),
         (voter_logos (votersA (history_votes round))).
  split; [exact Hin|].
  destruct (proj1 (history_voters round) _ _ Hin) as (Hcount & Hlogos & _).
  split; [rewrite Hcount; reflexivity|].
  rewrite Hlogos. vm_compute. reflexivity.
Defined.

(** ** Scoreboard *)

Lemma insert_entry_perm (e : jsstring * Z) (l : scoreboard) :
  insert_entry e l ≡ₚ e :: l.
Proof.
  induction l as [|x l IH]; [done|]. simpl.
  destruct (e.2 <? x.2); [|done]. rewrite IH. apply Permutation_swap.
Qed.

Lemma sort_entries_perm (l : scoreboard) : sort_entries l ≡ₚ l.
Proof.
  induction l as [|e l IH]; [done|]. simpl.
  by rewrite insert_entry_perm, IH.
Qed.

Lemma insert_entry_sorted (e : jsstring * Z) (l : scoreboard) :
  StronglySorted (λ x y, y.2 ≤ x.2) l →
  StronglySorted (λ x y, y.2 ≤ x.2) (insert_entry e l).
Proof.
  induction 1 as [|x l Hl IH Hx]; simpl.
  - repeat constructor.
  - destruct (Z.ltb_spec e.2 x.2) as [Hlt|Hge].
    + constructor; [done|]. rewrite insert_entry_perm.
      constructor; [lia|done].
    + constructor; [by constructor|]. constructor; [done|].
      eapply Forall_impl; [exact Hx|]. simpl. intros y ?. lia.
Qed.

Lemma sort_entries_sorted (l : scoreboard) :
  StronglySorted (λ x y, y.2 ≤ x.2) (sort_entries l).
Proof.
  induction l as [|e l IH]; [constructor|].
  by apply insert_entry_sorted.
Qed.

Lemma insert_entry_stable (s : Z) (e : jsstring * Z) (l : scoreboard) :
  filter (λ x, x.2 = s) (insert_entry e l) = filter (λ x, x.2 = s) (e :: l).
Proof.
  induction l as [|x l IH]; [done|]. simpl insert_entry.
  destruct (Z.ltb_spec e.2 x.2) as [Hlt|Hge]; [|done].
  rewrite filter_cons, IH, !filter_cons.
  repeat case_decide; try done; lia.
Qed.

(** The sort is stable: the entries of one score keep their order. *)
Lemma sort_entries_stable (s : Z) (l : scoreboard) :
  filter (λ x, x.2 = s) (sort_entries l) = filter (λ x, x.2 = s) l.
Proof.
  induction l as [|e l IH]; [done|]. simpl sort_entries.
  by rewrite insert_entry_stable, !filter_cons, IH.
Qed.

Lemma section_rows (entries : scoreboard) (startY : Z) (i : nat)
    (row : score_row) :
  drawScoreboardSection entries startY 52 !! i = Some row →
  ∃ n, entries !! i = Some (n, scoreText row)
       ∧ row = score_entry (maxScore entries) startY 52 i (n, scoreText row).
Proof.
  unfold drawScoreboardSection. rewrite list_lookup_imap.
  destruct (entries !! i) as [[n s]|]; [|done].
  simpl. intros [= <-]. by exists n.
Qed.

Lemma section_scores (entries : scoreboard) (startY : Z) :
  map scoreText (drawScoreboardSection entries startY 52) = entries.*2.
Proof.
  unfold drawScoreboardSection. generalize (maxScore entries).
  intros m. revert startY.
  assert (∀ (f : nat → nat) startY,
            map scoreText
              (imap (λ i, score_entry m startY 52 (f i)) entries)
            = entries.*2) as H.
  { induction entries as [|[n s] l IH]; intros f startY; [done|].
    simpl. f_equal. apply (IH (f ∘ S)). }
  intros startY. apply (H id).
Qed.

Lemma section_ranked (entries : scoreboard) (startY : Z) :
  ranked entries startY
    (drawScoreboardSection (sort_entries entries) startY 52).
Proof.
  unfold ranked. rewrite section_scores. split; [|split].
  - by rewrite sort_entries_perm.
  - pose proof (sort_entries_sorted entries) as Hs.
    induction Hs as [|x l Hl IH Hx]; [constructor|].
    simpl. constructor; [done|]. by apply Forall_fmap.
  - intros i row Hrow.
    destruct (section_rows _ _ _ _ Hrow) as (n & _ & ->).
    simpl. split; [lia|].
    destruct (decide (i = 0%nat)) as [->|Hi]; simpl.
    + destruct (Z.ltb_spec 0 (scoreText row)); [done|].
      split; [done|]. intros [_ ?]. lia.
    + rewrite bool_decide_eq_false_2 by done. simpl.
      split; [done|]. by intros [].
Qed.

(** X11: the scoreboard ranks the models and the viewers.  In either
    section every entry of the scores has a row, the scores go down the
    rows, and the crown is on the first row alone and only for a positive
    score; the rows of the models are 52 apart from y = 130 on, and those
    of the viewers begin below them. *)
Theorem scoreboard_ranking (scores viewerScores : scoreboard) :
  ranked scores 110 (drawScoreboard scores viewerScores).1
  ∧ ranked viewerScores (154 + 52 * Z.of_nat (length scores))
      (drawScoreboard scores viewerScores).2.
Proof.
  unfold drawScoreboard. cbv zeta. cbn [fst snd]. split.
  - apply section_ranked.
  - rewrite (Permutation_length (sort_entries_perm scores)).
    replace (110 + 28 + Z.of_nat (length scores) * 52 + 16)
      with (154 + 52 * Z.of_nat (length scores)) by lia.
    apply section_ranked.
Qed.

Lemma pct_positive (score top : Z) :
  0 < top → score ≤ top →
  ((0 < pct score top)%Q ↔ 0 < score)
  ∧ (216 * pct score top <= 216)%Q.
Proof.
  intros Htop Hle. unfold pct.
  destruct (Z.ltb_spec 0 top) as [_|?]; [|lia].
  destruct top as [|p|p]; try lia.
  unfold Qlt, Qle, Qdiv, Qmult, Qinv, inject_Z. simpl.
  split; [split|]; lia.
Qed.

Lemma section_bars (entries : scoreboard) (startY : Z) (row : score_row) :
  row ∈ drawScoreboardSection (sort_entries entries) startY 52 →
  (bar row = None ↔ scoreText row ≤ 0)
  ∧ ∀ w, bar row = Some w → (6 <= w)%Q ∧ (w <= 216)%Q.
Proof.
  intros Hin. apply list_elem_of_lookup in Hin as [i Hrow].
  destruct (section_rows _ _ _ _ Hrow) as (n & Hi & Hrow').
  set (s := scoreText row) in *.
  assert (bar row = if Qlt_le_dec 0 (pct s (maxScore (sort_entries entries)))
                    then Some (Qmax 6 (216 * pct s
                                 (maxScore (sort_entries entries))))
                    else None) as Hbar by (by rewrite Hrow').
  rewrite Hbar. clear Hrow Hrow' Hbar.
  pose proof (sort_entries_sorted entries) as Hs.
  destruct (sort_entries entries) as [|[n0 top] rest] eqn:E; [done|].
  assert (s ≤ top) as Hle.
  { destruct i as [|i]; simpl in Hi; [injection Hi as -> ->; lia|].
    apply StronglySorted_inv in Hs as [_ Hall].
    rewrite Forall_forall in Hall.
    apply (Hall (n, s)). by eapply list_elem_of_lookup_2. }
  unfold maxScore.
  destruct (Z.eqb_spec top 0) as [->|Hne].
  - assert (pct s 1 <= 0)%Q as Hp
      by (unfold pct, Qle, Qdiv, Qmult, Qinv, inject_Z; simpl; lia).
    destruct (Qlt_le_dec 0 (pct s 1)) as [Hlt|_].
    + exfalso. apply (Qlt_not_le _ _ Hlt Hp).
    + split; [done|]. intros w [=].
  - destruct (Z.ltb_spec 0 top) as [Hpos|Hneg].
    + destruct (pct_positive s top Hpos Hle) as [Hiff Hmax].
      destruct (Qlt_le_dec 0 (pct s top)) as [Hlt|Hge].
      * split; [split; [done|]; apply Hiff in Hlt; lia|].
        intros w [= <-]. split; [apply Q.le_max_l|].
        apply Q.max_lub; [done|exact Hmax].
      * split; [|intros w [=]]. split; [|done]. intros _.
        destruct (Z.le_gt_cases s 0) as [|Hs0]; [done|].
        apply Hiff in Hs0. exfalso.
        apply (Qlt_not_le _ _ Hs0 Hge).
    + assert (pct s top = 0%Q) as ->.
      { unfold pct. destruct (Z.ltb_spec 0 top); [lia|done]. }
      destruct (Qlt_le_dec 0 0) as [Hlt|_]; [done|].
      split; [|intros w [=]]. split; [lia|done].
Qed.

(** X12: a score bar never leaves its track.  In either section of the
    scoreboard the coloured bar of a row is drawn exactly when the score
    is positive, and its width is then between 6 and 216, the width of
    the track. *)
Theorem score_bars_within_track (scores viewerScores : scoreboard)
    (row : score_row) :
  row ∈ (drawScoreboard scores viewerScores).1
        ++ (drawScoreboard scores viewerScores).2 →
  (bar row = None ↔ scoreText row ≤ 0)
  ∧ ∀ w, bar row = Some w → (6 <= w)%Q ∧ (w <= 216)%Q.
Proof.
  unfold drawScoreboard. cbv zeta. cbn [fst snd].
  rewrite elem_of_app. intros [Hin|Hin]; by eapply section_bars.
Qed.

Lemma score_bars_within_track_witness :
  ∃ row,
    row ∈ (drawScoreboard [(js "A", 1); (js "B", 3)] []).1
          ++ (drawScoreboard [(js "A", 1); (js "B", 3)] []).2
    ∧ (bar row = None ↔ scoreText row ≤ 0)
    ∧ ∀ w, bar row = Some w → (6 <= w)%Q ∧ (w <= 216)%Q.
Proof.
  pose (scores := [(js "A", 1); (js "B", 3)]).
  pose (row := score_entry 3 110 52 1 (js "A", 1)).
  assert (row ∈ (drawScoreboard scores []).1
                ++ (drawScoreboard scores []).2) as Hin.
  { apply list_elem_of_In. vm_compute.
    repeat (first [left; reflexivity | right]). }
  exists row. split; [exact Hin|].
  apply (score_bars_within_track scores [] row Hin).
Defined.

Lemma drawDone_cons (e : jsstring * Z) (scores : scoreboard) :
  drawDone (e :: scores)
  = match drawDone scores with
    | Some w => if e.2 <? w.2 then Some w else Some e
    | None => Some e
    end.
Proof.
  unfold drawDone. simpl. destruct (sort_entries scores) as [|w l]; [done|].
  simpl. by destruct (e.2 <? w.2).
Qed.

(** X13: the end screen names a model with the highest score, and of
    several the one that comes first in the scores; it is the model on the
    first row of the scoreboard.  Nothing is drawn exactly when there are
    no scores. *)
Theorem drawDone_winner (scores : scoreboard) :
  (drawDone scores = None ↔ scores = [])
  ∧ (∀ winner, drawDone scores = Some winner →
       (∃ before after,
          scores = before ++ winner :: after
          ∧ (∀ e, e ∈ before → e.2 < winner.2)
          ∧ (∀ e, e ∈ after → e.2 ≤ winner.2))
       ∧ ∀ viewerScores,
           scoreText <$> head (drawScoreboard scores viewerScores).1
           = Some winner.2).
Proof.
  split; [|intros winner Hw; split].
  - destruct scores as [|e l]; [done|]. rewrite drawDone_cons.
    split; [|done]. destruct (drawDone l) as [w|]; [|done].
    by destruct (e.2 <? w.2).
  - revert winner Hw.
    induction scores as [|e l IH]; intros winner Hw; [done|].
    rewrite drawDone_cons in Hw.
    destruct (drawDone l) as [w|] eqn:El.
    + destruct (IH w eq_refl) as (before & after & -> & Hb & Ha).
      destruct (Z.ltb_spec e.2 w.2) as [Hlt|Hge]; injection Hw as <-.
      * exists (e :: before), after. split; [done|]. split; [|done].
        intros x [->|?]%elem_of_cons; [done|by apply Hb].
      * exists [], (before ++ w :: after). split; [done|].
        split; [by intros x ?%elem_of_nil|].
        intros x [Hx|[->|Hx]%elem_of_cons]%elem_of_app;
          [apply Hb in Hx|..|apply Ha in Hx]; lia.
    + injection Hw as <-.
      assert (l = []) as ->.
      { destruct l as [|x l]; [done|]. rewrite drawDone_cons in El.
        destruct (drawDone l) as [w|]; [|done].
        by destruct (x.2 <? w.2). }
      exists [], []. split; [done|].
      split; by intros x ?%elem_of_nil.
  - intros viewerScores. unfold drawDone in Hw.
    unfold drawScoreboard. cbv zeta. cbn [fst].
    destruct (sort_entries scores) as [|[n s] l]; [done|].
    injection Hw as <-. done.
Qed.

Lemma drawDone_winner_witness :
  ∃ before after,
    [(js "A", 2); (js "B", 3); (js "C", 3)] = before ++ (js "B", 3) :: after
    ∧ (∀ e, e ∈ before → e.2 < 3)
    ∧ (∀ e, e ∈ after → e.2 ≤ 3).
Proof.
  apply (proj2 (drawDone_winner [(js "A", 2); (js "B", 3); (js "C", 3)])
           (js "B", 3) eq_refl).
Defined.

(** ** Round screen *)

(** X14: the cards of the round screen stay on the canvas whatever the
    prompt.  With fuel for the length of the prompt text, [drawRound]
    returns; it writes at most 3 lines of prompt, 72 apart from y = 262
    on; the cards are drawn exactly when the phase is not "prompting";
    they are 690 wide, side by side 32 apart inside the main area (left
    of x = 1540, where the scoreboard begins), they begin 66 below the
    last line of the prompt, end at y = 1040 and are at least 568 high. *)
Theorem drawRound_cards_on_canvas (measureText : jsstring → jsstring → Q)
    (fuel : nat) (now : Z) (round : RoundState) :
  (length (promptText round) < fuel)%nat →
  ∃ d, drawRound measureText fuel now round = Some (Returns d)
       ∧ (length (promptLines d) ≤ 3)%nat
       ∧ (∀ i line x y, promptLines d !! i = Some (line, x, y) →
            x = 80 ∧ y = 262 + 72 * Z.of_nat i)
       ∧ (cards d = None ↔ phase round = prompting)
       ∧ ∀ A B, cards d = Some (A, B) →
           box_x A = 64 ∧ box_w A = 690 ∧ box_w B = 690
           ∧ box_x B = box_x A + box_w A + 32
           ∧ box_x B + box_w B ≤ 1540
           ∧ box_y A = 328 + 72 * (Z.of_nat (length (promptLines d)) - 1)
           ∧ box_y B = box_y A ∧ box_h B = box_h A
           ∧ box_y A + box_h A = 1040
           ∧ 568 ≤ box_h A.
Proof.
  intros Hf.
  destruct (textLines_total measureText (inject_Z (1920 - 380 - 120))
              promptFont (promptText round) 3 fuel Hf) as (r & Hr & Hlen).
  destruct r as [ls|e]; [|lia]. destruct Hlen as [_ Hlen].
  unfold drawRound, drawTextBlock. cbv zeta. rewrite Hr.
  cbn [mbind option_bind]. eexists. split; [reflexivity|].
  cbn [promptLines cards]. rewrite length_imap.
  split; [lia|]. split; [|split].
  - intros i line x y. rewrite list_lookup_imap.
    destruct (ls !! i); [|done]. simpl. intros [= <- <- <-]. lia.
  - case_bool_decide; simpl; split; done.
  - intros A B. case_bool_decide; simpl; [done|].
    intros [= <- <-]. cbn [box_x box_y box_w box_h].
    change ((1920 - 380 - 160) `div` 2) with 690. lia.
Qed.

Lemma drawRound_cards_on_canvas_witness :
  ∃ d, drawRound wide_glyphs 19 0
         (mk_round voting None "A" "B" scenario_votes) = Some (Returns d)
       ∧ (length (promptLines d) ≤ 3)%nat
       ∧ cards d
         = Some ({| box_x := 64; box_y := 328; box_w := 690; box_h := 712 |},
                 {| box_x := 786; box_y := 328; box_w := 690;
                    box_h := 712 |}).
Proof.
  destruct (drawRound_cards_on_canvas wide_glyphs 19 0
              (mk_round voting None "A" "B" scenario_votes))
    as (d & Hd & Hlen & _); [simpl; lia|].
  exists d. split; [exact Hd|]. split; [exact Hlen|].
  vm_compute in Hd. injection Hd as <-. reflexivity.
Defined.

(** X15: the countdown of the round screen is written exactly during the
    phase "voting" while the end of the viewers' vote, when one is set,
    lies ahead; it then shows the seconds left, rounded up, so never 0
    and never a negative number. *)
Theorem countdown_shown (measureText : jsstring → jsstring → Q)
    (fuel : nat) (now : Z) (round : RoundState) (d : round_drawing)
    (seconds : Z) :
  drawRound measureText fuel now round = Some (Returns d) →
  countdownText d = Some seconds
  ↔ phase round = voting
    ∧ ∃ endsAt, viewerVotingEndsAt round = Some endsAt ∧ endsAt ≠ 0
                ∧ now < endsAt
                ∧ 1000 * (seconds - 1) < endsAt - now ≤ 1000 * seconds.
Proof.
  unfold drawRound, drawTextBlock. cbv zeta.
  destruct (textLines _ _ _ _ _ _) as [[ls|e]|]; [|done..].
  cbn [mbind option_bind]. intros [= <-]. cbn [countdownText].
  unfold countdownSeconds.
  destruct (viewerVotingEndsAt round) as [endsAt|].
  - case_bool_decide as Hp; simpl.
    + destruct (Z.eqb_spec endsAt 0) as [->|Hne]; simpl.
      * split; [done|]. by intros (_ & ? & [= <-] & ? & _).
      * destruct (Z.ltb_spec 0 (Z.max 0 (- ((now - endsAt) `div` 1000))))
          as [Hpos|Hle].
        -- split.
           ++ intros [= <-]. split; [done|]. exists endsAt.
              split; [done|]. split; [done|].
              Z.div_mod_to_equations. lia.
           ++ intros (_ & e' & [= <-] & _ & Hlt & Hs). f_equal.
              Z.div_mod_to_equations. lia.
        -- split; [done|]. intros (_ & e' & [= <-] & _ & Hlt & Hs).
           exfalso. Z.div_mod_to_equations. lia.
    + split; [done|]. by intros [? _].
  - split; [done|]. by intros (_ & ? & [=] & _).
Qed.

Lemma countdown_shown_witness :
  ∃ d,
    drawRound wide_glyphs 19 2500
      {| num := 1; phase := voting; prompter := mk_model "P";
         promptTask := mk_task (mk_model "P"); prompt := None;
         contestants := (mk_model "A", mk_model "B");
         answerTasks := (mk_task (mk_model "A"), mk_task (mk_model "B"));
         votes := []; scoreA := None; scoreB := None;
         viewerVotesA := None; viewerVotesB := None;
         viewerVotingEndsAt := Some 30000 |} = Some (Returns d)
    ∧ countdownText d = Some 28.
Proof.
  set (round := {| num := 1; phase := voting; prompter := mk_model "P";
                   promptTask := mk_task (mk_model "P"); prompt := None;
                   contestants := (mk_model "A", mk_model "B");
                   answerTasks := (mk_task (mk_model "A"),
                                   mk_task (mk_model "B"));
                   votes := []; scoreA := None; scoreB := None;
                   viewerVotesA := None; viewerVotesB := None;
                   viewerVotingEndsAt := Some 30000 |}).
  destruct (drawRound wide_glyphs 19 2500 round) as [[d|e]|] eqn:Hd;
    [|vm_compute in Hd; discriminate Hd..].
  exists d. split; [reflexivity|].
  apply (countdown_shown wide_glyphs 19 2500 round d 28 Hd).
  split; [reflexivity|]. exists 30000.
  split; [reflexivity|]. lia.
Defined.

(** ** Logos *)

Lemma getLogoUrl_known (n url : jsstring) :
  getLogoUrl n = Some url → url ∈ logo_urls.
Proof.
  unfold getLogoUrl, logo_urls.
  repeat (destruct (includes n _); [intros [= <-]; set_solver|]).
  destruct (_ || _); [intros [= <-]; set_solver|].
  repeat (destruct (includes n _); [intros [= <-]; set_solver|]).
  done.
Qed.

Lemma drawModelLogo_ok (loaded : nat → bool) (n : jsstring)
    (st : logo_store) :
  logo_store_ok st → logo_store_ok (drawModelLogo loaded n st).2.
Proof.
  intros (Hdom & Hsize & Hlt). unfold drawModelLogo.
  destruct (getLogoUrl n) as [url|] eqn:Eu; [|done].
  destruct (logoCache st !! url) as [img|] eqn:Ec; [done|].
  cbn [snd]. split; [|split]; cbn [logoCache images].
  - rewrite dom_insert. apply getLogoUrl_known in Eu.
    apply union_least; [|done]. apply singleton_subseteq_l.
    by apply elem_of_list_to_set.
  - rewrite map_size_insert_None by done. by rewrite Hsize.
  - intros url' img'. rewrite lookup_insert_Some.
    intros [[_ <-]|[_ H]]; [lia|]. apply Hlt in H. lia.
Qed.

(** X16: the render loop makes at most one image per logo file.  After
    any sequence of calls of [drawModelLogo] from the empty cache, with
    the images loading at any pace, the number of images made is the
    number of cached URLs, every one of them the URL of a logo file, so
    at most 8; a later call for a cached logo makes none. *)
Theorem logo_images_bounded (calls : list ((nat → bool) * jsstring)) :
  let st := draw_logos calls {| logoCache := ∅; images := 0 |} in
  logo_store_ok st
  ∧ (images st ≤ 8)%nat
  ∧ ∀ loaded n url,
      getLogoUrl n = Some url → is_Some (logoCache st !! url) →
      (drawModelLogo loaded n st).2 = st.
Proof.
  assert (∀ st, logo_store_ok st → logo_store_ok (draw_logos calls st))
    as Hinv.
  { unfold draw_logos. induction calls as [|call calls IH]; intros st Hst;
      [done|].
    simpl. apply IH. by apply drawModelLogo_ok. }
  intros st.
  assert (logo_store_ok st) as Hok.
  { apply Hinv. split; [|split]; cbn [logoCache images].
    - rewrite dom_empty. apply empty_subseteq.
    - apply map_size_empty.
    - intros url img. by rewrite lookup_empty. }
  split; [done|]. split.
  - destruct Hok as (Hdom & Hsize & _). rewrite <- Hsize, <- size_dom.
    etrans; [apply subseteq_size, Hdom|]. vm_compute. lia.
  - intros loaded n url Hu [img Himg]. unfold drawModelLogo.
    by rewrite Hu, Himg.
Qed.

(** ** Stream orchestrator: pump, relay and shutdown *)

Lemma pump_spec (write_fails : list N → option string)
    (reads : list read_result) :
  stream_ends reads →
  ∃ ops out,
    pump write_fails reads = Some (ops, out)
    ∧ SinkWrite <$> values_read reads = ops ++
        match out with
        | Returns _ => []
        | Throws _ =>
            SinkWrite <$> drop (length ops) (values_read reads)
        end
    ∧ (out = Returns () →
       Forall (λ v, write_fails v = None) (values_read reads)).
Proof.
  induction reads as [|r reads IH]; intros (r0 & Hin & Hr0).
  - by apply elem_of_nil in Hin.
  - destruct r as [[value|]| |detail].
    + assert (stream_ends reads) as Hends.
      { apply elem_of_cons in Hin as [->|Hin]; [|by exists r0].
        destruct Hr0 as [?|[? ?]]; done. }
      destruct (IH Hends) as (ops & out & Hp & Hops & Hok).
      simpl. destruct (write_fails value) as [detail|] eqn:Ew.
      * exists [SinkWrite value], (Throws detail).
        split; [done|]. split; [done|]. done.
      * rewrite Hp. simpl. exists (SinkWrite value :: ops), out.
        split; [done|]. split.
        -- rewrite Hops at 1. by destruct out.
        -- intros Hout. constructor; [done|by apply Hok].
    + assert (stream_ends reads) as Hends.
      { apply elem_of_cons in Hin as [->|Hin]; [|by exists r0].
        destruct Hr0 as [?|[? ?]]; done. }
      destruct (IH Hends) as (ops & out & Hp & Hops & Hok).
      simpl. by exists ops, out.
    + exists [], (Returns ()). simpl. split; [done|]. split; done.
    + exists [], (Throws detail). simpl. split; [done|].
      split; done.
Qed.

(** X17: the pump ends the sink exactly once, after everything else.
    When the stream ends or fails at some time, [pipeReadableToSink]
    comes to an end; the calls on the sink are writes of values of the
    stream, in the order they were read, followed by [sink.end()], also
    when a read or a write failed; and when the function returns, every
    value read before the end has been written. *)
Theorem pipeReadableToSink_ends_sink (write_fails : list N → option string)
    (reads : list read_result) :
  stream_ends reads →
  ∃ chunks out,
    pipeReadableToSink write_fails reads
      = Some ((SinkWrite <$> chunks) ++ [SinkEnd], out)
    ∧ chunks `prefix_of` values_read reads
    ∧ (out = Returns () → chunks = values_read reads).
Proof.
  intros Hends.
  destruct (pump_spec write_fails reads Hends)
    as (ops & out & Hp & Hops & _).
  unfold pipeReadableToSink. rewrite Hp. simpl.
  exists (take (length ops) (values_read reads)), out.
  assert (ops = SinkWrite <$> take (length ops) (values_read reads))
    as Hops'.
  { rewrite fmap_take, Hops, take_app_length. done. }
  split; [by rewrite <- Hops'|]. split.
  - apply prefix_take.
  - intros ->. rewrite app_nil_r in Hops.
    rewrite <- Hops, length_fmap. apply firstn_all.
Qed.

Lemma pipeReadableToSink_ends_sink_witness :
  ∃ chunks out,
    pipeReadableToSink (λ _, None)
      [ReadValue (Some [1%N]); ReadValue None; ReadValue (Some [2%N]);
       ReadDone]
      = Some ((SinkWrite <$> chunks) ++ [SinkEnd], out)
    ∧ chunks `prefix_of` [[1%N]; [2%N]]
    ∧ (out = Returns () → chunks = [[1%N]; [2%N]]).
Proof.
  apply (pipeReadableToSink_ends_sink (λ _, None)
           [ReadValue (Some [1%N]); ReadValue None; ReadValue (Some [2%N]);
            ReadDone]).
  exists ReadDone. split; [|by left].
  apply list_elem_of_In. simpl. tauto.
Defined.

Lemma relay_step_spec (r : relay) (e : relay_event) :
  (firstChunkResolve r = true ∨ firstChunk r ≠ Pending) →
  (firstChunkReject r = true ∨ firstChunk r ≠ Pending) →
  let r' := relay_step true r e in
  (firstChunkResolve r' = true ∨ firstChunk r' ≠ Pending)
  ∧ (firstChunkReject r' = true ∨ firstChunk r' ≠ Pending)
  ∧ written r' = written r ++ option_list (relayed e)
  ∧ firstChunk r' = settle (default Pending (decides e)) (firstChunk r).
Proof.
  intros Hres Hrej.
  assert (∀ to, (if firstChunkResolve r then settle to (firstChunk r)
                 else firstChunk r) = settle to (firstChunk r)) as Hs1.
  { intros to. destruct Hres as [->|Hn]; [done|].
    destruct (firstChunkResolve r); [done|]. by destruct (firstChunk r). }
  assert (∀ to, (if firstChunkReject r then settle to (firstChunk r)
                 else firstChunk r) = settle to (firstChunk r)) as Hs2.
  { intros to. destruct Hrej as [->|Hn]; [done|].
    destruct (firstChunkReject r); [done|]. by destruct (firstChunk r). }
  assert (settle Pending (firstChunk r) = firstChunk r) as Hs0
    by (by destruct (firstChunk r)).
  assert (∀ to, to ≠ Pending → settle to (firstChunk r) ≠ Pending)
    as Hset by (intros to ?; by destruct (firstChunk r)).
  destruct e as [[text|bytes|bytes|] [detail|]|];
    cbn [relay_step message firstChunkTimer negb relayed decides default
         option_list firstChunkResolve firstChunkReject firstChunk written];
    rewrite ?Hs1, ?Hs2, ?Hs0, ?app_nil_r;
    repeat split; try done; right; by apply Hset.
Qed.

Lemma settle_settle (e : relay_event) (es : list relay_event)
    (s : promise_state) :
  settle (default Pending (head (omap decides es)))
    (settle (default Pending (decides e)) s)
  = settle (default Pending (head (omap decides (e :: es)))) s.
Proof.
  assert (omap decides (e :: es)
          = option_list (decides e) ++ omap decides es) as ->
    by (simpl; by destruct (decides e)).
  destruct (decides e) as [d|] eqn:Ed; simpl.
  - assert (d ≠ Pending) as Hd.
    { destruct e as [[] []|]; simpl in Ed; congruence. }
    destruct s, d; done.
  - by destruct s.
Qed.

Lemma relay_flags (r : relay) (es : list relay_event) :
  (firstChunkResolve r = true ∨ firstChunk r ≠ Pending) →
  (firstChunkReject r = true ∨ firstChunk r ≠ Pending) →
  written (foldl (relay_step true) r es) = written r ++ omap relayed es
  ∧ firstChunk (foldl (relay_step true) r es)
    = settle (default Pending (head (omap decides es))) (firstChunk r).
Proof.
  revert r. induction es as [|e es IH]; intros r Hres Hrej.
  - simpl. split; [by rewrite app_nil_r|]. by destruct (firstChunk r).
  - simpl foldl.
    destruct (relay_step_spec r e Hres Hrej) as (Hres' & Hrej' & Hw & Hf).
    destruct (IH _ Hres' Hrej') as [-> ->]. rewrite Hw, Hf.
    split; [|apply settle_settle].
    rewrite <- app_assoc. f_equal. simpl. by destruct (relayed e).
Qed.

(** X18: the relay passes on the binary chunks and nothing else.  With
    [ffmpeg.stdin] in place, after any sequence of messages and timer
    callbacks [ffmpeg.stdin] has taken exactly the bytes of the binary
    messages whose write did not throw, in the order of arrival; text
    messages are dropped.  The promise [firstChunk] is decided by the
    first binary message or timer callback alone: fulfilled by a write
    that returns, rejected by one that throws or by the timer; whatever
    comes later, also a failing write, leaves it as it is. *)
Theorem relay_in_order (es : list relay_event) :
  let r := foldl (relay_step true) relay_start es in
  written r = omap relayed es
  ∧ firstChunk r = default Pending (head (omap decides es))
  ∧ ∀ later,
      firstChunk r ≠ Pending →
      firstChunk (foldl (relay_step true) r later) = firstChunk r.
Proof.
  intros r.
  destruct (relay_flags relay_start es) as [Hw Hf]; [by left..|].
  split; [exact Hw|]. split; [exact Hf|].
  intros later Hne. subst r. rewrite <- foldl_app.
  destruct (relay_flags relay_start (es ++ later)) as [_ ->]; [by left..|].
  rewrite Hf in *. rewrite omap_app.
  destruct (omap decides es) as [|d ds]; [done|]. done.
Qed.

(** Without [ffmpeg.stdin] the handler does nothing. *)
Lemma message_without_stdin (msg : ws_message) (write_fails : option string)
    (r : relay) :
  message false msg write_fails r = r.
Proof. done. Qed.

Lemma try_returns (m : traced unit) : (try_ m).2 = Returns ().
Proof. done. Qed.

(** X19: [shutdown] goes through all its steps whatever fails.  Whichever
    of the calls throw, the first call of [shutdown] returns and has
    stopped the chunk server, closed the browser, ended the input of
    [ffmpeg] and killed it, and done the same for [ffplay] when it was
    spawned, in this order: the calls of the run in which nothing fails.
    It leaves [shuttingDown] set, and a call that finds it set does
    nothing. *)
Theorem shutdown_guarded_complete (fails : action → bool) (env : run_env) :
  let first_call :=
    shutdown_guarded fails
      (match mode env with dryrun => true | live => false end) true false in
  first_call.1 = shutdown env
  ∧ first_call.2 = true
  ∧ ∀ fails' ffplay ffplay_stdin,
      shutdown_guarded fails' ffplay ffplay_stdin first_call.2
      = (([], Returns ()), true).
Proof.
  intros first_call. subst first_call. split; [|split; [done|done]].
  unfold shutdown_guarded, shutdown, try_, attempt.
  destruct (mode env);
    destruct (fails StopChunkServer), (fails CloseBrowser),
      (fails EndFfmpegStdin), (fails KillFfmpeg),
      (fails EndFfplayStdin), (fails KillFfplay); reflexivity.
Qed.

(** ** Stream orchestrator: how a run ends *)

(** X20: the exit status of the orchestrator.  A run that does not reach
    the broadcast page calls nothing but [fetch] before it reports the
    error and exits with code 1: no process is spawned, no browser
    launched.  A run that fails later in the start-up (no pipe to
    [ffplay], no chunk in time, a failing first write) exits with code 1
    as its last call.  A run that gets its first chunk ends with the
    steps of [shutdown] and then mirrors the exit code of [ffmpeg]: it
    calls [process.exit(exitCode)] last when the code is not 0 and does
    not call [process.exit] at all when it is 0. *)
Theorem orchestrator_exit_code (env : run_env) :
  (∀ detail, unreachable env = Some detail →
     ∃ message,
       orchestrator env = [Fetch; ConsoleError message; ProcessExit 1])
  ∧ (starts_up env → first env = ChunkArrives →
     ∃ started,
       orchestrator env
       = started ++ (shutdown env).1
         ++ (if bool_decide (exitCode env ≠ 0)
             then [ProcessExit (exitCode env)] else [])
       ∧ exits started = []
       ∧ (SpawnFfplay ∈ started ↔ KillFfplay ∈ (shutdown env).1))
  ∧ (first env ≠ ChunkArrives ∨ ffplay_pipe env = false ∧ mode env = dryrun
     ∨ is_Some (unreachable env) →
     ∃ before message,
       orchestrator env = before ++ [ConsoleError message; ProcessExit 1]
       ∧ exits before = []).
Proof.
  split; [|split].
  - intros detail Hu. unfold orchestrator, main, assertBroadcastReachable.
    rewrite Hu. by eexists.
  - intros [Hu Hp] Hf. unfold orchestrator, main, await_firstChunk,
      assertBroadcastReachable, shutdown.
    rewrite Hu, Hf. destruct (mode env) eqn:Em.
    + exists [Fetch; SpawnFfmpeg; ServeChunks; LaunchBrowser;
              OpenCapturePage; SetTimeout 10000; WriteFfmpegStdin;
              ClearTimeout; ConsoleLog; OnSignals].
      simpl. split; [by destruct (bool_decide _)|]. split; [done|].
      split; intros Hin; apply list_elem_of_In in Hin; simpl in Hin;
        exfalso; intuition congruence.
    + rewrite Hp by done.
      exists [Fetch; SpawnFfmpeg; SpawnFfplay; PumpToFfplay; ServeChunks;
              LaunchBrowser; OpenCapturePage; SetTimeout 10000;
              WriteFfmpegStdin; ClearTimeout; ConsoleLog; OnSignals].
      simpl. split; [by destruct (bool_decide _)|]. split; [done|].
      split; intros _; apply list_elem_of_In; simpl; tauto.
  - intros Hfail. unfold orchestrator, main, await_firstChunk,
      assertBroadcastReachable, shutdown.
    destruct (unreachable env) as [detail|] eqn:Eu.
    { exists [Fetch]. by eexists. }
    destruct (mode env) eqn:Em, (ffplay_pipe env) eqn:Ep,
      (first env) as [|detail|] eqn:Ef; simpl;
      try (destruct Hfail as [?|[[? ?]|[? ?]]]; done);
      try (eexists [_], _; split; [reflexivity|reflexivity]);
      try (eexists [_; _], _; split; [reflexivity|reflexivity]);
      try (eexists [_; _; _], _; split; [reflexivity|reflexivity]);
      try (eexists [_; _; _; _; _; _; _], _;
           split; [reflexivity|reflexivity]);
      try (eexists [_; _; _; _; _; _; _; _; _], _;
           split; [reflexivity|reflexivity]).
Qed.

Lemma orchestrator_exit_code_witness :
  let env := {| mode := dryrun; unreachable := None; ffplay_pipe := true;
                first := ChunkArrives; exitCode := 3 |} in
  ∃ started,
    orchestrator env
    = started ++ (shutdown env).1
      ++ (if bool_decide (exitCode env ≠ 0)
          then [ProcessExit (exitCode env)] else [])
    ∧ exits started = []
    ∧ (SpawnFfplay ∈ started ↔ KillFfplay ∈ (shutdown env).1).
Proof.
  intros env.
  apply (proj1 (proj2 (orchestrator_exit_code env)));
    [split; [reflexivity|intros _; reflexivity]|reflexivity].
Defined.

(** ** Archive of rounds *)

Lemma pages_concat {A : Type} (k : nat) (l : list A) :
  ∀ n first, (0 < k)%nat → (length l ≤ (first + n) * k)%nat →
    concat ((λ p, take k (drop (p * k) l)) <$> seq first n)
    = drop (first * k) l.
Proof.
  intros n. induction n as [|n IH]; intros first Hk Hlen.
  - simpl. rewrite drop_ge; [done|lia].
  - cbn [seq fmap list_fmap concat]. rewrite IH by lia.
    assert (drop (S first * k) l = drop k (drop (first * k) l)) as ->
      by (rewrite drop_drop; f_equal; lia).
    apply take_drop.
Qed.

Section ArchiveFacts.

Context {json : Type}.
Variable JSON_stringify : RoundState → json.
Variable JSON_parse : json → option RoundState.

(** Parsing the text of a round gives the round back. *)
Hypothesis round_trip : ∀ round, JSON_parse (JSON_stringify round) = Some round.

Lemma saved_snoc (rs : list RoundState) (round : RoundState) :
  saved JSON_stringify (rs ++ [round])
  = saveRound JSON_stringify round (saved JSON_stringify rs).
Proof. unfold saved. by rewrite foldl_app. Qed.

Lemma saved_table (rs : list RoundState) :
  Forall2 (λ row round, JSON_parse (row_data row) = Some round)
    (rounds_table (saved JSON_stringify rs)) rs
  ∧ last_id (saved JSON_stringify rs) = Z.of_nat (length rs)
  ∧ row_id <$> rounds_table (saved JSON_stringify rs)
    = Z.of_nat <$> seq 1 (length rs).
Proof.
  induction rs as [|round rs IH] using rev_ind.
  - split; [constructor|done].
  - rewrite saved_snoc. destruct IH as (IH & Hid & Hids).
    unfold saveRound. cbn [rounds_table last_id].
    split; [|split].
    + apply Forall2_app; [done|]. constructor; [|constructor].
      apply round_trip.
    + rewrite Hid, length_app. simpl. lia.
    + rewrite fmap_app, Hids, length_app, seq_app, fmap_app. simpl.
      rewrite Hid. do 3 f_equal. lia.
Qed.

Lemma getRounds_saved (rs : list RoundState) (page limit : Z) :
  getRounds JSON_parse page limit (saved JSON_stringify rs)
  = Returns
      {| r_rounds :=
           (let from := drop (Z.to_nat ((page - 1) * limit)) (reverse rs) in
            if limit <? 0 then from else take (Z.to_nat limit) from);
         r_total := Z.of_nat (length rs); r_page := page; r_limit := limit;
         r_totalPages := ceil_div (Z.of_nat (length rs)) limit |}.
Proof.
  destruct (saved_table rs) as (Hrows & _ & _).
  unfold getRounds, select_rows. cbv zeta.
  rewrite <- (Forall2_length _ _ _ Hrows).
  set (picked := if limit <? 0 then _ else _).
  set (rounds := if limit <? 0 then _ else _).
  assert (Forall2 (λ row round, JSON_parse (row_data row) = Some round)
            picked rounds) as Hp.
  { subst picked rounds.
    assert (Forall2 (λ row round, JSON_parse (row_data row) = Some round)
              (drop (Z.to_nat ((page - 1) * limit))
                 (reverse (rounds_table (saved JSON_stringify rs))))
              (drop (Z.to_nat ((page - 1) * limit)) (reverse rs))) as Hd
      by (by apply Forall2_drop, Forall2_reverse).
    destruct (limit <? 0); [done|]. by apply Forall2_take. }
  apply mapM_Some in Hp. by rewrite Hp.
Qed.

(** X21: the pages of [getRounds] are the archive, newest round first,
    each round once.  For rounds saved by [saveRound] and a page size
    [limit >= 1], [getRounds] returns for every page number; it reports
    the number of saved rounds and as the number of pages the least one
    that holds them all; a page has at most [limit] rounds, exactly
    [limit] before the last page and none after it; and the pages from 1
    to the last, one after the other, are the saved rounds from the last
    saved to the first. *)
Theorem getRounds_pages (rs : list RoundState) (limit : Z) :
  1 ≤ limit →
  ∃ totalPages : nat,
    limit * (Z.of_nat totalPages - 1) < Z.of_nat (length rs)
      ≤ limit * Z.of_nat totalPages
    ∧ (∀ page, ∃ pg,
         getRounds JSON_parse page limit (saved JSON_stringify rs)
           = Returns pg
         ∧ r_total pg = Z.of_nat (length rs)
         ∧ r_totalPages pg = Some (Z.of_nat totalPages)
         ∧ Z.of_nat (length (r_rounds pg)) ≤ limit
         ∧ (1 ≤ page < Z.of_nat totalPages →
            Z.of_nat (length (r_rounds pg)) = limit)
         ∧ (Z.of_nat totalPages < page → r_rounds pg = []))
    ∧ concat ((λ p, page_rounds JSON_parse (Z.of_nat p) limit
                      (saved JSON_stringify rs))
              <$> seq 1 totalPages)
      = reverse rs.
Proof.
  intros Hl.
  set (n := Z.of_nat (length rs)).
  set (tp := - ((- n) `div` limit)).
  assert (limit * (tp - 1) < n ≤ limit * tp) as Htp
    by (subst tp; Z.div_mod_to_equations; nia).
  assert (0 ≤ tp) as Htp0 by (subst n; nia).
  exists (Z.to_nat tp). rewrite Z2Nat.id by done.
  split; [done|]. split.
  - intros page. eexists. split; [apply getRounds_saved|].
    cbn [r_rounds r_total r_totalPages]. cbv zeta.
    destruct (Z.ltb_spec limit 0) as [?|_]; [lia|].
    split; [done|]. split.
    { unfold ceil_div. destruct (Z.eqb_spec limit 0); [lia|done]. }
    rewrite length_take, length_drop, length_reverse. fold n.
    split; [lia|]. split.
    + intros Hp. nia.
    + intros Hp. apply nil_length_inv.
      rewrite length_take, length_drop, length_reverse. nia.
  - unfold page_rounds.
    erewrite (list_fmap_ext _
                (λ p, take (Z.to_nat limit)
                        (drop ((p - 1) * Z.to_nat limit) (reverse rs)))).
    2: { intros i p _. rewrite getRounds_saved. cbn [r_rounds]. cbv zeta.
         destruct (Z.ltb_spec limit 0) as [?|_]; [lia|].
         do 2 f_equal. nia. }
    rewrite <- (fmap_S_seq 0), <- list_fmap_compose.
    erewrite (list_fmap_ext _
                (λ p, take (Z.to_nat limit)
                        (drop (p * Z.to_nat limit) (reverse rs)))).
    2: { intros i p _. simpl. do 2 f_equal. lia. }
    rewrite pages_concat; [done|lia|].
    rewrite length_reverse. fold n. nia.
Qed.

(** X22: a saved round is the first of the first page.  After
    [saveRound(round)], [getRounds(1, limit)] with [limit >= 1] reports
    one round more and returns the new round first, before the rounds it
    returned until then. *)
Theorem saveRound_newest_first (rs : list RoundState) (round : RoundState)
    (limit : Z) :
  1 ≤ limit →
  ∃ pg,
    getRounds JSON_parse 1 limit
      (saveRound JSON_stringify round (saved JSON_stringify rs))
      = Returns pg
    ∧ r_total pg = Z.of_nat (length rs) + 1
    ∧ r_rounds pg
      = round :: take (Z.to_nat (limit - 1))
                   (page_rounds JSON_parse 1 limit (saved JSON_stringify rs)).
Proof.
  intros Hl. rewrite <- saved_snoc. eexists.
  split; [apply getRounds_saved|]. cbn [r_total r_rounds]. cbv zeta.
  unfold page_rounds. rewrite getRounds_saved. cbn [r_rounds]. cbv zeta.
  destruct (Z.ltb_spec limit 0) as [?|_]; [lia|].
  split; [rewrite length_app; simpl; lia|].
  change (Z.to_nat ((1 - 1) * limit)) with 0%nat. simpl drop.
  rewrite reverse_snoc.
  replace (Z.to_nat limit) with (S (Z.to_nat (limit - 1))) by lia.
  simpl. f_equal. rewrite take_take. f_equal. lia.
Qed.

End ArchiveFacts.

Lemma getRounds_pages_witness :
  ∃ totalPages : nat,
    2 * (Z.of_nat totalPages - 1) < 3 ≤ 2 * Z.of_nat totalPages
    ∧ concat ((λ p, page_rounds Some (Z.of_nat p) 2
                      (saved id
                         [mk_round done_phase None "A" "B" [];
                          mk_round done_phase None "C" "D" [];
                          mk_round done_phase None "E" "F" []]))
              <$> seq 1 totalPages)
      = [mk_round done_phase None "E" "F" [];
         mk_round done_phase None "C" "D" [];
         mk_round done_phase None "A" "B" []].
Proof.
  destruct (getRounds_pages id Some (λ _, eq_refl)
              [mk_round done_phase None "A" "B" [];
               mk_round done_phase None "C" "D" [];
               mk_round done_phase None "E" "F" []] 2)
    as (totalPages & Htp & _ & Hcat); [lia|].
  exists totalPages. split; [exact Htp|exact Hcat].
Defined.

Lemma saveRound_newest_first_witness :
  ∃ pg,
    getRounds Some 1 2
      (saveRound id (mk_round done_phase None "C" "D" [])
         (saved id [mk_round done_phase None "A" "B" []]))
      = Returns pg
    ∧ r_total pg = 2
    ∧ r_rounds pg
      = [mk_round done_phase None "C" "D" [];
         mk_round done_phase None "A" "B" []].
Proof.
  destruct (saveRound_newest_first id Some (λ _, eq_refl)
              [mk_round done_phase None "A" "B" []]
              (mk_round done_phase None "C" "D" []) 2)
    as (pg & Hpg & Htotal & Hrounds); [lia|].
  exists pg. split; [exact Hpg|]. split; [exact Htotal|exact Hrounds].
Defined.

(** ** Contestant card *)

Lemma textLines_count (measureText : jsstring → jsstring → Q) (fuel : nat)
    (text : jsstring) (maxWidth : Q) (font : jsstring) (maxLines : Z)
    (ls : list jsstring) :
  textLines measureText fuel text maxWidth font maxLines = Some (Returns ls) →
  Z.of_nat (length ls) ≤ maxLines.
Proof.
  intros Hr.
  pose proof (textLines_mono measureText maxWidth font fuel
                (fuel `max` S (length text)) ltac:(lia) text maxLines _ Hr)
    as Hr'.
  destruct (textLines_total measureText maxWidth font text maxLines
              (fuel `max` S (length text)) ltac:(lia)) as (r & Hr'' & Hlen).
  rewrite Hr' in Hr''. injection Hr'' as <-. lia.
Qed.

(** X23: on the cards of the round screen the answer stays clear of the
    votes.  For either card [drawRound] draws, [drawContestantCard] writes
    at most 6 lines of answer, 52 apart, the last no lower than 380 under
    the top of the card; the bar of the judges' votes, drawn in the
    phases "voting" and "done", lies at least 458 under the top, the
    avatars under it end above the bar of the viewers' votes, and all of
    them end inside the card, which ends at y = 1040. *)
Theorem answer_above_votes (measureText : jsstring → jsstring → Q)
    (fuel : nat) (now : Z) (round : RoundState) (task : TaskInfo)
    (d : round_drawing) (A B b : box) :
  drawRound measureText fuel now round = Some (Returns d) →
  cards d = Some (A, B) → b = A ∨ b = B →
  (length (answerText task) < fuel)%nat →
  ∃ g, card_geometry measureText fuel task b round = Some (Returns g)
       ∧ (∀ i line x y, answerLines g !! i = Some (line, x, y) →
            (i < 6)%nat ∧ x = box_x b + 24
            ∧ y = box_y b + 120 + 52 * Z.of_nat i
            ∧ y ≤ box_y b + 380)
       ∧ (is_Some (modelVoteBarY g)
          ↔ phase round = voting ∨ phase round = done_phase)
       ∧ (∀ bar, modelVoteBarY g = Some bar →
            box_y b + 458 ≤ bar
            ∧ avatarY g = Some (bar + 12)
            ∧ bar + 12 + 28 ≤ 1040
            ∧ ∀ viewers, viewerVoteBarY g = Some viewers →
                bar + 12 + 28 < viewers ∧ viewers + 4 ≤ 1040).
Proof.
  intros Hd Hcards Hb Hf.
  assert (box_y b + box_h b = 1040 ∧ 568 ≤ box_h b) as [Hend Hh].
  { revert Hd. unfold drawRound, drawTextBlock. cbv zeta.
    destruct (textLines _ _ _ _ _ _) as [[ls|e]|] eqn:Hr; [|done..].
    cbn [mbind option_bind]. intros [= <-]. cbn [cards] in Hcards.
    apply textLines_count in Hr.
    destruct (bool_decide (phase round = prompting)); [done|].
    simpl in Hcards. injection Hcards as <- <-.
    destruct Hb as [-> | ->]; cbn [box_y box_h]; lia. }
  destruct (textLines_total measureText (inject_Z (box_w b - 48)) answerFont
              (answerText task) 6 fuel Hf) as (r & Hr & Hlen).
  destruct r as [ls|e]; [|lia]. destruct Hlen as [_ Hlen].
  unfold card_geometry, drawTextBlock. cbv zeta. rewrite Hr.
  cbn [mbind option_bind]. eexists. split; [reflexivity|].
  cbn [answerLines modelVoteBarY avatarY viewerVoteBarY].
  split; [|split].
  - intros i line x y. rewrite list_lookup_imap.
    destruct (ls !! i) eqn:Ei; [|done]. simpl. intros [= <- <- <-].
    apply lookup_lt_Some in Ei. lia.
  - destruct (phase round); simpl; split;
      try (intros [? [=]]); try (intros [[=]|[=]]); eauto.
  - intros bar.
    destruct (bool_decide (phase round = voting)
              || bool_decide (phase round = done_phase)); [|done].
    destruct (0 <? _); simpl; intros [= <-];
      (split; [lia|]); (split; [done|]); (split; [lia|]);
      intros viewers [= <-]; lia.
Qed.

Lemma answer_above_votes_witness :
  ∃ g, card_geometry wide_glyphs 19 (mk_task (mk_model "A"))
         {| box_x := 64; box_y := 328; box_w := 690; box_h := 712 |}
         (mk_round voting None "A" "B" scenario_votes) = Some (Returns g)
       ∧ modelVoteBarY g = Some 980.
Proof.
  pose (round := mk_round voting None "A" "B" scenario_votes).
  pose (A := {| box_x := 64; box_y := 328; box_w := 690; box_h := 712 |}).
  pose (B := {| box_x := 786; box_y := 328; box_w := 690; box_h := 712 |}).
  destruct (drawRound wide_glyphs 19 0 round) as [[d|e]|] eqn:Hd;
    [|vm_compute in Hd; discriminate Hd..].
  assert (cards d = Some (A, B)) as Hcards.
  { vm_compute in Hd. injection Hd as <-. reflexivity. }
  destruct (answer_above_votes wide_glyphs 19 0 round
              (mk_task (mk_model "A")) d A B A Hd Hcards)
    as (g & Hg & _); [by left|simpl; lia|].
  exists g. split; [exact Hg|].
  vm_compute in Hg. injection Hg as <-. reflexivity.
Defined.

(** ** Text layout: no empty line *)

Section NoEmptyLine.

Variable measureText : jsstring → jsstring → Q.
Variables (maxWidth : Q) (font : jsstring) (maxLines : Z).

Lemma place_segments_truthy (segments : list jsstring) :
  ∀ isFirstSegment st,
    Forall (λ l, truthy l = true) (lines st) →
    Forall (λ l, truthy l = true)
      (lines (place_segments measureText maxWidth font maxLines segments
                isFirstSegment st)).
Proof.
  induction segments as [|seg rest IH]; intros isF st Hl; [done|].
  assert (Forall (λ l, truthy l = true)
            (if truthy (current st) then lines st ++ [current st]
             else lines st)) as Hpushed.
  { destruct (truthy (current st)) eqn:Ec; [|done].
    apply Forall_app. split; [done|]. by apply Forall_singleton. }
  simpl.
  destruct (fits _ _ _ _); [by apply IH|].
  destruct (cap_reached _ _); [done|]. by apply IH.
Qed.

Lemma place_words_truthy (fuel : nat) (words : list jsstring) :
  ∀ st st',
    place_words measureText maxWidth font maxLines fuel words st = Some st' →
    Forall (λ l, truthy l = true) (lines st) →
    Forall (λ l, truthy l = true) (lines st').
Proof.
  induction words as [|word rest IH]; intros st st' Hr Hl.
  - by injection Hr as <-.
  - simpl in Hr.
    destruct (splitWordToFit _ _ _ _ _) as [segments|]; [|done].
    simpl in Hr.
    pose proof (place_segments_truthy segments true st Hl) as Hl'.
    destruct (cap_reached _ _); [by injection Hr as <-|].
    by apply (IH _ _ Hr).
Qed.

(** X24: [textLines] returns no empty line.  Whatever the text, the
    widths, the bound and the cap, every line of a result holds at least
    one code unit, so the number of lines returned is the number of lines
    that show, and [drawTextBlock] never writes an empty text. *)
Theorem textLines_no_blank_line (fuel : nat) (text : jsstring)
    (ls : list jsstring) :
  textLines measureText fuel text maxWidth font maxLines
    = Some (Returns ls) →
  Forall (λ l, l ≠ []) ls
  ∧ ∀ x y lineHeight written,
      drawTextBlock measureText fuel text x y maxWidth lineHeight font
        maxLines = Some (Returns written) →
      Forall (λ w, w.1.1 ≠ []) written.
Proof.
  intros Hr.
  assert (Forall (λ l, l ≠ []) ls) as Hls.
  { revert Hr. unfold textLines.
    destruct (place_words _ _ _ _ _ _ _) as [st|] eqn:Hst; [|done].
    cbn [mbind option_bind].
    apply place_words_truthy in Hst; [|constructor].
    set (pushed := if truthy (current st) then lines st ++ [current st]
                   else lines st).
    assert (Forall (λ l, truthy l = true) pushed) as Hp.
    { subst pushed. destruct (truthy (current st)) eqn:Ec; [|done].
      apply Forall_app. split; [done|]. by apply Forall_singleton. }
    assert (∀ cut, Forall (λ l, truthy l = true) cut →
              Returns <$> ellipsize measureText fuel maxWidth font maxLines
                            (words_of text) cut
              = Some (Returns ls) → Forall (λ l, l ≠ []) ls) as Hell.
    { intros cut Hcut. unfold ellipsize.
      assert (Forall (λ l, l ≠ []) cut) as Hcut'
        by (eapply Forall_impl; [exact Hcut|]; by intros []).
      destruct (_ && _); [|by intros [= <-]].
      destruct (overflows _ _ _ _); [|by intros [= <-]].
      destruct (while_loop _ _ _ _) as [trimmed|]; [|done].
      simpl. intros [= <-]. unfold array_set.
      destruct (maxLines - 1 <? 0); [done|].
      apply Forall_insert; [done|]. by destruct trimmed. }
    destruct (maxLines <? Z.of_nat (length pushed)).
    - unfold set_length. destruct (maxLines <? 0); [done|].
      apply Hell. by apply Forall_take.
    - by apply Hell. }
  split; [exact Hls|].
  intros x y lineHeight written. unfold drawTextBlock. rewrite Hr.
  cbn [mbind option_bind]. intros [= <-].
  apply Forall_lookup. intros i w. rewrite list_lookup_imap.
  destruct (ls !! i) as [l|] eqn:El; [|done]. simpl. intros [= <-].
  simpl. by eapply Forall_lookup_1 in Hls.
Qed.

End NoEmptyLine.

Lemma textLines_no_blank_line_witness :
  ∃ ls,
    textLines wide_glyphs 18 (js "  hello   wide world") 50 (js "serif") 3
      = Some (Returns ls)
    ∧ Forall (λ l, l ≠ []) ls.
Proof.
  destruct (textLines wide_glyphs 18 (js "  hello   wide world") 50
              (js "serif") 3) as [[ls|e]|] eqn:Hr;
    [|vm_compute in Hr; discriminate Hr..].
  exists ls. split; [reflexivity|].
  apply (textLines_no_blank_line wide_glyphs 50 (js "serif") 3 18
           (js "  hello   wide world") ls Hr).
Defined.
